(** * DataProxy: query classification, routing and the client session

    A shallow embedding of the Python package [dataproxy]:
    - [query_analyzer.py]  ([QueryAnalyzer]): lexical classification of SQL
      text, table-name extraction, the safety denylist;
    - [database.py]        ([DatabaseManager]): the two backing stores;
    - [query_router.py]    ([QueryRouter]): the routing decisions;
    - [proxy_server.py]    ([ClientHandler]): framing and the query loop.

    Text.  A Python [str] is represented by a [string] of 8-bit characters
    (its UTF-8 bytes).  The character classes below ([is_space], [is_word],
    [upper_char]) are those of Python on the ASCII range, and only there:
    Python's [str.upper], [str.strip] and the classes [\s] and [\w] of [re]
    also know the letters and spaces outside it.  The properties that
    depend on the class of a character are therefore stated for ASCII
    text, [isascii]. *)

From Stdlib Require Import String Ascii List ZArith Bool Lia Arith.
From Stdlib Require Import Numbers.DecimalString.
Import ListNotations.
Open Scope string_scope.
Open Scope nat_scope.

(* ===================================================================== *)
(** ** Python string primitives *)
(* ===================================================================== *)

Module Text.

(** [str.isspace] on one ASCII character, which is also the class [\s] of
    [re] there: TAB, LF, VT, FF, CR, the separators FS GS RS US, and the
    blank.  (Python also counts spaces outside ASCII, such as U+00A0.) *)
Definition is_space (c : ascii) : bool :=
  let n := nat_of_ascii c in
  ((9 <=? n) && (n <=? 13)) || ((28 <=? n) && (n <=? 32)).

Definition is_newline (c : ascii) : bool := (nat_of_ascii c =? 10).

Definition is_lower (c : ascii) : bool :=
  let n := nat_of_ascii c in (97 <=? n) && (n <=? 122).

Definition is_upper (c : ascii) : bool :=
  let n := nat_of_ascii c in (65 <=? n) && (n <=? 90).

Definition is_digit (c : ascii) : bool :=
  let n := nat_of_ascii c in (48 <=? n) && (n <=? 57).

(** The class [\w] of [re] on ASCII characters: letters, digits and the
    underscore.  (Python also counts the letters outside ASCII.) *)
Definition is_word (c : ascii) : bool :=
  is_lower c || is_upper c || is_digit c || (nat_of_ascii c =? 95).

Definition upper_char (c : ascii) : ascii :=
  if is_lower c then ascii_of_nat (nat_of_ascii c - 32) else c.

(** [s.upper()] on ASCII text, where it maps [a]-[z] to [A]-[Z] and
    leaves the rest.  (Python also maps the letters outside ASCII.) *)
Fixpoint upper (s : string) : string :=
  match s with
  | EmptyString => EmptyString
  | String c s' => String (upper_char c) (upper s')
  end.

Definition is_empty (s : string) : bool :=
  match s with EmptyString => true | _ => false end.

(** [s.lstrip()], [s.rstrip()], [s.strip()] *)
Fixpoint lstrip (s : string) : string :=
  match s with
  | EmptyString => EmptyString
  | String c s' => if is_space c then lstrip s' else s
  end.

Fixpoint rstrip (s : string) : string :=
  match s with
  | EmptyString => EmptyString
  | String c s' =>
      let r := rstrip s' in
      if is_space c && is_empty r then EmptyString else String c r
  end.

Definition strip (s : string) : string := rstrip (lstrip s).

(** [s.startswith(p)] *)
Definition startswith (s p : string) : bool := prefix p s.

(** [needle in hay] *)
Fixpoint contains (needle hay : string) : bool :=
  prefix needle hay ||
  match hay with
  | EmptyString => false
  | String _ hay' => contains needle hay'
  end.

(** [s.split()]: the maximal runs of non-space characters. [cur] is the
    word being read. *)
Fixpoint split_from (cur : string) (s : string) : list string :=
  match s with
  | EmptyString => if is_empty cur then [] else [cur]
  | String c s' =>
      if is_space c
      then (if is_empty cur then split_from EmptyString s'
            else cur :: split_from EmptyString s')
      else split_from (cur ++ String c EmptyString) s'
  end.

Definition split (s : string) : list string := split_from EmptyString s.

(** The longest prefix of [s] whose characters satisfy [p], and the rest. *)
Fixpoint span (p : ascii -> bool) (s : string) : string * string :=
  match s with
  | EmptyString => (EmptyString, EmptyString)
  | String c s' =>
      if p c then let (a, b) := span p s' in (String c a, b)
      else (EmptyString, s)
  end.

(** [sep.join(parts)] *)
Fixpoint join (sep : string) (parts : list string) : string :=
  match parts with
  | [] => EmptyString
  | [x] => x
  | x :: rest => x ++ sep ++ join sep rest
  end.

(** [str(n)] for an integer. *)
Definition str_of_Z (z : Z) : string := NilEmpty.string_of_int (Z.to_int z).

(** [re.sub(r'--.*$', '', s, flags=re.MULTILINE)]: every [--] is removed
    together with what follows it on its line; the line feed stays.
    [in_comment] holds while the scan is inside such a match. *)
Fixpoint remove_line_comments_from (in_comment : bool) (s : string) : string :=
  match s with
  | EmptyString => EmptyString
  | String c s' =>
      if in_comment then
        if is_newline c then String c (remove_line_comments_from false s')
        else remove_line_comments_from true s'
      else if prefix "--" s then remove_line_comments_from true s'
      else String c (remove_line_comments_from false s')
  end.

Definition remove_line_comments : string -> string :=
  remove_line_comments_from false.

(** [re.sub(r'/\*.*?\*/', '', s, flags=re.DOTALL)]: a [/*] is removed with
    everything up to the first [*/] after it; a [/*] with no [*/] after it
    is kept.  The scan is a four-state machine. *)
Inductive block_mode := Outside | AfterSlash | Inside | AfterStar.

Definition tail (s : string) : string :=
  match s with EmptyString => EmptyString | String _ s' => s' end.

Fixpoint remove_block_comments_from (m : block_mode) (s : string) : string :=
  match s with
  | EmptyString => EmptyString
  | String c s' =>
      match m with
      | Outside =>
          if prefix "/*" s && contains "*/" (tail s')
          then remove_block_comments_from AfterSlash s'
          else String c (remove_block_comments_from Outside s')
      | AfterSlash => remove_block_comments_from Inside s'
      | Inside =>
          if prefix "*/" s then remove_block_comments_from AfterStar s'
          else remove_block_comments_from Inside s'
      | AfterStar => remove_block_comments_from Outside s'
      end
  end.

Definition remove_block_comments : string -> string :=
  remove_block_comments_from Outside.

(** [re.sub(r'\s+', ' ', s)] *)
Fixpoint collapse_spaces_from (after_space : bool) (s : string) : string :=
  match s with
  | EmptyString => EmptyString
  | String c s' =>
      if is_space c then
        if after_space then collapse_spaces_from true s'
        else String " " (collapse_spaces_from true s')
      else String c (collapse_spaces_from false s')
  end.

Definition collapse_spaces : string -> string := collapse_spaces_from false.

End Text.

(* ===================================================================== *)
(** ** Regular expressions of the denylist *)
(* ===================================================================== *)

Module Regex.

Inductive regex : Type :=
| Never                                (* matches nothing *)
| Empty                                (* the empty string *)
| Cls (p : ascii -> bool)              (* one character of a class *)
| Seq (r1 r2 : regex)
| Alt (r1 r2 : regex)
| Star (r : regex).

Fixpoint nullable (r : regex) : bool :=
  match r with
  | Never => false
  | Empty => true
  | Cls _ => false
  | Seq r1 r2 => nullable r1 && nullable r2
  | Alt r1 r2 => nullable r1 || nullable r2
  | Star _ => true
  end.

Definition mkSeq (r1 r2 : regex) : regex :=
  match r1, r2 with
  | Never, _ => Never
  | _, Never => Never
  | Empty, _ => r2
  | _, _ => Seq r1 r2
  end.

Definition mkAlt (r1 r2 : regex) : regex :=
  match r1, r2 with
  | Never, _ => r2
  | _, Never => r1
  | _, _ => Alt r1 r2
  end.

(** The derivative of [r] by the character [c]. *)
Fixpoint deriv (c : ascii) (r : regex) : regex :=
  match r with
  | Never => Never
  | Empty => Never
  | Cls p => if p c then Empty else Never
  | Seq r1 r2 =>
      mkAlt (mkSeq (deriv c r1) r2)
            (if nullable r1 then deriv c r2 else Never)
  | Alt r1 r2 => mkAlt (deriv c r1) (deriv c r2)
  | Star r1 => mkSeq (deriv c r1) (Star r1)
  end.

(** Some prefix of [s] matches [r]. *)
Fixpoint match_prefix (r : regex) (s : string) : bool :=
  nullable r ||
  match s with
  | EmptyString => false
  | String c s' => match_prefix (deriv c r) s'
  end.

(** [re.search(r, s)] as a truth value: a match starts somewhere in [s]. *)
Fixpoint search (r : regex) (s : string) : bool :=
  match_prefix r s ||
  match s with
  | EmptyString => false
  | String _ s' => search r s'
  end.

(** A literal character under [re.IGNORECASE]. *)
Definition ichar (c : ascii) : regex :=
  Cls (fun x => Ascii.eqb (Text.upper_char x) (Text.upper_char c)).

(** Literal text under [re.IGNORECASE]. *)
Fixpoint lit (s : string) : regex :=
  match s with
  | EmptyString => Empty
  | String c s' => Seq (ichar c) (lit s')
  end.

(** [\s+] *)
Definition spaces1 : regex := Seq (Cls Text.is_space) (Star (Cls Text.is_space)).

(** [.*] without [re.DOTALL]: any run of characters other than line feeds. *)
Definition any_star : regex := Star (Cls (fun c => negb (Text.is_newline c))).

End Regex.

(* ===================================================================== *)
(** ** query_analyzer.py *)
(* ===================================================================== *)

Module QueryAnalyzer.
Import Text.

Inductive QueryType := READ | WRITE | UNKNOWN.

Definition QueryType_eqb (a b : QueryType) : bool :=
  match a, b with
  | READ, READ | WRITE, WRITE | UNKNOWN, UNKNOWN => true
  | _, _ => false
  end.

Definition WRITE_KEYWORDS : list string :=
  ["INSERT"; "UPDATE"; "DELETE"; "REPLACE"; "TRUNCATE"; "DROP"; "CREATE"; "ALTER"].

Definition READ_KEYWORDS : list string :=
  ["SELECT"; "SHOW"; "DESCRIBE"; "EXPLAIN"; "USE"].

(** [w in KEYWORDS] *)
Definition mem (w : string) (l : list string) : bool :=
  existsb (String.eqb w) l.

(** The working copy of [analyze_query]: stripped, upper-cased, comments
    removed, runs of white space collapsed to one blank, stripped again. *)
Definition normalize (query : string) : string :=
  let q0 := upper (strip query) in
  let q1 := remove_line_comments q0 in
  let q2 := remove_block_comments q1 in
  strip (collapse_spaces q2).

(** [_classify_query] *)
Definition _classify_query (query : string) : QueryType :=
  match split query with
  | [] => UNKNOWN
  | first_word :: _ =>
      if mem first_word WRITE_KEYWORDS then WRITE
      else if mem first_word READ_KEYWORDS then READ
      else if contains "INTO" query || contains "SET" query then WRITE
      else if contains "FROM" query || contains "JOIN" query then READ
      else UNKNOWN
  end.

(** The keyword [kw] read at the head of [s] without regard to case; the
    result is what follows it. *)
Fixpoint skip_keyword (kw s : string) : option string :=
  match kw, s with
  | EmptyString, _ => Some s
  | String k kw', String c s' =>
      if Ascii.eqb (upper_char k) (upper_char c) then skip_keyword kw' s'
      else None
  | String _ _, EmptyString => None
  end.

Definition backtick : ascii := ascii_of_nat 96.

Definition starts_with_backtick (s : string) : bool :=
  match s with
  | String c _ => Ascii.eqb c backtick
  | EmptyString => false
  end.

(** One match of the pattern [KW\s+`?(\w+)`?] at the head of [s]: the
    captured identifier and the number of characters the match spans. *)
Definition match_table_after (kw s : string) : option (string * nat) :=
  match skip_keyword kw s with
  | None => None
  | Some r1 =>
      let (sp, r2) := span is_space r1 in
      if is_empty sp then None
      else
        let quoted := starts_with_backtick r2 in
        let (ident, r3) := span is_word (if quoted then tail r2 else r2) in
        if is_empty ident then None
        else
          Some (ident,
                String.length kw + String.length sp + (if quoted then 1 else 0)
                + String.length ident
                + (if starts_with_backtick r3 then 1 else 0))
  end.

(** [re.findall(r'KW\s+`?(\w+)`?', s, re.IGNORECASE)]: the matches are
    taken from left to right and do not overlap; [skip] characters remain
    of the match in progress. *)
Fixpoint findall_tables_from (kw : string) (skip : nat) (s : string) : list string :=
  match s with
  | EmptyString => []
  | String _ s' =>
      match skip with
      | S k => findall_tables_from kw k s'
      | O =>
          match match_table_after kw s with
          | Some (ident, n) => ident :: findall_tables_from kw (n - 1) s'
          | None => findall_tables_from kw 0 s'
          end
      end
  end.

Definition findall_tables (kw s : string) : list string :=
  findall_tables_from kw 0 s.

Section Analyze.

(** [list(set(xs))]: the order in which Python enumerates a set of strings
    is not fixed by the language, so it is a parameter here. *)
Variable list_of_set : list string -> list string.

(** [_extract_table_names]; none of the calls in its [try] block raises. *)
Definition _extract_table_names (query : string) (query_type : QueryType) : list string :=
  let table_names :=
    match query_type with
    | READ => (findall_tables "FROM" query ++ findall_tables "JOIN" query)%list
    | WRITE =>
        if startswith query "INSERT" then findall_tables "INTO" query
        else if startswith query "UPDATE" then findall_tables "UPDATE" query
        else if startswith query "DELETE" then findall_tables "FROM" query
        else if startswith query "REPLACE" then findall_tables "INTO" query
        else if startswith query "TRUNCATE" then findall_tables "TABLE" query
        else if startswith query "DROP" then findall_tables "TABLE" query
        else if startswith query "CREATE" then findall_tables "TABLE" query
        else if startswith query "ALTER" then findall_tables "TABLE" query
        else []
    | UNKNOWN => []
    end in
  list_of_set (filter (fun s => negb (is_empty s)) table_names).

(** [analyze_query]: the type, the tables, the stripped original text. *)
Definition analyze_query (query : string) : QueryType * list string * string :=
  let normalized_query := normalize query in
  let query_type := _classify_query normalized_query in
  let table_names := _extract_table_names normalized_query query_type in
  (query_type, table_names, strip query).

End Analyze.

(** The denylist of [is_safe_query], pattern by pattern. *)
Definition two_words (a b : string) : Regex.regex :=
  Regex.Seq (Regex.lit a) (Regex.Seq Regex.spaces1 (Regex.lit b)).

Definition words_around_anything (a b : string) : Regex.regex :=
  Regex.Seq (Regex.lit a)
    (Regex.Seq Regex.spaces1
       (Regex.Seq Regex.any_star (Regex.Seq Regex.spaces1 (Regex.lit b)))).

Definition dangerous_patterns : list Regex.regex :=
  [ two_words "DROP" "DATABASE";             (* DROP\s+DATABASE     *)
    two_words "CREATE" "DATABASE";           (* CREATE\s+DATABASE   *)
    two_words "ALTER" "DATABASE";            (* ALTER\s+DATABASE    *)
    words_around_anything "GRANT" "ON";      (* GRANT\s+.*\s+ON     *)
    words_around_anything "REVOKE" "FROM";   (* REVOKE\s+.*\s+FROM  *)
    two_words "FLUSH" "PRIVILEGES";          (* FLUSH\s+PRIVILEGES  *)
    two_words "SET" "PASSWORD";              (* SET\s+PASSWORD      *)
    two_words "CREATE" "USER";               (* CREATE\s+USER       *)
    two_words "DROP" "USER" ].               (* DROP\s+USER         *)

(** [is_safe_query] *)
Definition is_safe_query (query : string) : bool :=
  let normalized_query := upper (strip query) in
  negb (existsb (fun pattern => Regex.search pattern normalized_query)
                dangerous_patterns).

(** The classifier as the specification words it: the fallback looks for
    [INTO], [SET], [FROM] and [JOIN] among the tokens of the statement. *)
Definition classify_by_tokens (query : string) : QueryType :=
  match split query with
  | [] => UNKNOWN
  | first_word :: _ =>
      if mem first_word WRITE_KEYWORDS then WRITE
      else if mem first_word READ_KEYWORDS then READ
      else if mem "INTO" (split query) || mem "SET" (split query) then WRITE
      else if mem "FROM" (split query) || mem "JOIN" (split query) then READ
      else UNKNOWN
  end.

End QueryAnalyzer.


(* ===================================================================== *)
(** ** Python effects: exceptions over a mutable state *)
(* ===================================================================== *)

Module Py.

(** The exceptions the modelled code can meet. *)
Inductive Exc :=
| KeyError (key : string)
| TypeError (msg : string)
| AttributeError (msg : string)
| OverflowError (msg : string)
| OSError (msg : string).

(** [str(e)] *)
Definition str_of_exc (e : Exc) : string :=
  match e with
  | KeyError key => "'" ++ key ++ "'"
  | TypeError msg | AttributeError msg | OverflowError msg | OSError msg => msg
  end.

Inductive Res (A : Type) :=
| Ok (a : A)
| Raised (e : Exc).
Arguments Ok {A} a.
Arguments Raised {A} e.

(** A computation over a state [S] that returns an [A] or raises. *)
Definition M (S A : Type) : Type := S -> Res A * S.

Definition ret {S A} (a : A) : M S A := fun s => (Ok a, s).

Definition raise {S A} (e : Exc) : M S A := fun s => (Raised e, s).

Definition bind {S A B} (c : M S A) (k : A -> M S B) : M S B :=
  fun s =>
    match c s with
    | (Ok a, s') => k a s'
    | (Raised e, s') => (Raised e, s')
    end.

(** [try: c  except Exception as e: h e]; what [c] did to the state before
    it raised stays done. *)
Definition try_except {S A} (c : M S A) (h : Exc -> M S A) : M S A :=
  fun s =>
    match c s with
    | (Ok a, s') => (Ok a, s')
    | (Raised e, s') => h e s'
    end.

Definition modify {S} (f : S -> S) : M S unit := fun s => (Ok tt, f s).

End Py.

Import Py.

Declare Scope py_scope.
Delimit Scope py_scope with py.
Notation "x <- c ;; k" := (bind c (fun x => k))
  (at level 61, c at next level, right associativity) : py_scope.
Notation "c ;;; k" := (bind c (fun _ => k))
  (at level 61, right associativity) : py_scope.
Open Scope py_scope.

(* ===================================================================== *)
(** ** database.py *)
(* ===================================================================== *)

Module Database.
Import Text.

(** A cell of a result row: [None], an integer or a string. *)
Inductive Value := VNone | VInt (z : Z) | VStr (s : string).

(** [dict(row._mapping)]: column names with their values, in order. *)
Definition Row : Type := list (string * Value).

Fixpoint lookup (k : string) (r : Row) : option Value :=
  match r with
  | [] => None
  | (k', v) :: r' => if String.eqb k k' then Some v else lookup k r'
  end.

(** [row[k]] *)
Definition getitem {S} (r : Row) (k : string) : M S Value :=
  match lookup k r with
  | Some v => ret v
  | None => raise (KeyError k)
  end.

(** [str(v)] *)
Definition str_of_value (v : Value) : string :=
  match v with
  | VNone => "None"
  | VInt z => str_of_Z z
  | VStr s => s
  end.

(** [bool(v)] *)
Definition truthy (v : Value) : bool :=
  match v with
  | VNone => false
  | VInt z => negb (Z.eqb z 0)
  | VStr s => negb (is_empty s)
  end.

Definition Value_eqb (a b : Value) : bool :=
  match a, b with
  | VNone, VNone => true
  | VInt x, VInt y => Z.eqb x y
  | VStr x, VStr y => String.eqb x y
  | _, _ => false
  end.

(** What a store answers to one statement: a result set, nothing because
    the statement has no result set, or a [SQLAlchemyError]. *)
Inductive EngineResult :=
| Rows (rs : list Row)
| NoResultSet
| SqlError (msg : string).

(** The value [execute_*_query] hands back: the rows, or [None] both for a
    statement without result set and for a caught [SQLAlchemyError]. *)
Definition returned (r : EngineResult) : option (list Row) :=
  match r with
  | Rows rs => Some rs
  | NoResultSet => None
  | SqlError _ => None
  end.

Definition Params : Type := option (list string).

(** The calls that reach the [DatabaseManager], in the order they return,
    with what they returned. *)
Inductive Event :=
| ExecuteLocal (query : string) (params : Params) (r : EngineResult)
| ExecuteProduction (query : string) (params : Params) (r : EngineResult)
| TableExistsLocal (table_name : string) (found : bool)
| GetTableSchema (table_name : string) (schema : option (list Row))
| CreateLocalTable (table_name : string) (schema : list Row) (ok : bool).

Definition nl : string := String (ascii_of_nat 10) EmptyString.

Definition table_exists_sql : string :=
  nl ++ "        SELECT COUNT(*) as count " ++
  nl ++ "        FROM information_schema.tables " ++
  nl ++ "        WHERE table_schema = %s AND table_name = %s" ++
  nl ++ "        ".

Definition table_schema_sql : string :=
  nl ++ "        SELECT column_name, data_type, is_nullable, column_default, extra" ++
  nl ++ "        FROM information_schema.columns " ++
  nl ++ "        WHERE table_schema = %s AND table_name = %s" ++
  nl ++ "        ORDER BY ordinal_position" ++
  nl ++ "        ".

(** The surroundings of the proxy.  The two stores are external: each is a
    state and a function that runs one statement on it.  The names of the
    two databases come from [Config]; the order in which [list(set(xs))]
    enumerates a set and the codec [bytes.decode('utf-8', errors='ignore')]
    come from the Python runtime. *)
Class World := {
  P : Type;
  L : Type;
  prod_engine : P -> string -> Params -> P * EngineResult;
  local_engine : L -> string -> Params -> L * EngineResult;
  PROD_DB_NAME : string;
  LOCAL_DB_NAME : string;
  list_of_set : list string -> list string;
  decode_utf8_ignore : list Byte.byte -> string }.

Section Stores.

Context {W : World}.

Record Db := mkDb {
  prod : P;
  loc : L;
  calls : list Event }.

Definition log (e : Event) : M Db unit :=
  modify (fun s => mkDb (prod s) (loc s) (calls s ++ [e])%list).

(** [execute_production_query] *)
Definition execute_production_query (query : string) (params : Params)
  : M Db (option (list Row)) :=
  fun s =>
    let (p', r) := prod_engine (prod s) query params in
    (Ok (returned r),
     mkDb p' (loc s) (calls s ++ [ExecuteProduction query params r])%list).

(** [execute_local_query] *)
Definition execute_local_query (query : string) (params : Params)
  : M Db (option (list Row)) :=
  fun s =>
    let (l', r) := local_engine (loc s) query params in
    (Ok (returned r),
     mkDb (prod s) l' (calls s ++ [ExecuteLocal query params r])%list).

(** [table_exists_local]: the truth value of
    [result and result[0]['count'] > 0]. *)
Definition table_exists_local (table_name : string) : M Db bool :=
  result <- execute_local_query table_exists_sql
              (Some [LOCAL_DB_NAME; table_name]) ;;
  found <-
    match result with
    | None => ret false
    | Some [] => ret false
    | Some (row :: _) =>
        count <- getitem row "count" ;;
        match count with
        | VInt n => ret (Z.ltb 0 n)
        | VNone =>
            raise (TypeError
              "'>' not supported between instances of 'NoneType' and 'int'")
        | VStr _ =>
            raise (TypeError
              "'>' not supported between instances of 'str' and 'int'")
        end
    end ;;
  log (TableExistsLocal table_name found) ;;;
  ret found.

(** [get_table_schema] *)
Definition get_table_schema (table_name : string) : M Db (option (list Row)) :=
  schema <- execute_production_query table_schema_sql
              (Some [PROD_DB_NAME; table_name]) ;;
  log (GetTableSchema table_name schema) ;;;
  ret schema.

(** One column definition of [create_local_table]. *)
Definition column_definition (col : Row) : M Db string :=
  column_name <- getitem col "column_name" ;;
  data_type <- getitem col "data_type" ;;
  let col_def := "`" ++ str_of_value column_name ++ "` " ++ str_of_value data_type in
  is_nullable <- getitem col "is_nullable" ;;
  let col_def :=
    if Value_eqb is_nullable (VStr "NO") then col_def ++ " NOT NULL" else col_def in
  column_default <- getitem col "column_default" ;;
  col_def <-
    match column_default with
    | VNone => ret col_def
    | _ =>
        column_default <- getitem col "column_default" ;;
        ret (col_def ++ " DEFAULT " ++ str_of_value column_default)
    end ;;
  extra <- getitem col "extra" ;;
  if truthy extra
  then extra <- getitem col "extra" ;; ret (col_def ++ " " ++ str_of_value extra)
  else ret col_def.

Fixpoint column_definitions (schema : list Row) : M Db (list string) :=
  match schema with
  | [] => ret []
  | col :: rest =>
      d <- column_definition col ;;
      ds <- column_definitions rest ;;
      ret (d :: ds)
  end.

Definition create_table_sql (table_name : string) (columns : list string) : string :=
  "CREATE TABLE IF NOT EXISTS `" ++ table_name ++ "` (" ++ join ", " columns ++ ")".

(** [create_local_table]: [execute_local_query] never raises, so the
    [except] branch of the source is not reached and the answer after a
    non-empty schema is [True]. *)
Definition create_local_table (table_name : string) (schema : list Row) : M Db bool :=
  match schema with
  | [] =>
      log (CreateLocalTable table_name schema false) ;;;
      ret false
  | _ =>
      columns <- column_definitions schema ;;
      _ <- execute_local_query (create_table_sql table_name columns) None ;;
      log (CreateLocalTable table_name schema true) ;;;
      ret true
  end.

End Stores.

End Database.

(* ===================================================================== *)
(** ** query_router.py *)
(* ===================================================================== *)

Module Router.
Import Text QueryAnalyzer Database.

Inductive Route := RLocal | RProduction | RRejected | RError.

(** The dictionary [route_query] returns.  A key that a branch does not
    set is [None] here; a key set to Python's [None] is [Some None]. *)
Record Outcome := mkOutcome {
  success : bool;
  error : option string;
  data : option (option (list Row));
  query_type : QueryType;
  routed_to : Route;
  table_names : option (list string);
  rows_affected : option (option Z) }.

Definition failure (msg : string) (qt : QueryType) (r : Route) : Outcome :=
  mkOutcome false (Some msg) None qt r None None.

(** [_get_rows_affected] *)
Definition _get_rows_affected (query : string) : option Z :=
  if startswith (upper query) "INSERT" then Some 1%Z
  else if startswith (upper query) "UPDATE" then Some 1%Z
  else if startswith (upper query) "DELETE" then Some 1%Z
  else None.

Section Routing.

Context {W : World}.

(** [all(self.db_manager.table_exists_local(table) for table in table_names)];
    [all] stops at the first table that is not there. *)
Fixpoint every_table_exists_local (table_names : list string) : M Db bool :=
  match table_names with
  | [] => ret true
  | table :: rest =>
      found <- table_exists_local table ;;
      if found then every_table_exists_local rest else ret false
  end.

Definition read_from_production (query : string) (table_names : list string)
  : M Db Outcome :=
  result <- execute_production_query query None ;;
  ret (mkOutcome true None (Some result) READ RProduction (Some table_names) None).

(** [_handle_read_query] *)
Definition _handle_read_query (query : string) (table_names : list string)
  : M Db Outcome :=
  all_local <- every_table_exists_local table_names ;;
  if all_local && negb (Nat.eqb (List.length table_names) 0) then
    result <- execute_local_query query None ;;
    match result with
    | Some rows =>
        ret (mkOutcome true None (Some (Some rows)) READ RLocal
               (Some table_names) None)
    | None => read_from_production query table_names
    end
  else read_from_production query table_names.

(** The [for] loop of [_handle_write_query]; [Some o] is its early
    [return o], [None] its normal end. *)
Fixpoint ensure_local_tables (table_names : list string) : M Db (option Outcome) :=
  match table_names with
  | [] => ret None
  | table_name :: rest =>
      found <- table_exists_local table_name ;;
      if found then ensure_local_tables rest
      else
        schema <- get_table_schema table_name ;;
        match schema with
        | Some (col :: cols) =>
            ok <- create_local_table table_name (col :: cols) ;;
            if ok then ensure_local_tables rest
            else ret (Some (failure ("Failed to create local table: " ++ table_name)
                              WRITE RError))
        | _ =>
            ret (Some (failure ("Failed to get schema for table: " ++ table_name)
                         WRITE RError))
        end
  end.

(** [_handle_write_query] *)
Definition _handle_write_query (query : string) (table_names : list string)
  : M Db Outcome :=
  match table_names with
  | [] => ret (failure "No table names found in write query" WRITE RError)
  | _ =>
      early <- ensure_local_tables table_names ;;
      match early with
      | Some o => ret o
      | None =>
          result <- execute_local_query query None ;;
          match result with
          | Some rows =>
              ret (mkOutcome true None (Some (Some rows)) WRITE RLocal
                     (Some table_names) (Some (_get_rows_affected query)))
          | None =>
              ret (failure "Write query failed on local database" WRITE RError)
          end
      end
  end.

(** [_handle_unknown_query] *)
Definition _handle_unknown_query (query : string) : M Db Outcome :=
  result <- execute_production_query query None ;;
  ret (mkOutcome
         (match result with Some _ => true | None => false end)
         (Some "Query type unknown, executed on production")
         (Some result) UNKNOWN RProduction None None).

(** [route_query] *)
Definition route_query (query : string) : M Db Outcome :=
  let '(query_type, table_names, clean_query) := analyze_query list_of_set query in
  if negb (is_safe_query query) then
    ret (failure "Query contains potentially dangerous operations"
           query_type RRejected)
  else
    try_except
      (match query_type with
       | READ => _handle_read_query query table_names
       | WRITE => _handle_write_query query table_names
       | UNKNOWN => _handle_unknown_query query
       end)
      (fun e => ret (failure (str_of_exc e) query_type RError)).

End Routing.

End Router.

(* ===================================================================== *)
(** ** proxy_server.py: ClientHandler *)
(* ===================================================================== *)

Module Session.
Import Text QueryAnalyzer Database Router.

Definition bytes : Type := list Byte.byte.

(** [s.encode('utf-8')] *)
Definition encode (s : string) : bytes := list_byte_of_string s.

Definition byte_of_Z (z : Z) : Byte.byte :=
  match Byte.of_N (Z.to_N (z mod 256)) with
  | Some b => b
  | None => Byte.x00
  end.

(** The [len] low bytes of [z], least significant first. *)
Fixpoint le_bytes (len : nat) (z : Z) : bytes :=
  match len with
  | O => []
  | S k => byte_of_Z z :: le_bytes k (z / 256)
  end.

(** [int.from_bytes(bs, 'little')] *)
Fixpoint int_from_bytes (bs : bytes) : nat :=
  match bs with
  | [] => 0
  | b :: rest => Byte.to_nat b + 256 * int_from_bytes rest
  end.

(** What the peer makes the next [recv] meet: bytes that have arrived, or a
    socket error.  When nothing is left the peer has closed. *)
Inductive Arrival :=
| Data (bs : bytes)
| Broken (msg : string).

Section Handler.

Context {W : World}.

Record Sess := mkSess {
  db : Db;                    (* the stores behind the shared router *)
  inbox : list Arrival;       (* what the client socket will deliver *)
  sent : list bytes;          (* what was sent to the client, send by send *)
  sock_open : bool;
  authenticated : bool }.

(** A call into the router, which only touches the stores. *)
Definition in_router {A} (c : M Db A) : M Sess A :=
  fun s =>
    let (r, d) := c (db s) in
    (r, mkSess d (inbox s) (sent s) (sock_open s) (authenticated s)).

(** [z.to_bytes(len, 'little')] *)
Definition to_bytes (len : nat) (z : Z) : M Sess bytes :=
  if (z <? 0)%Z then raise (OverflowError "can't convert negative int to unsigned")
  else if (256 ^ Z.of_nat len <=? z)%Z then raise (OverflowError "int too big to convert")
  else ret (le_bytes len z).

(** [self.client_socket.send(bs)] *)
Definition send (bs : bytes) : M Sess unit :=
  fun s =>
    if sock_open s
    then (Ok tt, mkSess (db s) (inbox s) (sent s ++ [bs])%list true (authenticated s))
    else (Raised (OSError "[Errno 9] Bad file descriptor"), s).

(** [self.client_socket.recv(n)]: at most [n] of the bytes that have
    arrived; nothing once the peer has closed. *)
Definition recv (n : nat) : M Sess bytes :=
  fun s =>
    if negb (sock_open s) then (Raised (OSError "[Errno 9] Bad file descriptor"), s)
    else
      match inbox s with
      | [] => (Ok [], s)
      | Broken msg :: rest =>
          (Raised (OSError msg),
           mkSess (db s) rest (sent s) (sock_open s) (authenticated s))
      | Data bs :: rest =>
          let left := skipn n bs in
          (Ok (firstn n bs),
           mkSess (db s)
             (match left with [] => rest | _ => Data left :: rest end)
             (sent s) (sock_open s) (authenticated s))
      end.

(** [_send_handshake] *)
Definition _send_handshake : M Sess unit :=
  send ([Byte.x0a] ++ encode "mysql_native_password" ++ repeat Byte.x00 20)%list.

(** [_send_ok_packet]; the argument is what Python passes at run time, an
    integer or [None]. *)
Definition _send_ok_packet (rows_affected : option Z) : M Sess unit :=
  match rows_affected with
  | None => raise (AttributeError "'NoneType' object has no attribute 'to_bytes'")
  | Some n =>
      count <- to_bytes 8 n ;;
      send ([Byte.x00] ++ count ++ [Byte.x00])%list
  end.

(** [_send_error] *)
Definition _send_error (message : string) : M Sess unit :=
  send (Byte.xff :: encode message).

(** A one-byte length followed by the text. *)
Definition send_short_text (text : string) : M Sess unit :=
  let payload := encode text in
  len <- to_bytes 1 (Z.of_nat (List.length payload)) ;;
  send (len ++ payload)%list.

Fixpoint send_each (texts : list string) : M Sess unit :=
  match texts with
  | [] => ret tt
  | t :: rest => send_short_text t ;;; send_each rest
  end.

(** [_send_result_set] *)
Definition _send_result_set (data : list Row) : M Sess unit :=
  match data with
  | first :: _ =>
      send [Byte.x01] ;;;
      send_each (map (fun kv => "`" ++ fst kv ++ "` varchar(255)") first) ;;;
      send_each (map (fun row => join "|" (map (fun kv => str_of_value (snd kv)) row))
                     data) ;;;
      send [Byte.xfe]
  | [] =>
      send [Byte.x00] ;;;
      send [Byte.xfe]
  end.

(** [_send_results] *)
Definition _send_results (result : Outcome) : M Sess unit :=
  try_except
    (match query_type result, data result with
     | READ, Some (Some (row :: rows)) => _send_result_set (row :: rows)
     | _, _ =>
         let rows_affected :=
           match rows_affected result with
           | Some v => v
           | None => Some 0%Z
           end in
         _send_ok_packet rows_affected
     end)
    (fun _ => _send_error "Failed to send results").

(** The payload length a header declares: [int.from_bytes(header[:3],
    'little')]. *)
Definition declared_length (header : bytes) : nat :=
  int_from_bytes (firstn 3 header).

(** [_read_packet] *)
Definition _read_packet : M Sess (option bytes) :=
  try_except
    (header <- recv 4 ;;
     if List.length header <? 4 then ret None
     else
       let packet_length := declared_length header in
       packet_data <- recv packet_length ;;
       if List.length packet_data <? packet_length then ret None
       else ret (Some packet_data))
    (fun _ => ret None).

(** [not packet] *)
Definition no_packet (packet : option bytes) : bool :=
  match packet with
  | None => true
  | Some [] => true
  | Some (_ :: _) => false
  end.

(** [_handle_authentication] *)
Definition _handle_authentication : M Sess bool :=
  try_except
    (auth_packet <- _read_packet ;;
     if no_packet auth_packet then ret false
     else _send_ok_packet (Some 0%Z) ;;; ret true)
    (fun _ => ret false).

(** [_handle_query] *)
Definition _handle_query (query : string) : M Sess unit :=
  try_except
    (result <- in_router (route_query query) ;;
     if success result then _send_results result
     else _send_error (match error result with
                       | Some msg => msg
                       | None => "Query failed"
                       end))
    (fun e => _send_error ("Internal error: " ++ str_of_exc e)).

(** [close] *)
Definition close (s : Sess) : Sess :=
  mkSess (db s) (inbox s) (sent s) false (authenticated s).

(** One turn of the [while True] loop of [handle]; [true] goes round
    again, [false] is [break]. *)
Definition query_turn : M Sess bool :=
  try_except
    (packet <- _read_packet ;;
     match packet with
     | Some (b :: bs) =>
         let query := strip (decode_utf8_ignore (b :: bs)) in
         (if is_empty query then ret tt else _handle_query query) ;;;
         ret true
     | _ => ret false
     end)
    (fun e => _send_error ("Query error: " ++ str_of_exc e) ;;; ret false).

(** The loop, for at most [fuel] turns; [None] when the turns run out
    before the loop ends. *)
Fixpoint query_loop (fuel : nat) (s : Sess) : option (Res unit * Sess) :=
  match fuel with
  | O => None
  | S k =>
      match query_turn s with
      | (Ok true, s') => query_loop k s'
      | (Ok false, s') => Some (Ok tt, s')
      | (Raised e, s') => Some (Raised e, s')
      end
  end.

Definition set_authenticated (s : Sess) : Sess :=
  mkSess (db s) (inbox s) (sent s) (sock_open s) true.

(** The query loop of [handle] and the [finally] clause after it. *)
Definition serve (fuel : nat) (s : Sess) : option Sess :=
  match query_loop fuel s with
  | Some (_, s') => Some (close s')
  | None => None
  end.

(** [handle]: the session from the greeting to the closed socket. *)
Definition handle (fuel : nat) (s : Sess) : option Sess :=
  match (_send_handshake ;;; _handle_authentication) s with
  | (Ok true, s1) => serve fuel (set_authenticated s1)
  | (_, s1) => Some (close s1)
  end.

End Handler.

End Session.

(* ===================================================================== *)
(** ** Two small stores to run the proxy on *)
(* ===================================================================== *)

Module Demo.
Import Text QueryAnalyzer Database Router Session.

(** The columns production reports for each of its tables. *)
Definition columns : list Row :=
  [ [("column_name", VStr "id"); ("data_type", VStr "int");
     ("is_nullable", VStr "NO"); ("column_default", VNone);
     ("extra", VStr "auto_increment")];
    [("column_name", VStr "name"); ("data_type", VStr "varchar(255)");
     ("is_nullable", VStr "YES"); ("column_default", VNone);
     ("extra", VStr "")] ].

(** A store: whether it is reachable, its tables, and those of its tables
    that are marked as crashed. *)
Record Store := mkStore {
  down : bool;
  tables : list string;
  crashed : list string }.

(** The statement names a crashed table. *)
Definition hits_crashed (st : Store) (query : string) : bool :=
  existsb (fun t => contains t (upper query)) (crashed st).

(** Production: fails on every statement while it is down; answers the
    column lookup of [get_table_schema]; fails on a statement that names a
    crashed table; gives one row to a [SELECT]; has no result set for
    anything else. *)
Definition run_production (p : Store) (query : string) (params : Params)
  : Store * EngineResult :=
  if down p then (p, SqlError "(2003) Can't connect to MySQL server")
  else if String.eqb query table_schema_sql then
    match params with
    | Some [_; t] => (p, Rows (if mem t (tables p) then columns else []))
    | _ => (p, SqlError "(1064) parameters")
    end
  else if hits_crashed p query
  then (p, SqlError "(1194) Table is marked as crashed")
  else if startswith (upper query) "SELECT" then (p, Rows [[("id", VInt 1)]])
  else (p, NoResultSet).

(** Local: fails on every statement while it is down; answers the lookup
    of [table_exists_local]; creates the table of a
    [CREATE TABLE IF NOT EXISTS]; fails on a statement that names a
    crashed table; gives one row to a [SELECT] and to a statement with a
    [RETURNING] clause; has no result set for anything else. *)
Definition run_local (l : Store) (query : string) (params : Params)
  : Store * EngineResult :=
  if down l then (l, SqlError "(2003) Can't connect to MySQL server")
  else if String.eqb query table_exists_sql then
    match params with
    | Some [_; t] =>
        (l, Rows [[("count", VInt (if mem t (tables l) then 1 else 0))]])
    | _ => (l, SqlError "(1064) parameters")
    end
  else if startswith query "CREATE TABLE IF NOT EXISTS" then
    (mkStore false (findall_tables "EXISTS" query ++ tables l)%list (crashed l),
     NoResultSet)
  else if hits_crashed l query
  then (l, SqlError "(1194) Table is marked as crashed")
  else if startswith (upper query) "SELECT" || contains "RETURNING" (upper query)
  then (l, Rows [[("id", VInt 1)]])
  else (l, NoResultSet).

(** The codec on payloads of ASCII text, which is all that is sent here:
    bytes above 127 are dropped. *)
Definition decode_ascii (bs : list Byte.byte) : string :=
  string_of_list_byte (filter (fun b => Byte.to_nat b <? 128) bs).

#[export] Instance world : World := {
  P := Store;
  L := Store;
  prod_engine := run_production;
  local_engine := run_local;
  PROD_DB_NAME := "test";
  LOCAL_DB_NAME := "dataproxy_local";
  list_of_set := nodup string_dec;
  decode_utf8_ignore := decode_ascii }.

(** Production holds USERS and ORDERS. *)
Definition production : Store := mkStore false ["USERS"; "ORDERS"] [].
Definition production_down : Store := mkStore true ["USERS"; "ORDERS"] [].
Definition production_crashed : Store :=
  mkStore false ["USERS"; "ORDERS"] ["USERS"].

(** A local store with the given tables, none of them crashed. *)
Definition local_with (local_tables : list string) : Store :=
  mkStore false local_tables [].


(** The two stores before any call. *)
Definition stores (p l : Store) : Db := mkDb p l [].

(** A frame as a client writes it: three length bytes, the sequence
    number, the payload. *)
Definition frame (payload : bytes) : bytes :=
  (le_bytes 3 (Z.of_nat (List.length payload)) ++ [Byte.x00] ++ payload)%list.

(** An authenticated session that is about to receive [arrivals]. *)
Definition session (d : Db) (arrivals : list Arrival) : Sess :=
  mkSess d arrivals [] true true.

End Demo.


(* ===================================================================== *)
(** ** Vocabulary of the properties *)
(* ===================================================================== *)

Import Text QueryAnalyzer Database Router Session.

Section ClassificationVocabulary.

Variable order : list string -> list string.

(** The first token of the normalized statement, if it has one. *)
Definition first_token (query : string) : option string :=
  hd_error (split (normalize query)).

Definition classification (query : string) : QueryType :=
  fst (fst (analyze_query order query)).

(** The fallback of [_classify_query], which tests for the four words as
    substrings of the normalized statement. *)
Definition substring_fallback (normalized : string) : QueryType :=
  if contains "INTO" normalized || contains "SET" normalized then WRITE
  else if contains "FROM" normalized || contains "JOIN" normalized then READ
  else UNKNOWN.

End ClassificationVocabulary.

Section RelationVocabulary.

Context {S : Type}.
Variable R : S -> S -> Prop.

(** [c] takes every state to a state related to it by [R], whether it
    returns or raises. *)
Definition preserves {A} (c : M S A) : Prop := forall s, R s (snd (c s)).

End RelationVocabulary.

Section RoutingVocabulary.

Context {W : World}.

(** A call on production that is the column lookup of
    [get_table_schema]; every other event passes. *)
Definition schema_lookup_if_production (e : Event) : Prop :=
  match e with
  | ExecuteProduction q ps _ =>
      q = table_schema_sql /\ exists t, ps = Some [PROD_DB_NAME; t]
  | _ => True
  end.

(** The column lookup is a [SELECT] on [information_schema]: it leaves
    the production store as it is. *)
Definition schema_lookup_reads_only : Prop :=
  forall p t, fst (prod_engine p table_schema_sql (Some [PROD_DB_NAME; t])) = p.

(** From [s] to [s'] the log grew by events that pass
    [schema_lookup_if_production], and production kept its state if the
    column lookup only reads. *)
Definition production_spared (s s' : Db) : Prop :=
  (exists evs, calls s' = (calls s ++ evs)%list /\
               Forall schema_lookup_if_production evs) /\
  (schema_lookup_reads_only -> prod s' = prod s).

(** The outcome of a READ that was executed. *)
Definition read_outcome (r : Route) (result : option (list Row))
    (tables : list string) : Outcome :=
  mkOutcome true None (Some result) READ r (Some tables) None.

Definition is_fetch (t : string) (e : Event) : bool :=
  match e with
  | GetTableSchema t' _ => String.eqb t t'
  | _ => false
  end.

Definition is_create (t : string) (e : Event) : bool :=
  match e with
  | CreateLocalTable t' _ _ => String.eqb t t'
  | _ => false
  end.

(** The number of [get_table_schema] calls for [t] in a log. *)
Definition fetches (t : string) (evs : list Event) : nat :=
  List.length (filter (is_fetch t) evs).

(** The number of [create_local_table] calls for [t] in a log. *)
Definition creates (t : string) (evs : list Event) : nat :=
  List.length (filter (is_create t) evs).

Definition exists_check (t : string) (r : EngineResult) : Event :=
  ExecuteLocal table_exists_sql (Some [LOCAL_DB_NAME; t]) r.

Definition schema_fetch (t : string) (r : EngineResult) : Event :=
  ExecuteProduction table_schema_sql (Some [PROD_DB_NAME; t]) r.

(** The log of a loop of [_handle_write_query] that ran to its end over
    the given tables: a table that is found costs its check; a table that
    is not found costs its check, one fetch and one creation. *)
Inductive sync_trace : list string -> list Event -> Prop :=
| sync_nil : sync_trace [] []
| sync_present t ts r evs :
    sync_trace ts evs ->
    sync_trace (t :: ts) (exists_check t r :: TableExistsLocal t true :: evs)
| sync_created t ts r r' r'' col cols ddl evs :
    returned r' = Some (col :: cols) ->
    sync_trace ts evs ->
    sync_trace (t :: ts)
      (exists_check t r :: TableExistsLocal t false
       :: schema_fetch t r' :: GetTableSchema t (Some (col :: cols))
       :: ExecuteLocal ddl None r'' :: CreateLocalTable t (col :: cols) true
       :: evs).

End RoutingVocabulary.

Section SessionVocabulary.

Context {W : World}.

(** On an open socket [c] returns and leaves the socket open. *)
Definition answers {A} (c : M Sess A) : Prop :=
  forall s, sock_open s = true ->
            exists a s', c s = (Ok a, s') /\ sock_open s' = true.

(** The frame that is arriving is whole: its four header bytes arrive,
    and then a payload of the length they declare. *)
Definition whole_frame_arrives (s : Sess) (payload : bytes) : Prop :=
  exists header s1 s2,
    recv 4 s = (Ok header, s1) /\ List.length header = 4 /\
    recv (declared_length header) s1 = (Ok payload, s2) /\
    List.length payload = declared_length header.

(** The query loop accepts the frame that is arriving: it takes the
    packet, handles it and goes round again on an open socket. *)
Definition frame_accepted (s : Sess) : Prop :=
  exists s', query_turn s = (Ok true, s') /\ sock_open s' = true.

End SessionVocabulary.

(* ===================================================================== *)
(** ** More of the package, and the vocabulary of its properties *)
(* ===================================================================== *)

Section TextVocabulary.

(** Every character of [s] satisfies [p]. *)
Fixpoint all_chars (p : ascii -> bool) (s : string) : bool :=
  match s with
  | EmptyString => true
  | String c s' => p c && all_chars p s'
  end.

(** [s] has no lower-case letter. *)
Definition no_lower (s : string) : bool :=
  all_chars (fun c => negb (is_lower c)) s.

(** [s.isascii()]: every character of [s] is below 128.  On such text
    the character classes of [Text] are those of Python. *)
Definition isascii (s : string) : bool :=
  all_chars (fun c => nat_of_ascii c <? 128) s.

(** The tables [analyze_query] reports. *)
Definition tables_of (order : list string -> list string) (query : string)
  : list string :=
  snd (fst (analyze_query order query)).

End TextVocabulary.

Section RouterMore.

Context {W : World}.

(** [QueryRouter.sync_table_schema] *)
Definition sync_table_schema (table_name : string) : M Db bool :=
  found <- table_exists_local table_name ;;
  if found then ret false
  else
    schema <- get_table_schema table_name ;;
    match schema with
    | Some (col :: cols) => create_local_table table_name (col :: cols)
    | _ => ret false
    end.

(** The keys [create_local_table] reads in every column row. *)
Definition column_keys : list string :=
  ["column_name"; "data_type"; "is_nullable"; "column_default"; "extra"].

Definition has_key (col : Row) (k : string) : bool :=
  match lookup k col with
  | Some _ => true
  | None => false
  end.

(** The row has all of [column_keys]. *)
Definition well_formed_column (col : Row) : bool :=
  forallb (has_key col) column_keys.

(** From [s] to [s'] the log grew by events that satisfy [ok]. *)
Definition grows_by (ok : Event -> Prop) (s s' : Db) : Prop :=
  exists evs, calls s' = (calls s ++ evs)%list /\ Forall ok evs.

(** The calls a READ may cause: the lookup of [table_exists_local] on
    local, the statement itself on either store; no fetch of a schema and
    no creation of a table. *)
Definition read_path_event (query : string) (e : Event) : Prop :=
  match e with
  | ExecuteLocal q ps _ =>
      (q = table_exists_sql /\ exists t, ps = Some [LOCAL_DB_NAME; t]) \/
      (q = query /\ ps = None)
  | ExecuteProduction q ps _ => q = query /\ ps = None
  | TableExistsLocal _ _ => True
  | GetTableSchema _ _ => False
  | CreateLocalTable _ _ _ => False
  end.

Definition is_check (e : Event) : bool :=
  match e with
  | TableExistsLocal _ _ => true
  | _ => false
  end.

(** The existence checks of a log, in order, with their answers. *)
Definition checks (evs : list Event) : list Event := filter is_check evs.

End RouterMore.

(** A production store whose [information_schema] labels its columns in
    upper case, as MySQL 8 does, next to the small stores above. *)
Module Demo8.

Definition columns : list Row :=
  [ [("COLUMN_NAME", VStr "id"); ("DATA_TYPE", VStr "int");
     ("IS_NULLABLE", VStr "NO"); ("COLUMN_DEFAULT", VNone);
     ("EXTRA", VStr "auto_increment")] ].

Definition run_production (p : Demo.Store) (query : string) (params : Params)
  : Demo.Store * EngineResult :=
  if String.eqb query table_schema_sql then (p, Rows columns)
  else Demo.run_production p query params.

#[export] Instance world : World := {
  P := Demo.Store;
  L := Demo.Store;
  prod_engine := run_production;
  local_engine := Demo.run_local;
  PROD_DB_NAME := "test";
  LOCAL_DB_NAME := "dataproxy_local";
  list_of_set := nodup string_dec;
  decode_utf8_ignore := Demo.decode_ascii }.

Definition stores (p l : Demo.Store) : Db := mkDb p l [].

End Demo8.

Section WireVocabulary.

Context {W : World}.

(** A text behind its one-byte length, as [_send_result_set] sends the
    column definitions and the rows. *)
Definition short_text (text : string) : bytes :=
  (le_bytes 1 (Z.of_nat (List.length (encode text))) ++ encode text)%list.

(** The text fits a one-byte length. *)
Definition fits (text : string) : bool := List.length (encode text) <=? 255.

(** The column definitions [_send_result_set] sends for a first row. *)
Definition column_texts (first : Row) : list string :=
  map (fun kv => "`" ++ fst kv ++ "` varchar(255)") first.

(** The text [_send_result_set] sends for a row. *)
Definition row_text (row : Row) : string :=
  join "|" (map (fun kv => str_of_value (snd kv)) row).

(** The acknowledgment of [n] rows. *)
Definition ok_packet (n : Z) : bytes :=
  ([Byte.x00] ++ le_bytes 8 n ++ [Byte.x00])%list.

(** The error frame of a message. *)
Definition error_frame (message : string) : bytes := Byte.xff :: encode message.

(** [s] with [more] sent after what was sent. *)
Definition having_sent (s : Sess) (more : list bytes) : Sess :=
  mkSess (db s) (inbox s) (sent s ++ more)%list (sock_open s) (authenticated s).

(** [s] with [arrivals] still to arrive. *)
Definition with_inbox (s : Sess) (arrivals : list Arrival) : Sess :=
  mkSess (db s) arrivals (sent s) (sock_open s) (authenticated s).

(** On an open socket [c] leaves the socket open and what is to arrive as
    it is, and only adds to what was sent; when [strict], it adds at least
    one message if it returns. *)
Definition sends (strict : bool) {A} (c : M Sess A) : Prop :=
  forall s, sock_open s = true ->
    sock_open (snd (c s)) = true /\ inbox (snd (c s)) = inbox s /\
    exists more, sent (snd (c s)) = (sent s ++ more)%list /\
                 (strict = true -> forall a, fst (c s) = Ok a -> more <> []).

(** What is still to arrive, weighed: one for every arrival and one for
    every byte. *)
Fixpoint pending (arrivals : list Arrival) : nat :=
  match arrivals with
  | [] => 0
  | Data bs :: rest => 1 + List.length bs + pending rest
  | Broken _ :: rest => 1 + pending rest
  end.

(** From [s] to [s'] nothing arrived anew. *)
Definition not_more_pending (s s' : Sess) : Prop :=
  pending (inbox s') <= pending (inbox s).

End WireVocabulary.

(* ===================================================================== *)
(** * Properties *)
(* ===================================================================== *)

(** ** Classification *)

Section Classification.

Variable order : list string -> list string.

Lemma classification_unfold query :
  classification order query = _classify_query (normalize query).
Proof. reflexivity. Qed.

Lemma first_token_split query w :
  first_token query = Some w ->
  exists ws, split (normalize query) = w :: ws.
Proof.
  unfold first_token. destruct (split (normalize query)) as [|w' ws]; simpl.
  - discriminate.
  - intros [= ->]. now exists ws.
Qed.

Lemma mem_In w l : mem w l = true <-> In w l.
Proof.
  unfold mem. rewrite existsb_exists. split.
  - intros (x & Hx & E). apply String.eqb_eq in E. now subst.
  - intros H. exists w. split; [assumption | apply String.eqb_refl].
Qed.



(** C8, as the code has it. When the first token of the normalized
    statement is in neither keyword set, the statement is WRITE if INTO or
    SET occurs in the normalized text, otherwise READ if FROM or JOIN
    occurs in it, otherwise UNKNOWN; an occurrence is any substring, inside
    an identifier or not. *)
Theorem C8_fallback_looks_for_substrings (query w : string) :
  first_token query = Some w ->
  ~ In w WRITE_KEYWORDS -> ~ In w READ_KEYWORDS ->
  classification order query = substring_fallback (normalize query).
Proof.
  intros Hw Hnw Hnr. destruct (first_token_split _ _ Hw) as [ws Hs].
  rewrite classification_unfold. unfold _classify_query, substring_fallback.
  rewrite Hs.
  destruct (mem w WRITE_KEYWORDS) eqn:E1.
  { apply mem_In in E1. contradiction. }
  destruct (mem w READ_KEYWORDS) eqn:E2.
  { apply mem_In in E2. contradiction. }
  reflexivity.
Qed.

(** Where the token reading and the code agree: a token of the text is a
    substring of it, so a statement that has INTO or SET among its tokens
    is WRITE for the code as well. *)
Lemma append_assoc3 (a b c : string) : ((a ++ b) ++ c = a ++ (b ++ c))%string.
Proof. induction a as [|x a IH]; simpl; [reflexivity | now rewrite IH]. Qed.

Lemma append_empty_r (a : string) : (a ++ "" = a)%string.
Proof. induction a as [|x a IH]; simpl; [reflexivity | now rewrite IH]. Qed.

Lemma prefix_append (w suf : string) : prefix w (w ++ suf) = true.
Proof.
  induction w as [|x w IH]; simpl; [now destruct suf|].
  destruct (ascii_dec x x) as [_|Hne]; [exact IH | now elim Hne].
Qed.

Lemma contains_here (w suf : string) : contains w (w ++ suf) = true.
Proof.
  pose proof (prefix_append w suf) as H.
  destruct (w ++ suf)%string; cbn [contains]; now rewrite H.
Qed.

Lemma contains_later (w pre text : string) :
  contains w text = true -> contains w (pre ++ text) = true.
Proof.
  intros H. induction pre as [|x pre IH]; [exact H|].
  cbn [append contains]. rewrite IH. apply orb_true_r.
Qed.

Lemma split_from_occurs (s : string) :
  forall cur w, In w (split_from cur s) ->
                exists pre suf, (cur ++ s = pre ++ w ++ suf)%string.
Proof.
  induction s as [|c s' IH]; intros cur w Hin; simpl in Hin.
  - destruct (is_empty cur); [destruct Hin|].
    destruct Hin as [<-|[]]. exists "", "". simpl. reflexivity.
  - destruct (is_space c).
    + destruct cur as [|k cur']; simpl in Hin.
      * destruct (IH _ _ Hin) as (pre & suf & E). simpl in E.
        exists (String c pre), suf. simpl. now rewrite E.
      * destruct Hin as [<-|Hin].
        -- exists "", (String c s'). reflexivity.
        -- destruct (IH _ _ Hin) as (pre & suf & E). simpl in E.
           exists (String k cur' ++ String c pre)%string, suf.
           rewrite append_assoc3. simpl. now rewrite E.
    + destruct (IH _ _ Hin) as (pre & suf & E).
      exists pre, suf. rewrite <- E, append_assoc3. reflexivity.
Qed.

Lemma token_is_substring (s w : string) :
  In w (split s) -> contains w s = true.
Proof.
  intros Hin. destruct (split_from_occurs s "" w Hin) as (pre & suf & E).
  simpl in E. rewrite E. apply contains_later, contains_here.
Qed.

Lemma token_fallback_write_is_kept (query w : string) :
  first_token query = Some w ->
  ~ In w WRITE_KEYWORDS -> ~ In w READ_KEYWORDS ->
  In "INTO" (split (normalize query)) \/ In "SET" (split (normalize query)) ->
  classification order query = WRITE.
Proof.
  intros Hw Hnw Hnr Htok. destruct (first_token_split _ _ Hw) as [ws Hs].
  rewrite classification_unfold. unfold _classify_query. rewrite Hs.
  destruct (mem w WRITE_KEYWORDS) eqn:E1.
  { apply mem_In in E1. contradiction. }
  destruct (mem w READ_KEYWORDS) eqn:E2.
  { apply mem_In in E2. contradiction. }
  destruct Htok as [H|H]; apply token_is_substring in H; rewrite H;
    [reflexivity | now rewrite orb_true_r].
Qed.

End Classification.


(** C8 refuted as worded: [ANALYZE TABLE offsets] has the tokens ANALYZE,
    TABLE and OFFSETS, none of them INTO, SET, FROM or JOIN, so the
    token reading gives UNKNOWN; the code finds SET inside OFFSETS and
    answers WRITE. *)
Lemma C8_counterexample :
  let query := "ANALYZE TABLE offsets" in
  split (normalize query) = ["ANALYZE"; "TABLE"; "OFFSETS"] /\
  mem "ANALYZE" WRITE_KEYWORDS = false /\
  mem "ANALYZE" READ_KEYWORDS = false /\
  classify_by_tokens (normalize query) = UNKNOWN /\
  classification (nodup string_dec) query = WRITE /\
  classification (nodup string_dec) query <> classify_by_tokens (normalize query).
Proof.
  cbv zeta. repeat split; try reflexivity. discriminate.
Qed.

(** C8 at work on the same statement. *)
Lemma C8_witness :
  classification (nodup string_dec) "ANALYZE TABLE offsets"
  = substring_fallback (normalize "ANALYZE TABLE offsets").
Proof.
  apply (C8_fallback_looks_for_substrings (nodup string_dec)
           "ANALYZE TABLE offsets" "ANALYZE" eq_refl).
  - simpl. intros H. repeat (destruct H as [H|H]; [discriminate|]). exact H.
  - simpl. intros H. repeat (destruct H as [H|H]; [discriminate|]). exact H.
Defined.

(** ** What a computation leaves related *)

Section Preserves.

Context {S : Type}.
Variable R : S -> S -> Prop.
Hypothesis R_refl : forall s, R s s.
Hypothesis R_trans : forall s1 s2 s3, R s1 s2 -> R s2 s3 -> R s1 s3.

Lemma preserves_ret {A} (a : A) : preserves R (ret a).
Proof. intros s. apply R_refl. Qed.

Lemma preserves_raise {A} (e : Exc) : preserves R (@raise S A e).
Proof. intros s. apply R_refl. Qed.

Lemma preserves_bind {A B} (c : M S A) (k : A -> M S B) :
  preserves R c -> (forall a, preserves R (k a)) -> preserves R (bind c k).
Proof.
  intros Hc Hk s. unfold bind. specialize (Hc s).
  destruct (c s) as [[a|e] s1]; simpl in *.
  - eapply R_trans; [exact Hc | apply Hk].
  - exact Hc.
Qed.

Lemma preserves_try {A} (c : M S A) (h : Exc -> M S A) :
  preserves R c -> (forall e, preserves R (h e)) -> preserves R (try_except c h).
Proof.
  intros Hc Hh s. unfold try_except. specialize (Hc s).
  destruct (c s) as [[a|e] s1]; simpl in *.
  - exact Hc.
  - eapply R_trans; [exact Hc | apply Hh].
Qed.

End Preserves.

(** ** The write path and production *)

Section WritePath.

Context {W : World}.

Lemma production_spared_refl s : production_spared s s.
Proof.
  split; [|reflexivity].
  exists []. split; [now rewrite app_nil_r | constructor].
Qed.

Lemma production_spared_trans s1 s2 s3 :
  production_spared s1 s2 -> production_spared s2 s3 -> production_spared s1 s3.
Proof.
  intros [(e1 & H1 & F1) P1] [(e2 & H2 & F2) P2]. split.
  - exists (e1 ++ e2)%list. split.
    + now rewrite H2, H1, app_assoc.
    + apply Forall_app. now split.
  - intros H. now rewrite P2, P1.
Qed.

Local Notation "'spares' c" := (preserves production_spared c) (at level 10, c at level 9).

Ltac spare_step :=
  first
    [ apply (preserves_bind _ production_spared_trans)
    | apply (preserves_try _ production_spared_trans)
    | apply (preserves_ret _ production_spared_refl)
    | apply (preserves_raise _ production_spared_refl) ].

Lemma spares_log e : schema_lookup_if_production e -> spares (log e).
Proof.
  intros He s. split; simpl.
  - exists [e]. split; [reflexivity | now constructor].
  - reflexivity.
Qed.

Lemma spares_execute_local q ps : spares (execute_local_query q ps).
Proof.
  intros s. unfold execute_local_query.
  destruct (local_engine (loc s) q ps) as [l' r]. split; simpl.
  - eexists. split; [reflexivity|]. now repeat constructor.
  - reflexivity.
Qed.

Lemma spares_getitem row k : spares (getitem (S := Db) row k).
Proof. unfold getitem. destruct (lookup k row); spare_step. Qed.

Lemma spares_table_exists_local t : spares (table_exists_local t).
Proof.
  unfold table_exists_local. spare_step. { apply spares_execute_local. }
  intros result. spare_step.
  - destruct result as [[|row rows]|]; try spare_step.
    + apply spares_getitem.
    + intros [] ; spare_step.
  - intros found. spare_step; [now apply spares_log | intros; spare_step].
Qed.

Lemma spares_get_table_schema t : spares (get_table_schema t).
Proof.
  unfold get_table_schema. spare_step.
  - intros s. unfold execute_production_query.
    destruct (prod_engine (prod s) table_schema_sql (Some [PROD_DB_NAME; t]))
      as [p' r] eqn:E.
    split; simpl.
    + eexists. split; [reflexivity|]. repeat constructor. now exists t.
    + intros RO. specialize (RO (prod s) t). now rewrite E in RO.
  - intros schema. spare_step; [now apply spares_log | intros; spare_step].
Qed.

Lemma spares_column_definition col : spares (column_definition col).
Proof.
  unfold column_definition.
  repeat (first [ apply spares_getitem | spare_step | intros ? ]).
  - destruct a2; repeat (first [ apply spares_getitem | spare_step | intros ? ]).
  - destruct (truthy a4); repeat (first [ apply spares_getitem | spare_step | intros ? ]).
Qed.

Lemma spares_column_definitions schema : spares (column_definitions schema).
Proof.
  induction schema as [|col rest IH]; simpl.
  - spare_step.
  - spare_step; [apply spares_column_definition|]. intros d.
    spare_step; [exact IH|]. intros ds. spare_step.
Qed.

Lemma spares_create_local_table t schema : spares (create_local_table t schema).
Proof.
  unfold create_local_table. destruct schema as [|col rest].
  - spare_step; [now apply spares_log | intros; spare_step].
  - spare_step; [apply spares_column_definitions|]. intros columns.
    spare_step; [apply spares_execute_local|]. intros _.
    spare_step; [now apply spares_log | intros; spare_step].
Qed.

Lemma spares_ensure_local_tables tables : spares (ensure_local_tables tables).
Proof.
  induction tables as [|t rest IH]; simpl.
  - spare_step.
  - spare_step; [apply spares_table_exists_local|]. intros [|]; [exact IH|].
    spare_step; [apply spares_get_table_schema|].
    intros [[|col cols]|].
    + spare_step.
    + spare_step; [exact (spares_create_local_table t (col :: cols))|].
      intros [|]; [exact IH | spare_step].
    + spare_step.
Qed.

Lemma spares_handle_write_query query tables :
  spares (_handle_write_query query tables).
Proof.
  unfold _handle_write_query. destruct tables as [|t rest]; [spare_step|].
  spare_step; [apply spares_ensure_local_tables|].
  intros [o|]; [spare_step|].
  spare_step; [apply spares_execute_local|].
  intros [rows|]; spare_step.
Qed.

Lemma table_schema_sql_is_read order :
  classification order table_schema_sql = READ.
Proof. rewrite classification_unfold. vm_compute. reflexivity. Qed.

(** C1. Routing a statement classified WRITE never executes it on
    production: every call the route makes on production is the column
    lookup of schema synchronization, the statement itself is not among
    them, and production is left in the state it was in (the lookup being
    a read). *)
Theorem C1_write_is_never_executed_on_production (query : string) (s : Db) :
  classification list_of_set query = WRITE ->
  (exists evs,
      calls (snd (route_query query s)) = (calls s ++ evs)%list /\
      (forall q ps r, In (ExecuteProduction q ps r) evs ->
         q = table_schema_sql /\ exists t, ps = Some [PROD_DB_NAME; t]) /\
      (forall ps r, ~ In (ExecuteProduction query ps r) evs)) /\
  (schema_lookup_reads_only -> prod (snd (route_query query s)) = prod s).
Proof.
  intros Hw.
  assert (Hspared : production_spared s (snd (route_query query s))).
  { unfold route_query. unfold classification in Hw.
    destruct (analyze_query list_of_set query) as [[qt tables] clean].
    simpl in Hw. subst qt.
    destruct (negb (is_safe_query query)).
    - apply production_spared_refl.
    - apply (preserves_try _ production_spared_trans).
      + apply spares_handle_write_query.
      + intros e. spare_step. }
  destruct Hspared as [(evs & Hcalls & Hall) Hprod].
  split; [|exact Hprod].
  exists evs. split; [exact Hcalls|].
  rewrite Forall_forall in Hall. split.
  - intros q ps r Hin. exact (Hall _ Hin).
  - intros ps r Hin. destruct (Hall _ Hin) as [Hq _].
    rewrite Hq, table_schema_sql_is_read in Hw. discriminate.
Qed.

End WritePath.

(** C1 at work: an INSERT into a table that production has and local
    lacks, on stores whose column lookup only reads. *)
Lemma C1_witness :
  let s := Demo.stores Demo.production (Demo.local_with []) in
  let query := "INSERT INTO users (name) VALUES ('a')" in
  prod (snd (route_query query s)) = prod s /\
  exists evs,
    calls (snd (route_query query s)) = (calls s ++ evs)%list /\
    (forall q ps r, In (ExecuteProduction q ps r) evs ->
       q = table_schema_sql /\ exists t, ps = Some ["test"; t]) /\
    (forall ps r, ~ In (ExecuteProduction query ps r) evs).
Proof.
  intros s query.
  destruct (C1_write_is_never_executed_on_production query s eq_refl) as [H1 H2].
  split; [|exact H1].
  apply H2. intros p t. simpl. unfold Demo.run_production.
  destruct (Demo.down p); reflexivity.
Defined.

(** ** Rejection, reads, unknown statements *)

Section Routes.

Context {W : World}.

(** C2. A statement that matches the denylist is answered with an
    unsuccessful outcome routed to 'rejected', and the stores and the log
    of calls are left exactly as they were: no call is made.  The four
    administrative statements of the specification match the denylist;
    the SELECT and the INSERT do not. *)
Theorem C2_denylisted_statement_is_rejected_without_a_call (query : string) (s : Db) :
  (is_safe_query query = false ->
   exists o, route_query query s = (Ok o, s) /\
             success o = false /\ routed_to o = RRejected /\
             error o = Some "Query contains potentially dangerous operations") /\
  is_safe_query "DROP DATABASE prod" = false /\
  is_safe_query "CREATE DATABASE x" = false /\
  is_safe_query "GRANT ALL PRIVILEGES ON *.* TO 'u'@'%'" = false /\
  is_safe_query "FLUSH PRIVILEGES" = false /\
  is_safe_query "SELECT * FROM users" = true /\
  is_safe_query "INSERT INTO logs (message) VALUES ('t')" = true.
Proof.
  split.
  - intros Hunsafe. unfold route_query.
    destruct (analyze_query list_of_set query) as [[qt tables] clean].
    rewrite Hunsafe. simpl. eexists. split; [reflexivity|]. now repeat split.
  - repeat split; vm_compute; reflexivity.
Qed.

Lemma execute_local_query_eq q ps s l' r :
  local_engine (loc s) q ps = (l', r) ->
  execute_local_query q ps s
  = (Ok (returned r), mkDb (prod s) l' (calls s ++ [ExecuteLocal q ps r])%list).
Proof. intros H. unfold execute_local_query. now rewrite H. Qed.

Lemma execute_production_query_eq q ps s p' r :
  prod_engine (prod s) q ps = (p', r) ->
  execute_production_query q ps s
  = (Ok (returned r), mkDb p' (loc s) (calls s ++ [ExecuteProduction q ps r])%list).
Proof. intros H. unfold execute_production_query. now rewrite H. Qed.

Lemma read_from_production_eq query tables s p' r :
  prod_engine (prod s) query None = (p', r) ->
  read_from_production query tables s
  = (Ok (read_outcome RProduction (returned r) tables),
     mkDb p' (loc s) (calls s ++ [ExecuteProduction query None r])%list).
Proof.
  intros H. unfold read_from_production, bind.
  now rewrite (execute_production_query_eq _ _ _ _ _ H).
Qed.


Lemma handle_read_query_fallback query tables s s1 l' r p' r' :
  every_table_exists_local tables s = (Ok true, s1) -> tables <> [] ->
  local_engine (loc s1) query None = (l', r) ->
  returned r = None ->
  prod_engine (prod s1) query None = (p', r') ->
  _handle_read_query query tables s
  = (Ok (read_outcome RProduction (returned r') tables),
     mkDb p' l' ((calls s1 ++ [ExecuteLocal query None r])
                 ++ [ExecuteProduction query None r'])%list).
Proof.
  intros Hall Hne Hl Hr Hp.
  assert (Hlen : negb (List.length tables =? 0) = true)
    by (destruct tables; [contradiction | reflexivity]).
  unfold _handle_read_query, bind. rewrite Hall. cbn [andb]. rewrite Hlen.
  rewrite (execute_local_query_eq _ _ _ _ _ Hl). rewrite Hr.
  now rewrite (read_from_production_eq query tables
                 (mkDb (prod s1) l' _) p' r' Hp).
Qed.

Lemma handle_read_query_direct query tables s s1 p' r :
  (tables = [] /\ s1 = s) \/ every_table_exists_local tables s = (Ok false, s1) ->
  prod_engine (prod s1) query None = (p', r) ->
  _handle_read_query query tables s
  = (Ok (read_outcome RProduction (returned r) tables),
     mkDb p' (loc s1) (calls s1 ++ [ExecuteProduction query None r])%list).
Proof.
  intros [[-> ->] | Hsome] Hp; unfold _handle_read_query, bind.
  - cbn. now apply read_from_production_eq.
  - rewrite Hsome. cbn [andb]. now apply read_from_production_eq.
Qed.


(** C5, what the code does. A READ that reaches production, directly or
    after its local execution failed, and fails there with an execution
    error is answered with success, no error message and no data. *)
Theorem C5_read_failing_on_production_is_reported_as_success
    (query : string) (tables : list string) (s s1 : Db) :
  (every_table_exists_local tables s = (Ok true, s1) -> tables <> [] ->
     forall l' msg p' msg',
       local_engine (loc s1) query None = (l', SqlError msg) ->
       prod_engine (prod s1) query None = (p', SqlError msg') ->
       exists s', _handle_read_query query tables s
                  = (Ok (read_outcome RProduction None tables), s')) /\
  ((tables = [] /\ s1 = s) \/ every_table_exists_local tables s = (Ok false, s1) ->
     forall p' msg',
       prod_engine (prod s1) query None = (p', SqlError msg') ->
       exists s', _handle_read_query query tables s
                  = (Ok (read_outcome RProduction None tables), s')).
Proof.
  split.
  - intros Hall Hne l' msg p' msg' Hl Hp. eexists.
    exact (handle_read_query_fallback _ _ _ _ _ _ _ _ Hall Hne Hl eq_refl Hp).
  - intros Hcase p' msg' Hp. eexists.
    exact (handle_read_query_direct _ _ _ _ _ _ Hcase Hp).
Qed.

(** C6, what the code does. An UNKNOWN statement is executed on
    production and routed to 'production' with the warning attached; it
    is reported successful when production returned rows, and failed both
    when production raised an execution error and when the statement ran
    without error and has no result set. *)
Theorem C6_unknown_without_result_set_is_reported_failed
    (query : string) (s : Db) (p' : P) (r : EngineResult) :
  prod_engine (prod s) query None = (p', r) ->
  _handle_unknown_query query s
  = (Ok (mkOutcome
           (match r with Rows _ => true | NoResultSet => false | SqlError _ => false end)
           (Some "Query type unknown, executed on production")
           (Some (returned r)) UNKNOWN RProduction None None),
     mkDb p' (loc s) (calls s ++ [ExecuteProduction query None r])%list).
Proof.
  intros Hp. unfold _handle_unknown_query, bind.
  rewrite (execute_production_query_eq _ _ _ _ _ Hp).
  destruct r; reflexivity.
Qed.

End Routes.

(** ** Schema synchronization on the write path *)

Section Synchronization.

Context {W : World}.

Lemma table_exists_local_inv t s found s' :
  table_exists_local t s = (Ok found, s') ->
  exists l' r,
    s' = mkDb (prod s) l' (calls s ++ [exists_check t r; TableExistsLocal t found])%list.
Proof.
  unfold table_exists_local, bind, execute_local_query, log, modify, ret, raise.
  destruct (local_engine (loc s) table_exists_sql (Some [LOCAL_DB_NAME; t]))
    as [l' r].
  intros H. exists l', r.
  destruct r as [[|row rows]| |msg]; simpl in H.
  2:{ unfold getitem, ret, raise in H.
      destruct (lookup "count" row) as [[|n|x]|]; simpl in H; try discriminate.
      injection H as <- <-. simpl. now rewrite <- app_assoc. }
  all: injection H as <- <-; simpl; now rewrite <- app_assoc.
Qed.

Lemma get_table_schema_run t s :
  exists p' r,
    get_table_schema t s
    = (Ok (returned r),
       mkDb p' (loc s)
            (calls s ++ [schema_fetch t r; GetTableSchema t (returned r)])%list).
Proof.
  unfold get_table_schema, bind, execute_production_query, log, modify, ret.
  destruct (prod_engine (prod s) table_schema_sql (Some [PROD_DB_NAME; t]))
    as [p' r].
  exists p', r. simpl. now rewrite <- app_assoc.
Qed.

Lemma getitem_state row k (s : Db) : snd (getitem row k s) = s.
Proof. unfold getitem. now destruct (lookup k row). Qed.

(** Building the column definitions touches no store. *)
Lemma column_definition_state col s : snd (column_definition col s) = s.
Proof.
  unfold column_definition, bind, getitem, ret, raise.
  repeat match goal with
         | |- context [lookup ?k col] => destruct (lookup k col) as [[| |]|]
         | |- context [if ?b then _ else _] => destruct b
         end; reflexivity.
Qed.

Lemma column_definitions_state schema s : snd (column_definitions schema s) = s.
Proof.
  induction schema as [|col rest IH]; [reflexivity|].
  cbn [column_definitions]. unfold bind.
  pose proof (column_definition_state col s) as Hc.
  destruct (column_definition col s) as [[d|e] s1]; simpl in Hc; subst s1.
  - specialize (IH). pose proof IH as Hr.
    destruct (column_definitions rest s) as [[ds|e] s2]; simpl in Hr; now subst.
  - reflexivity.
Qed.

Lemma create_local_table_inv t col cols s ok s' :
  create_local_table t (col :: cols) s = (Ok ok, s') ->
  ok = true /\
  exists l' r ddl,
    s' = mkDb (prod s) l'
           (calls s ++ [ExecuteLocal ddl None r;
                        CreateLocalTable t (col :: cols) true])%list.
Proof.
  unfold create_local_table, bind.
  pose proof (column_definitions_state (col :: cols) s) as Hs.
  destruct (column_definitions (col :: cols) s) as [[columns|e] s1];
    simpl in Hs; subst s1; [|discriminate].
  unfold execute_local_query, log, modify, ret.
  destruct (local_engine (loc s) (create_table_sql t columns) None) as [l' r].
  simpl. intros H. injection H as <- <-. split; [reflexivity|].
  exists l', r, (create_table_sql t columns). now rewrite <- app_assoc.
Qed.

(** The loop ran to its end. *)
Lemma ensure_local_tables_done tables :
  forall s s',
    ensure_local_tables tables s = (Ok None, s') ->
    exists evs, calls s' = (calls s ++ evs)%list /\ sync_trace tables evs.
Proof.
  induction tables as [|t rest IH]; intros s s' H.
  - injection H as <-. exists []. split; [now rewrite app_nil_r | constructor].
  - cbn [ensure_local_tables] in H. unfold bind at 1 in H.
    destruct (table_exists_local t s) as [[found|e] s1] eqn:Ht; [|discriminate].
    destruct (table_exists_local_inv _ _ _ _ Ht) as (l1 & r1 & ->).
    destruct found.
    + destruct (IH _ _ H) as (evs & Hc & Htr). cbn [calls] in Hc.
      eexists. split; [rewrite Hc, <- app_assoc; reflexivity|].
      now constructor.
    + unfold bind at 1 in H.
      match type of H with context [get_table_schema t ?s0] =>
        destruct (get_table_schema_run t s0) as (p2 & r2 & Hg) end.
      rewrite Hg in H. cbn [calls loc prod] in H.
      destruct (returned r2) as [[|col cols]|] eqn:Hr2; try discriminate.
      unfold bind at 1 in H.
      match type of H with context [create_local_table t _ ?s0] =>
        destruct (create_local_table t (col :: cols) s0) as [[ok|e] s3] eqn:Hcr
      end; [|discriminate].
      destruct (create_local_table_inv _ _ _ _ _ _ Hcr) as (-> & l3 & r3 & ddl & ->).
      destruct (IH _ _ H) as (evs & Hc & Htr). cbn [calls] in Hc.
      eexists. split.
      * rewrite Hc. repeat rewrite <- app_assoc. reflexivity.
      * cbn [app]. now apply sync_created with (r' := r2).
Qed.

(** The loop returned early. *)
Lemma ensure_local_tables_failed tables :
  forall s o s',
    ensure_local_tables tables s = (Ok (Some o), s') ->
    exists done t todo pre r r' schema,
      tables = (done ++ t :: todo)%list /\
      sync_trace done pre /\
      calls s' = (calls s ++ pre ++
                  [exists_check t r; TableExistsLocal t false;
                   schema_fetch t r'; GetTableSchema t schema])%list /\
      (schema = None \/ schema = Some []) /\
      o = failure ("Failed to get schema for table: " ++ t) WRITE RError.
Proof.
  induction tables as [|t rest IH]; intros s o s' H.
  - discriminate.
  - cbn [ensure_local_tables] in H. unfold bind at 1 in H.
    destruct (table_exists_local t s) as [[found|e] s1] eqn:Ht; [|discriminate].
    destruct (table_exists_local_inv _ _ _ _ Ht) as (l1 & r1 & ->).
    destruct found.
    + destruct (IH _ _ _ H)
        as (done & t' & todo & pre & r & r' & schema & -> & Htr & Hc & Hs & ->).
      cbn [calls] in Hc.
      exists (t :: done), t', todo,
        (exists_check t r1 :: TableExistsLocal t true :: pre), r, r', schema.
      repeat split; try assumption.
      * now constructor.
      * rewrite Hc. repeat rewrite <- app_assoc. reflexivity.
    + unfold bind at 1 in H.
      match type of H with context [get_table_schema t ?s0] =>
        destruct (get_table_schema_run t s0) as (p2 & r2 & Hg) end.
      rewrite Hg in H. cbn [calls loc prod] in H.
      destruct (returned r2) as [[|col cols]|] eqn:Hr2.
      * injection H as <- <-.
        exists [], t, rest, [], r1, r2, (Some []).
        split; [reflexivity|]. split; [constructor|].
        split; [cbn [calls app]; now rewrite <- app_assoc|].
        split; [now right | reflexivity].
      * unfold bind at 1 in H.
        match type of H with context [create_local_table t _ ?s0] =>
          destruct (create_local_table t (col :: cols) s0) as [[ok|e] s3] eqn:Hcr
        end; [|discriminate].
        destruct (create_local_table_inv _ _ _ _ _ _ Hcr)
          as (-> & l3 & r3 & ddl & ->).
        destruct (IH _ _ _ H)
          as (done & t' & todo & pre & r & r' & schema & -> & Htr & Hc & Hs & ->).
        cbn [calls] in Hc.
        exists (t :: done), t', todo,
          (exists_check t r1 :: TableExistsLocal t false
           :: schema_fetch t r2 :: GetTableSchema t (Some (col :: cols))
           :: ExecuteLocal ddl None r3 :: CreateLocalTable t (col :: cols) true
           :: pre), r, r', schema.
        repeat split; try assumption.
        -- now apply sync_created.
        -- rewrite Hc. repeat rewrite <- app_assoc. reflexivity.
      * injection H as <- <-.
        exists [], t, rest, [], r1, r2, None.
        split; [reflexivity|]. split; [constructor|].
        split; [cbn [calls app]; now rewrite <- app_assoc|].
        split; [now left | reflexivity].
Qed.

End Synchronization.

Section WriteSynchronizes.

Context {W : World}.

Lemma fetches_app t a b : fetches t (a ++ b) = fetches t a + fetches t b.
Proof. unfold fetches. now rewrite filter_app, length_app. Qed.

Lemma creates_app t a b : creates t (a ++ b) = creates t a + creates t b.
Proof. unfold creates. now rewrite filter_app, length_app. Qed.

Lemma fetches_cons t e evs :
  fetches t (e :: evs) = (if is_fetch t e then 1 else 0) + fetches t evs.
Proof. unfold fetches. cbn [filter]. now destruct (is_fetch t e). Qed.

Lemma creates_cons t e evs :
  creates t (e :: evs) = (if is_create t e then 1 else 0) + creates t evs.
Proof. unfold creates. cbn [filter]. now destruct (is_create t e). Qed.

(** Unfold the counts over the events a loop turn writes. *)
Ltac count_events :=
  repeat rewrite fetches_cons; repeat rewrite creates_cons;
  cbn [is_fetch is_create exists_check schema_fetch].

(** A log of the loop says nothing of a table that is not in the list. *)
Lemma sync_trace_outside t ts evs :
  sync_trace ts evs -> ~ In t ts ->
  fetches t evs = 0 /\ creates t evs = 0 /\
  forall found, ~ In (TableExistsLocal t found) evs.
Proof.
  induction 1 as [|t0 ts r evs Htr IH|t0 ts r r' r'' col cols ddl evs Hr Htr IH];
    intros Hout.
  - repeat split. intros found [].
  - assert (Hne : t <> t0) by (intros ->; apply Hout; now left).
    destruct IH as (Hf & Hc & Hn); [intros Hin; apply Hout; now right|].
    count_events. repeat split; try assumption.
    intros found [Hin|[Hin|Hin]].
    + discriminate.
    + injection Hin as -> _. now apply Hne.
    + exact (Hn _ Hin).
  - assert (Hne : t <> t0) by (intros ->; apply Hout; now left).
    destruct IH as (Hf & Hc & Hn); [intros Hin; apply Hout; now right|].
    count_events. apply String.eqb_neq in Hne. rewrite Hne.
    repeat split; try assumption.
    intros found Hin. cbn [In] in Hin.
    destruct Hin as [Hin|[Hin|[Hin|[Hin|[Hin|[Hin|Hin]]]]]]; try discriminate.
    + injection Hin as -> _. apply String.eqb_neq in Hne. now apply Hne.
    + exact (Hn _ Hin).
Qed.

(** In a log of the loop over distinct tables, a table that was found is
    neither fetched nor created, a table that was not found is fetched
    once and created once, and every table was checked. *)
Lemma sync_trace_counts ts evs :
  sync_trace ts evs -> NoDup ts ->
  forall t,
    (In (TableExistsLocal t true) evs -> fetches t evs = 0 /\ creates t evs = 0) /\
    (In (TableExistsLocal t false) evs -> fetches t evs = 1 /\ creates t evs = 1) /\
    (In t ts -> In (TableExistsLocal t true) evs \/ In (TableExistsLocal t false) evs).
Proof.
  induction 1 as [|t0 ts r evs Htr IH|t0 ts r r' r'' col cols ddl evs Hr Htr IH];
    intros Hnd t.
  - split; [intros []|]. split; intros [].
  - inversion Hnd as [|? ? Hout Hnd']; subst.
    destruct (sync_trace_outside t0 ts evs Htr Hout) as (Hf0 & Hc0 & Hn0).
    destruct (IH Hnd' t) as (IHt & IHf & IHin).
    split; [|split].
    + intros [Hin|[Hin|Hin]]; try discriminate.
      * injection Hin as ->. count_events. now split.
      * count_events. now apply IHt.
    + intros [Hin|[Hin|Hin]]; try discriminate.
      count_events. now apply IHf.
    + intros [->|Hin].
      * left. right. now left.
      * destruct (IHin Hin) as [H1|H1]; [left|right]; now do 2 right.
  - inversion Hnd as [|? ? Hout Hnd']; subst.
    destruct (sync_trace_outside t0 ts evs Htr Hout) as (Hf0 & Hc0 & Hn0).
    destruct (IH Hnd' t) as (IHt & IHf & IHin).
    assert (Hrest : forall found, In (TableExistsLocal t found) evs ->
                                  String.eqb t t0 = false).
    { intros found Hin. apply String.eqb_neq. intros ->. exact (Hn0 _ Hin). }
    split; [|split].
    + intros Hin. cbn [In] in Hin.
      destruct Hin as [Hin|[Hin|[Hin|[Hin|[Hin|[Hin|Hin]]]]]]; try discriminate.
      count_events. rewrite (Hrest _ Hin). now apply IHt.
    + intros Hin. cbn [In] in Hin.
      destruct Hin as [Hin|[Hin|[Hin|[Hin|[Hin|[Hin|Hin]]]]]]; try discriminate.
      * injection Hin as ->. count_events. rewrite String.eqb_refl.
        rewrite Hf0, Hc0. now split.
      * count_events. rewrite (Hrest _ Hin). now apply IHf.
    + intros [->|Hin].
      * right. right. now left.
      * destruct (IHin Hin) as [H1|H1]; [left|right]; now do 6 right.
Qed.

(** Every statement the loop ran on local without parameters is the
    statement of a [create_local_table] call for one of its tables. *)
Lemma sync_trace_mutations_are_creations ts evs :
  sync_trace ts evs ->
  forall q r, In (ExecuteLocal q None r) evs ->
    exists t sch before after,
      In t ts /\
      evs = (before ++ ExecuteLocal q None r
                    :: CreateLocalTable t sch true :: after)%list.
Proof.
  induction 1 as [|t0 ts r0 evs Htr IH|t0 ts r0 r' r'' col cols ddl evs Hr Htr IH];
    intros q r Hin.
  - destruct Hin.
  - destruct Hin as [Hin|[Hin|Hin]]; try discriminate.
    destruct (IH _ _ Hin) as (t & sch & before & after & Ht & ->).
    exists t, sch, (exists_check t0 r0 :: TableExistsLocal t0 true :: before), after.
    split; [now right | reflexivity].
  - cbn [In] in Hin.
    destruct Hin as [Hin|[Hin|[Hin|[Hin|[Hin|[Hin|Hin]]]]]]; try discriminate.
    + injection Hin as -> ->.
      exists t0, (col :: cols),
        [exists_check t0 r0; TableExistsLocal t0 false;
         schema_fetch t0 r'; GetTableSchema t0 (Some (col :: cols))], evs.
      split; [now left | reflexivity].
    + destruct (IH _ _ Hin) as (t & sch & before & after & Ht & ->).
      exists t, sch,
        (exists_check t0 r0 :: TableExistsLocal t0 false
         :: schema_fetch t0 r' :: GetTableSchema t0 (Some (col :: cols))
         :: ExecuteLocal ddl None r'' :: CreateLocalTable t0 (col :: cols) true
         :: before), after.
      split; [now right | reflexivity].
Qed.

(** C4, as amended.  [_handle_write_query] on a list of distinct tables,
    as [list(set(...))] builds it.  A table that the check finds locally
    is never fetched.  If the write is executed, it is the last call, and
    before it every table was checked and every table the check did not
    find was fetched exactly once and created exactly once.  Otherwise a
    fetch returned no schema: that fetch is the last call, so the table is
    not created and the write is not executed, the outcome is a failure
    routed to 'error', and every statement that was run on local without
    parameters is the statement of the [create_local_table] call of
    another table of the statement, synchronized before the fetch that
    failed (there is none when the statement has that one table). *)
Theorem C4_absent_table_is_fetched_and_created_once
    (query : string) (tables : list string) (s s' : Db) (o : Outcome) :
  NoDup tables -> tables <> [] ->
  _handle_write_query query tables s = (Ok o, s') ->
  exists evs,
    calls s' = (calls s ++ evs)%list /\
    (forall t, In (TableExistsLocal t true) evs -> fetches t evs = 0) /\
    ((exists pre r,
        evs = (pre ++ [ExecuteLocal query None r])%list /\
        (forall t, In t tables ->
           In (TableExistsLocal t true) pre \/ In (TableExistsLocal t false) pre) /\
        (forall t, In (TableExistsLocal t false) pre ->
           fetches t pre = 1 /\ creates t pre = 1))
     \/
     (exists pre t schema,
        evs = (pre ++ [GetTableSchema t schema])%list /\
        (schema = None \/ schema = Some []) /\
        In t tables /\ In (TableExistsLocal t false) pre /\
        fetches t evs = 1 /\ creates t evs = 0 /\
        success o = false /\ routed_to o = RError /\
        (forall q r, In (ExecuteLocal q None r) evs ->
           exists t' sch before after,
             In t' tables /\ t' <> t /\
             evs = (before ++ ExecuteLocal q None r
                           :: CreateLocalTable t' sch true :: after)%list) /\
        (tables = [t] -> forall q r, ~ In (ExecuteLocal q None r) evs))).
Proof.
  intros Hnd Hne Hrun. unfold _handle_write_query in Hrun.
  destruct tables as [|t0 rest]; [contradiction|].
  unfold bind at 1 in Hrun.
  destruct (ensure_local_tables (t0 :: rest) s) as [[[early|]|e] s1] eqn:Hloop;
    [| |discriminate].
  - (* a fetch returned no schema *)
    injection Hrun as <- <-.
    destruct (ensure_local_tables_failed _ _ _ _ Hloop)
      as (done & t & todo & pre & r & r' & schema & Htab & Htr & Hc & Hs & ->).
    assert (Hdone : NoDup done)
      by (rewrite Htab in Hnd; exact (NoDup_app_remove_r _ _ Hnd)).
    assert (Hout : ~ In t done).
    { rewrite Htab in Hnd. intros Hin.
      apply (NoDup_remove_2 _ _ _ Hnd). apply in_or_app. now left. }
    destruct (sync_trace_outside t done pre Htr Hout) as (Hf0 & Hc0 & Hn0).
    set (tail := [exists_check t r; TableExistsLocal t false; schema_fetch t r']).
    exists (pre ++ tail ++ [GetTableSchema t schema])%list.
    split; [exact Hc|]. split.
    + intros t1 Hin. apply in_app_or in Hin.
      destruct Hin as [Hin|Hin].
      * destruct (sync_trace_counts done pre Htr Hdone t1) as (Ht & _ & _).
        rewrite fetches_app, (proj1 (Ht Hin)). simpl.
        count_events.
        assert (Hneq : String.eqb t1 t = false).
        { apply String.eqb_neq. intros ->. exact (Hn0 _ Hin). }
        now rewrite Hneq.
      * cbn [tail app In] in Hin.
        destruct Hin as [Hin|[Hin|[Hin|[Hin|[]]]]]; discriminate.
    + right. exists (pre ++ tail)%list, t, schema.
      split; [now rewrite <- app_assoc|].
      split; [exact Hs|].
      split; [rewrite Htab; apply in_or_app; right; now left|].
      split; [apply in_or_app; right; right; now left|].
      split; [|split].
      { rewrite fetches_app, Hf0. cbn [tail app]. count_events.
        now rewrite String.eqb_refl. }
      { rewrite creates_app, Hc0. reflexivity. }
      split; [reflexivity|]. split; [reflexivity|].
      assert (Hmut : forall q r0,
                 In (ExecuteLocal q None r0) (pre ++ tail ++ [GetTableSchema t schema]) ->
                 exists t' sch before after,
                   In t' done /\
                   pre = (before ++ ExecuteLocal q None r0
                                 :: CreateLocalTable t' sch true :: after)%list).
      { intros q r0 Hin. apply in_app_or in Hin. destruct Hin as [Hin|Hin].
        - exact (sync_trace_mutations_are_creations done pre Htr _ _ Hin).
        - cbn [tail app In] in Hin.
          destruct Hin as [Hin|[Hin|[Hin|[Hin|[]]]]]; discriminate. }
      split.
      * intros q r0 Hin.
        destruct (Hmut _ _ Hin) as (t' & sch & before & after & Ht' & Hpre).
        exists t', sch, before, (after ++ tail ++ [GetTableSchema t schema])%list.
        split; [|split].
        -- rewrite Htab. apply in_or_app. now left.
        -- intros ->. contradiction.
        -- rewrite Hpre, <- app_assoc. reflexivity.
      * intros Hone q r0 Hin.
        destruct (Hmut _ _ Hin) as (t' & sch & _ & _ & Ht' & _).
        destruct done as [|d done']; [destruct Ht'|].
        rewrite Htab in Hone. injection Hone as -> Hone.
        destruct done'; discriminate.
  - (* the loop ran to its end and the write is executed *)
    destruct (ensure_local_tables_done _ _ _ Hloop) as (pre & Hc & Htr).
    unfold bind at 1 in Hrun. unfold execute_local_query in Hrun.
    destruct (local_engine (loc s1) query None) as [l' r].
    assert (Hs' : calls s' = (calls s1 ++ [ExecuteLocal query None r])%list).
    { destruct (returned r); injection Hrun as _ <-; reflexivity. }
    exists (pre ++ [ExecuteLocal query None r])%list.
    split; [now rewrite Hs', Hc, <- app_assoc|].
    split.
    + intros t Hin. apply in_app_or in Hin. destruct Hin as [Hin|Hin].
      * destruct (sync_trace_counts _ pre Htr Hnd t) as (Ht & _ & _).
        rewrite fetches_app, (proj1 (Ht Hin)). reflexivity.
      * destruct Hin as [Hin|[]]. discriminate.
    + left. exists pre, r. split; [reflexivity|]. split.
      * intros t Hin. now apply (sync_trace_counts _ pre Htr Hnd t).
      * intros t Hin. now apply (sync_trace_counts _ pre Htr Hnd t).
Qed.

End WriteSynchronizes.

(** ** The routing theorems at work on the two small stores *)

(** C2 at work on [DROP DATABASE prod]. *)
Lemma C2_witness :
  let s := Demo.stores Demo.production (Demo.local_with []) in
  exists o, route_query "DROP DATABASE prod" s = (Ok o, s) /\
            success o = false /\ routed_to o = RRejected /\
            error o = Some "Query contains potentially dangerous operations".
Proof.
  intros s.
  apply (proj1 (C2_denylisted_statement_is_rejected_without_a_call
                  "DROP DATABASE prod" s)).
  vm_compute. reflexivity.
Defined.


(** C4 refuted as worded: a DELETE that names USERS, which production
    has, and GHOSTS, which it has not, while local has neither.  The fetch
    for GHOSTS returns no columns and the outcome is a failure routed to
    'error'; but USERS was synchronized first, so the local store has been
    given a table: a local mutation did occur. *)
Lemma C4_counterexample :
  let s := Demo.stores Demo.production (Demo.local_with []) in
  let query := "DELETE FROM users WHERE id IN (SELECT id FROM ghosts)" in
  let o := failure "Failed to get schema for table: GHOSTS" WRITE RError in
  let s' := snd (route_query query s) in
  classification (@list_of_set Demo.world) query = WRITE /\
  tables_of (@list_of_set Demo.world) query = ["USERS"; "GHOSTS"] /\
  fst (route_query query s) = Ok o /\
  success o = false /\ routed_to o = RError /\
  In (GetTableSchema "GHOSTS" (Some [])) (calls s') /\
  In (CreateLocalTable "USERS" Demo.columns true) (calls s') /\
  Demo.tables (loc s) = [] /\
  Demo.tables (loc s') = ["USERS"] /\
  loc s' <> loc s.
Proof.
  intros s query o s'.
  assert (Hcalls : exists before,
            calls s' = (before ++ [CreateLocalTable "USERS" Demo.columns true;
                                   @exists_check Demo.world "GHOSTS"
                                     (Rows [[("count", VInt 0)]]);
                                   TableExistsLocal "GHOSTS" false;
                                   @schema_fetch Demo.world "GHOSTS" (Rows []);
                                   GetTableSchema "GHOSTS" (Some [])])%list).
  { eexists [_; _; _; _; _]. vm_compute. reflexivity. }
  destruct Hcalls as (before & Hcalls).
  split; [vm_compute; reflexivity|]. split; [vm_compute; reflexivity|].
  split; [vm_compute; reflexivity|]. split; [reflexivity|].
  split; [reflexivity|].
  split; [rewrite Hcalls; apply in_or_app; right; do 4 right; now left|].
  split; [rewrite Hcalls; apply in_or_app; right; now left|].
  split; [reflexivity|]. split; [vm_compute; reflexivity|].
  intros H. apply (f_equal Demo.tables) in H. vm_compute in H. discriminate H.
Qed.

(** C4 at work: an INSERT into USERS, which local lacks and production
    has. *)
Lemma C4_witness :
  let s := Demo.stores Demo.production (Demo.local_with []) in
  let query := "INSERT INTO users (name) VALUES ('a')" in
  exists o s',
    _handle_write_query query ["USERS"] s = (Ok o, s') /\
    exists evs,
      calls s' = (calls s ++ evs)%list /\
      (forall t, In (TableExistsLocal t true) evs -> fetches t evs = 0) /\
      ((exists pre r,
          evs = (pre ++ [ExecuteLocal query None r])%list /\
          (forall t, In t ["USERS"] ->
             In (TableExistsLocal t true) pre \/ In (TableExistsLocal t false) pre) /\
          (forall t, In (TableExistsLocal t false) pre ->
             fetches t pre = 1 /\ creates t pre = 1))
       \/
       (exists pre t schema,
          evs = (pre ++ [GetTableSchema t schema])%list /\
          (schema = None \/ schema = Some []) /\
          In t ["USERS"] /\ In (TableExistsLocal t false) pre /\
          fetches t evs = 1 /\ creates t evs = 0 /\
          success o = false /\ routed_to o = RError /\
          (forall q r, In (ExecuteLocal q None r) evs ->
             exists t' sch before after,
               In t' ["USERS"] /\ t' <> t /\
               evs = (before ++ ExecuteLocal q None r
                             :: CreateLocalTable t' sch true :: after)%list) /\
          (["USERS"] = [t] -> forall q r, ~ In (ExecuteLocal q None r) evs))).
Proof.
  intros s query.
  destruct (_handle_write_query query ["USERS"] s) as [[o|e] s'] eqn:Hrun;
    [|discriminate Hrun].
  exists o, s'. split; [reflexivity|].
  assert (Hnd : NoDup ["USERS"]) by (repeat constructor; simpl; tauto).
  assert (Hne : ["USERS"] <> []) by discriminate.
  exact (C4_absent_table_is_fetched_and_created_once _ _ _ _ _ Hnd Hne Hrun).
Defined.

(** C5 at work: [SELECT * FROM users] with no USERS locally and a
    production that is down. *)
Lemma C5_witness :
  let s := Demo.stores Demo.production_down (Demo.local_with []) in
  exists s', _handle_read_query "SELECT * FROM users" ["USERS"] s
             = (Ok (read_outcome RProduction None ["USERS"]), s').
Proof.
  intros s.
  destruct (C5_read_failing_on_production_is_reported_as_success
              "SELECT * FROM users" ["USERS"] s
              (snd (every_table_exists_local ["USERS"] s))) as [_ Hprod].
  exact (Hprod (or_intror eq_refl) Demo.production_down
           "(2003) Can't connect to MySQL server" eq_refl).
Defined.

(** C6 at work: [COMMIT] is UNKNOWN, production runs it without error and
    without result set, and the outcome says it failed. *)
Lemma C6_witness :
  let s := Demo.stores Demo.production (Demo.local_with []) in
  classification (nodup string_dec) "COMMIT" = UNKNOWN /\
  fst (_handle_unknown_query "COMMIT" s)
  = Ok (mkOutcome false (Some "Query type unknown, executed on production")
          (Some None) UNKNOWN RProduction None None).
Proof.
  intros s. split; [reflexivity|].
  now rewrite (C6_unknown_without_result_set_is_reported_failed
                 "COMMIT" s Demo.production NoResultSet eq_refl).
Defined.

(** ** The client session *)

Section Sessions.

Context {W : World}.

Lemma recv_open n s r s1 : recv n s = (Ok r, s1) -> sock_open s1 = true.
Proof.
  unfold recv. destruct (sock_open s) eqn:Ho; simpl; [|discriminate].
  destruct (inbox s) as [|[bs|msg] rest]; intros H; try discriminate;
    injection H as _ <-; first [exact Ho | reflexivity].
Qed.

Lemma send_open bs s :
  sock_open s = true ->
  send bs s = (Ok tt, mkSess (db s) (inbox s) (sent s ++ [bs])%list true
                        (authenticated s)).
Proof. intros Ho. unfold send. now rewrite Ho. Qed.

Lemma _send_error_open msg s :
  sock_open s = true ->
  _send_error msg s
  = (Ok tt, mkSess (db s) (inbox s) (sent s ++ [Byte.xff :: encode msg])%list
              true (authenticated s)).
Proof. intros Ho. unfold _send_error. now apply send_open. Qed.

Lemma answers_ret {A} (a : A) : answers (ret a).
Proof. intros s Ho. now exists a, s. Qed.

Lemma answers_bind {A B} (c : M Sess A) (k : A -> M Sess B) :
  answers c -> (forall a, answers (k a)) -> answers (bind c k).
Proof.
  intros Hc Hk s Ho. destruct (Hc s Ho) as (a & s1 & E & Ho1).
  unfold bind. rewrite E. now apply Hk.
Qed.

Lemma answers_send bs : answers (send bs).
Proof. intros s Ho. rewrite (send_open _ _ Ho). now eexists _, _. Qed.

(** A handler that answers makes the whole [try] answer, if what came
    before it leaves the socket open. *)
Lemma answers_try {A} (c : M Sess A) (h : Exc -> M Sess A) :
  (forall s, sock_open s = true -> sock_open (snd (c s)) = true) ->
  (forall e, answers (h e)) -> answers (try_except c h).
Proof.
  intros Hc Hh s Ho. unfold try_except. specialize (Hc s Ho).
  destruct (c s) as [[a|e] s1]; simpl in Hc.
  - now exists a, s1.
  - now apply Hh.
Qed.

Lemma open_after_bind {A B} (c : M Sess A) (k : A -> M Sess B) :
  (forall s, sock_open s = true -> sock_open (snd (c s)) = true) ->
  (forall a s, sock_open s = true -> sock_open (snd (k a s)) = true) ->
  forall s, sock_open s = true -> sock_open (snd (bind c k s)) = true.
Proof.
  intros Hc Hk s Ho. unfold bind. specialize (Hc s Ho).
  destruct (c s) as [[a|e] s1]; simpl in Hc; [now apply Hk | exact Hc].
Qed.

Lemma open_after_answers {A} (c : M Sess A) :
  answers c -> forall s, sock_open s = true -> sock_open (snd (c s)) = true.
Proof. intros Hc s Ho. destruct (Hc s Ho) as (a & s1 & -> & Ho1). exact Ho1. Qed.

Lemma open_after_to_bytes len z s :
  sock_open s = true -> sock_open (snd (to_bytes len z s)) = true.
Proof.
  intros Ho. unfold to_bytes.
  destruct (z <? 0)%Z; [exact Ho|]. destruct (256 ^ Z.of_nat len <=? z)%Z; exact Ho.
Qed.

Lemma open_after_send_ok_packet n s :
  sock_open s = true -> sock_open (snd (_send_ok_packet n s)) = true.
Proof.
  destruct n as [n|]; [|intros Ho; exact Ho].
  unfold _send_ok_packet. apply open_after_bind.
  - apply open_after_to_bytes.
  - intros count. apply open_after_answers, answers_send.
Qed.

Lemma open_after_send_short_text text s :
  sock_open s = true -> sock_open (snd (send_short_text text s)) = true.
Proof.
  unfold send_short_text. apply open_after_bind.
  - apply open_after_to_bytes.
  - intros len. apply open_after_answers, answers_send.
Qed.

Lemma open_after_send_each texts s :
  sock_open s = true -> sock_open (snd (send_each texts s)) = true.
Proof.
  revert s. induction texts as [|t rest IH]; intros s Ho; [exact Ho|].
  cbn [send_each]. revert s Ho. apply open_after_bind.
  - apply open_after_send_short_text.
  - intros _. exact IH.
Qed.

Lemma open_after_send_result_set rows s :
  sock_open s = true -> sock_open (snd (_send_result_set rows s)) = true.
Proof.
  unfold _send_result_set. destruct rows as [|first rest]; revert s.
  - apply open_after_bind; [|intros _]; apply open_after_answers, answers_send.
  - apply open_after_bind; [apply open_after_answers, answers_send|]. intros _.
    apply open_after_bind; [apply open_after_send_each|]. intros _.
    apply open_after_bind; [apply open_after_send_each|]. intros _.
    apply open_after_answers, answers_send.
Qed.

Lemma answers_send_error msg : answers (_send_error msg).
Proof. apply answers_send. Qed.

Lemma answers_send_results o : answers (_send_results o).
Proof.
  unfold _send_results. apply answers_try.
  - intros s Ho.
    destruct (query_type o); try apply open_after_send_ok_packet; try exact Ho.
    destruct (data o) as [[[|row rows]|]|];
      first [ now apply open_after_send_ok_packet
            | now apply open_after_send_result_set ].
  - intros _. apply answers_send_error.
Qed.

Lemma in_router_run {A} (c : M Db A) s :
  in_router c s
  = (fst (c (db s)),
     mkSess (snd (c (db s))) (inbox s) (sent s) (sock_open s) (authenticated s)).
Proof. unfold in_router. now destruct (c (db s)). Qed.

(** On an open socket [_handle_query] returns, with the socket open. *)
Lemma answers_handle_query query : answers (_handle_query query).
Proof.
  unfold _handle_query. apply answers_try.
  - apply open_after_bind.
    + intros s Ho. rewrite in_router_run. exact Ho.
    + intros o s Ho. destruct (success o).
      * exact (open_after_answers _ (answers_send_results o) s Ho).
      * exact (open_after_answers _ (answers_send_error _) s Ho).
  - intros e. apply answers_send_error.
Qed.

End Sessions.

Section Frames.

Context {W : World}.

Lemma recv_keeps n s r s1 :
  recv n s = (r, s1) ->
  db s1 = db s /\ sent s1 = sent s /\ sock_open s1 = sock_open s.
Proof.
  unfold recv. destruct (negb (sock_open s)).
  - intros H. injection H as _ <-. now repeat split.
  - destruct (inbox s) as [|[bs|msg] rest]; intros H; injection H as _ <-;
      now repeat split.
Qed.

(** Reading a packet consumes input and does nothing else. *)
Lemma read_packet_keeps s r s1 :
  _read_packet s = (r, s1) ->
  db s1 = db s /\ sent s1 = sent s /\ sock_open s1 = sock_open s.
Proof.
  unfold _read_packet, try_except, bind, ret.
  destruct (recv 4 s) as [[header|e] sa] eqn:E1.
  - destruct (recv_keeps _ _ _ _ E1) as (Hd & Hs & Ho).
    destruct (List.length header <? 4).
    + intros H. injection H as _ <-. now repeat split.
    + destruct (recv (declared_length header) sa) as [[payload|e] sb] eqn:E2;
        destruct (recv_keeps _ _ _ _ E2) as (Hd2 & Hs2 & Ho2).
      * destruct (List.length payload <? declared_length header);
          intros H; injection H as _ <-; repeat split; congruence.
      * intros H. injection H as _ <-. repeat split; congruence.
  - destruct (recv_keeps _ _ _ _ E1) as (Hd & Hs & Ho).
    intros H. injection H as _ <-. now repeat split.
Qed.

(** C9, as the code has it. A frame whose four header bytes do not all
    arrive, or whose payload arrives shorter than the header declares,
    yields no packet; with no packet the authentication fails, the query
    loop stops at once and the session ends with its socket closed,
    nothing sent and no store touched.  A frame whose payload arrives with
    the declared length and is not empty is returned as the packet, and
    the query loop handles it and goes round again. *)
Theorem C9_short_frame_ends_the_session_and_full_frame_is_handled (s : Sess) :
  (forall header s1,
     recv 4 s = (Ok header, s1) -> List.length header < 4 ->
     _read_packet s = (Ok None, s1)) /\
  (forall e s1,
     recv 4 s = (Raised e, s1) -> _read_packet s = (Ok None, s1)) /\
  (forall header s1 payload s2,
     recv 4 s = (Ok header, s1) -> List.length header = 4 ->
     recv (declared_length header) s1 = (Ok payload, s2) ->
     List.length payload < declared_length header ->
     _read_packet s = (Ok None, s2)) /\
  (forall s1,
     _read_packet s = (Ok None, s1) ->
     _handle_authentication s = (Ok false, s1) /\
     query_turn s = (Ok false, s1) /\
     (forall fuel, serve (S fuel) s = Some (close s1)) /\
     sock_open (close s1) = false /\ sent s1 = sent s /\ db s1 = db s) /\
  (forall header s1 payload s2,
     recv 4 s = (Ok header, s1) -> List.length header = 4 ->
     recv (declared_length header) s1 = (Ok payload, s2) ->
     List.length payload = declared_length header ->
     payload <> [] ->
     _read_packet s = (Ok (Some payload), s2) /\ frame_accepted s /\
     exists s3, _handle_authentication s = (Ok true, s3)).
Proof.
  assert (Hfull : forall header s1 payload s2,
     recv 4 s = (Ok header, s1) -> List.length header = 4 ->
     recv (declared_length header) s1 = (Ok payload, s2) ->
     List.length payload = declared_length header ->
     _read_packet s = (Ok (Some payload), s2)).
  { intros header s1 payload s2 E1 Hh E2 Hp.
    unfold _read_packet, try_except, bind, ret. rewrite E1.
    replace (List.length header <? 4) with false
      by (symmetry; apply Nat.ltb_ge; lia).
    rewrite E2.
    replace (List.length payload <? declared_length header) with false
      by (symmetry; apply Nat.ltb_ge; lia).
    reflexivity. }
  split; [|split; [|split; [|split]]].
  - intros header s1 E1 Hh. unfold _read_packet, try_except, bind, ret.
    rewrite E1. apply Nat.ltb_lt in Hh. now rewrite Hh.
  - intros e s1 E1. unfold _read_packet, try_except, bind, ret. now rewrite E1.
  - intros header s1 payload s2 E1 Hh E2 Hp.
    unfold _read_packet, try_except, bind, ret. rewrite E1.
    replace (List.length header <? 4) with false
      by (symmetry; apply Nat.ltb_ge; lia).
    rewrite E2. apply Nat.ltb_lt in Hp. now rewrite Hp.
  - intros s1 Hread.
    assert (Hturn : query_turn s = (Ok false, s1))
      by (unfold query_turn, try_except, bind, ret; now rewrite Hread).
    destruct (read_packet_keeps _ _ _ Hread) as (Hd & Hs & _).
    repeat split; try assumption.
    + unfold _handle_authentication, try_except, bind, ret. now rewrite Hread.
    + intros fuel. unfold serve. cbn [query_loop]. now rewrite Hturn.
  - intros header s1 payload s2 E1 Hh E2 Hp Hne.
    pose proof (Hfull _ _ _ _ E1 Hh E2 Hp) as Hread.
    split; [exact Hread|].
    destruct payload as [|b bs]; [contradiction|].
    pose proof (recv_open _ _ _ _ E2) as Ho2.
    split.
    + unfold frame_accepted, query_turn, try_except, bind. rewrite Hread.
      destruct (is_empty (strip (decode_utf8_ignore (b :: bs)))).
      * exists s2. now split.
      * destruct (answers_handle_query
                    (strip (decode_utf8_ignore (b :: bs))) s2 Ho2)
          as ([] & s3 & -> & Ho3).
        exists s3. now split.
    + unfold _handle_authentication, try_except, bind. rewrite Hread.
      cbn [no_packet _send_ok_packet to_bytes]. unfold bind, ret.
      cbn. rewrite (send_open _ _ Ho2). eexists. reflexivity.
Qed.

(** The end of [handle] when the authentication frame yields no packet:
    the socket is closed right after the greeting. *)
Lemma handle_closes_without_auth_packet (fuel : nat) (s : Sess) s0 s1 :
  _send_handshake s = (Ok tt, s0) ->
  _read_packet s0 = (Ok None, s1) ->
  handle fuel s = Some (close s1).
Proof.
  intros Hs Hread. unfold handle, bind. rewrite Hs.
  unfold _handle_authentication, try_except, bind, ret. now rewrite Hread.
Qed.

Lemma ensure_local_tables_early_is_failure tables s o s' :
  ensure_local_tables tables s = (Ok (Some o), s') -> success o = false.
Proof.
  intros H. destruct (ensure_local_tables_failed _ _ _ _ H)
    as (_ & t & _ & _ & _ & _ & _ & _ & _ & _ & _ & ->). reflexivity.
Qed.

(** A successful outcome of a WRITE comes from the last branch of
    [_handle_write_query]. *)
Lemma route_query_successful_write query d o d' :
  classification list_of_set query = WRITE ->
  route_query query d = (Ok o, d') ->
  success o = true ->
  query_type o = WRITE /\ routed_to o = RLocal /\
  rows_affected o = Some (_get_rows_affected query).
Proof.
  unfold classification, route_query.
  destruct (analyze_query list_of_set query) as [[qt tables] clean].
  cbn [fst]. intros ->.
  destruct (negb (is_safe_query query)).
  { intros H. injection H as <- _. discriminate. }
  unfold try_except, _handle_write_query.
  destruct tables as [|t rest].
  { intros H. injection H as <- _. discriminate. }
  unfold bind at 1.
  destruct (ensure_local_tables (t :: rest) d) as [[[early|]|e] d1] eqn:Hloop.
  - intros H. injection H as <- _.
    rewrite (ensure_local_tables_early_is_failure _ _ _ _ Hloop). discriminate.
  - unfold bind, execute_local_query.
    destruct (local_engine (loc d1) query None) as [l' r].
    destruct (returned r); intros H; injection H as <- _; [|discriminate].
    intros _. now repeat split.
  - intros H. injection H as <- _. discriminate.
Qed.

(** C10. When a statement classified WRITE is routed with a successful
    outcome and its text does not begin with INSERT, UPDATE or DELETE,
    the outcome carries [rows_affected] set to [None]; encoding the
    acknowledgment then raises before anything is sent, and what the
    client receives is the error frame 0xFF 'Failed to send results'. *)
Theorem C10_successful_write_without_count_is_answered_by_error_frame
    (query : string) (s : Sess) (o : Outcome) (d' : Db) :
  classification list_of_set query = WRITE ->
  route_query query (db s) = (Ok o, d') ->
  success o = true ->
  startswith (upper query) "INSERT" = false ->
  startswith (upper query) "UPDATE" = false ->
  startswith (upper query) "DELETE" = false ->
  sock_open s = true ->
  rows_affected o = Some None /\
  (forall s0, exists e, _send_ok_packet None s0 = (Raised e, s0)) /\
  _handle_query query s
  = (Ok tt,
     mkSess d' (inbox s)
       (sent s ++ [Byte.xff :: encode "Failed to send results"])%list
       true (authenticated s)).
Proof.
  intros Hw Hroute Hsucc Hi Hu Hd Ho.
  destruct (route_query_successful_write _ _ _ _ Hw Hroute Hsucc)
    as (Hqt & _ & Hrows).
  assert (Hnone : _get_rows_affected query = None)
    by (unfold _get_rows_affected; now rewrite Hi, Hu, Hd).
  rewrite Hnone in Hrows.
  split; [exact Hrows|]. split.
  { intros s0. eexists. reflexivity. }
  unfold _handle_query, try_except, bind at 1.
  rewrite in_router_run, Hroute. cbn [fst snd]. rewrite Hsucc.
  unfold _send_results, try_except. rewrite Hqt, Hrows.
  cbn [_send_ok_packet raise].
  rewrite _send_error_open by exact Ho. reflexivity.
Qed.

End Frames.

(** ** The session theorems at work *)

(** C9 refuted as worded: a frame that declares no payload and delivers
    none arrives whole and is returned by [_read_packet] as the empty
    packet, which [handle] takes for no packet: the loop stops and the
    session ends with its socket closed.  So not every whole frame is
    accepted. *)
Lemma C9_counterexample :
  let s := Demo.session (Demo.stores Demo.production (Demo.local_with []))
             [Data (Demo.frame [])] in
  whole_frame_arrives s [] /\
  fst (_read_packet s) = Ok (Some []) /\
  fst (query_turn s) = Ok false /\
  option_map sock_open (serve 1 s) = Some false /\
  ~ (forall (s : @Sess Demo.world) payload,
       whole_frame_arrives s payload -> frame_accepted s).
Proof.
  intros s.
  assert (Hwhole : whole_frame_arrives s []).
  { unfold whole_frame_arrives.
    exists [Byte.x00; Byte.x00; Byte.x00; Byte.x00],
      (Demo.session (Demo.stores Demo.production (Demo.local_with [])) []),
      (Demo.session (Demo.stores Demo.production (Demo.local_with [])) []).
    repeat split; reflexivity. }
  split; [exact Hwhole|].
  split; [vm_compute; reflexivity|]. split; [vm_compute; reflexivity|].
  split; [vm_compute; reflexivity|].
  intros Hall. destruct (Hall s [] Hwhole) as (s' & Hturn & _).
  assert (Hfalse : fst (query_turn s) = Ok false) by (vm_compute; reflexivity).
  rewrite Hturn in Hfalse. discriminate Hfalse.
Qed.

(** C9 at work: a header cut after two bytes ends the session; the whole
    frame of [SELECT 1] is accepted. *)
Lemma C9_witness :
  let d := Demo.stores Demo.production (Demo.local_with []) in
  let short := Demo.session d [Data [Byte.x08; Byte.x00]] in
  let whole := Demo.session d [Data (Demo.frame (encode "SELECT 1"))] in
  fst (_read_packet short) = Ok None /\
  option_map sock_open (serve 1 short) = Some false /\
  fst (_read_packet whole) = Ok (Some (encode "SELECT 1")) /\
  frame_accepted whole.
Proof.
  intros d short whole.
  destruct (C9_short_frame_ends_the_session_and_full_frame_is_handled short)
    as (Hheader & _ & _ & Hnone & _).
  destruct (C9_short_frame_ends_the_session_and_full_frame_is_handled whole)
    as (_ & _ & _ & _ & Hfull).
  pose proof (Hheader [Byte.x08; Byte.x00] (Demo.session d []) eq_refl
                ltac:(simpl; lia)) as Hread.
  destruct (Hnone _ Hread) as (_ & _ & Hserve & _).
  split; [now rewrite Hread|].
  split; [now rewrite (Hserve 0)|].
  destruct (Hfull (le_bytes 3 8 ++ [Byte.x00])%list
              (Demo.session d [Data (encode "SELECT 1")])
              (encode "SELECT 1") (Demo.session d [])
              eq_refl eq_refl eq_refl eq_refl ltac:(discriminate))
    as (Hpacket & Haccepted & _).
  split; [now rewrite Hpacket | exact Haccepted].
Defined.

(** C10 at work: a REPLACE with a RETURNING clause is classified WRITE,
    the local store answers it with a row, and the client is sent the
    error frame. *)
Lemma C10_witness :
  let query := "REPLACE INTO users (name) VALUES ('a') RETURNING id" in
  let s := Demo.session (Demo.stores Demo.production (Demo.local_with ["USERS"])) [] in
  success (match fst (route_query query (db s)) with
           | Ok o => o
           | Raised _ => failure "" WRITE RError
           end) = true /\
  sent (snd (_handle_query query s))
  = [Byte.xff :: encode "Failed to send results"].
Proof.
  intros query s.
  assert (Hfst : exists o, fst (route_query query (db s)) = Ok o /\ success o = true)
    by (eexists; split; vm_compute; reflexivity).
  destruct (route_query query (db s)) as [[o|e] d'] eqn:Hroute;
    [|destruct Hfst as (o & Ho & _); discriminate Ho].
  assert (Hsucc : success o = true)
    by (destruct Hfst as (o' & Ho & Hs); injection Ho as <-; exact Hs).
  split; [exact Hsucc|].
  destruct (C10_successful_write_without_count_is_answered_by_error_frame
              query s o d' eq_refl Hroute Hsucc eq_refl eq_refl eq_refl eq_refl)
    as (_ & _ & Hsent).
  now rewrite Hsent.
Defined.

(** ** Runs *)

(** The statements of the test suite are classified as it expects. *)
Example test_read_query_detection :
  map (classification (nodup string_dec))
    ["SELECT * FROM users";
     "SELECT id, name FROM products WHERE category = 'electronics'";
     "SHOW TABLES"; "DESCRIBE users"; "EXPLAIN SELECT * FROM orders"]
  = [READ; READ; READ; READ; READ].
Proof. reflexivity. Qed.

Example test_write_query_detection :
  map (classification (nodup string_dec))
    ["INSERT INTO users (name, email) VALUES ('John', 'john@example.com')";
     "UPDATE users SET email = 'new@example.com' WHERE id = 1";
     "DELETE FROM users WHERE id = 1";
     "REPLACE INTO products (id, name) VALUES (1, 'New Product')";
     "TRUNCATE TABLE logs"]
  = [WRITE; WRITE; WRITE; WRITE; WRITE].
Proof. reflexivity. Qed.

(** Comments and white space go before the first token is read; the
    tables are read off the upper-cased text. *)
Example analyze_commented_select :
  analyze_query (nodup string_dec)
    ("  select a -- from x" ++ Database.nl ++ " from `t1` /* join t2 */ join  t3")
  = (READ, ["T1"; "T3"],
     "select a -- from x" ++ Database.nl ++ " from `t1` /* join t2 */ join  t3").
Proof. reflexivity. Qed.

(** A READ that fails on production reaches the client as an
    acknowledgment of zero rows. *)
Example read_fault_is_acknowledged :
  let s := Demo.session (Demo.stores Demo.production_down (Demo.local_with [])) [] in
  sent (snd (_handle_query "SELECT * FROM users" s))
  = [[Byte.x00] ++ repeat Byte.x00 8 ++ [Byte.x00]]%list.
Proof. reflexivity. Qed.

(** An INSERT that the local store runs without error has no result set,
    and is reported to the client as failed. *)
Example plain_insert_is_reported_failed :
  let s := Demo.session (Demo.stores Demo.production (Demo.local_with ["USERS"])) [] in
  sent (snd (_handle_query "INSERT INTO users (name) VALUES ('a')" s))
  = [Byte.xff :: encode "Write query failed on local database"].
Proof. reflexivity. Qed.

(** A session of two frames: the authentication, then a SELECT that
    production answers; the peer closes and so does the session. *)
Example session_of_two_frames :
  let s := mkSess (Demo.stores Demo.production (Demo.local_with []))
             [Data (Demo.frame (encode "auth"));
              Data (Demo.frame (encode "SELECT * FROM users"))]
             [] true false in
  option_map (fun s' => (sock_open s', List.length (sent s'), inbox s'))
             (handle 3 s)
  = Some (false, 6, []).
Proof. vm_compute. reflexivity. Qed.

(* ===================================================================== *)
(** * More properties of the package *)
(* ===================================================================== *)

(** ** Table names *)

Section TableNames.

Lemma all_chars_append p a b :
  all_chars p (a ++ b) = all_chars p a && all_chars p b.
Proof.
  induction a as [|c a IH]; simpl; [reflexivity|].
  now rewrite IH, andb_assoc.
Qed.

Lemma span_all_chars p s :
  all_chars p (fst (span p s)) = true.
Proof.
  induction s as [|c s IH]; simpl; [reflexivity|].
  destruct (p c) eqn:E; [|reflexivity].
  destruct (span p s) as [a b]. simpl in *. now rewrite E.
Qed.

Lemma span_keeps q p s :
  all_chars q s = true ->
  all_chars q (fst (span p s)) = true /\ all_chars q (snd (span p s)) = true.
Proof.
  induction s as [|c s IH]; simpl; [now split|].
  intros H. apply andb_true_iff in H. destruct H as [Hc Hs].
  destruct (p c).
  - destruct (span p s) as [a b]. simpl in *.
    destruct (IH Hs) as [Ha Hb]. now rewrite Hc, Ha.
  - simpl. now rewrite Hc, Hs.
Qed.

Lemma skip_keyword_keeps q kw :
  forall s r, skip_keyword kw s = Some r ->
              all_chars q s = true -> all_chars q r = true.
Proof.
  induction kw as [|k kw IH]; intros s r H Hs.
  - destruct s; injection H as <-; exact Hs.
  - destruct s as [|c s]; [discriminate|]. simpl in H.
    destruct (Ascii.eqb (upper_char k) (upper_char c)); [|discriminate].
    simpl in Hs. apply andb_true_iff in Hs. exact (IH _ _ H (proj2 Hs)).
Qed.

Lemma tail_keeps q s : all_chars q s = true -> all_chars q (tail s) = true.
Proof.
  destruct s as [|c s]; simpl; [trivial|].
  intros H. apply andb_true_iff in H. exact (proj2 H).
Qed.

(** What one match of [KW\s+`?(\w+)`?] captures: a non-empty run of
    word characters, taken from the text. *)
Lemma match_table_after_captures q kw s ident n :
  match_table_after kw s = Some (ident, n) ->
  is_empty ident = false /\ all_chars is_word ident = true /\
  (all_chars q s = true -> all_chars q ident = true).
Proof.
  unfold match_table_after.
  destruct (skip_keyword kw s) as [r1|] eqn:Hk; [|discriminate].
  destruct (span is_space r1) as [sp r2] eqn:Hsp.
  destruct (is_empty sp); [discriminate|].
  set (r := if starts_with_backtick r2 then tail r2 else r2).
  pose proof (span_all_chars is_word r) as Hw.
  pose proof (span_keeps q is_word r) as Hq.
  destruct (span is_word r) as [id r3].
  destruct (is_empty id) eqn:He; [discriminate|].
  intros H. injection H as <- _. simpl in *.
  split; [exact He|]. split; [exact Hw|].
  intros Hs. apply Hq.
  pose proof (skip_keyword_keeps q _ _ _ Hk Hs) as H1.
  pose proof (span_keeps q is_space r1 H1) as [_ H2].
  rewrite Hsp in H2. simpl in H2. unfold r.
  destruct (starts_with_backtick r2); [now apply tail_keeps | exact H2].
Qed.

Lemma findall_tables_from_captures q kw s :
  forall skip w,
    In w (findall_tables_from kw skip s) ->
    is_empty w = false /\ all_chars is_word w = true /\
    (all_chars q s = true -> all_chars q w = true).
Proof.
  induction s as [|c s IH]; intros skip w Hin; [destruct Hin|].
  cbn [findall_tables_from] in Hin.
  assert (Hrest : forall k, In w (findall_tables_from kw k s) ->
            is_empty w = false /\ all_chars is_word w = true /\
            (all_chars q (String c s) = true -> all_chars q w = true)).
  { intros k Hk. destruct (IH _ _ Hk) as (H1 & H2 & H3).
    split; [exact H1|]. split; [exact H2|].
    intros Hs. apply H3. simpl in Hs. apply andb_true_iff in Hs. exact (proj2 Hs). }
  destruct skip as [|k]; [|now apply (Hrest k)].
  destruct (match_table_after kw (String c s)) as [[ident n]|] eqn:Hm.
  - destruct Hin as [<-|Hin]; [|now apply (Hrest (n - 1))].
    exact (match_table_after_captures q _ _ _ _ Hm).
  - now apply (Hrest 0).
Qed.

(** X1. Every name that [re.findall] captures after a keyword is a
    non-empty run of word characters: [filter(None, ...)] in
    [_extract_table_names] never removes anything. *)
Theorem findall_tables_are_words (kw s : string) :
  (forall w, In w (findall_tables kw s) ->
             is_empty w = false /\ all_chars is_word w = true) /\
  filter (fun w => negb (is_empty w)) (findall_tables kw s) = findall_tables kw s.
Proof.
  assert (H : forall w, In w (findall_tables kw s) ->
                        is_empty w = false /\ all_chars is_word w = true).
  { intros w Hin.
    destruct (findall_tables_from_captures is_word kw s 0 w Hin) as (H1 & H2 & _).
    now split. }
  split; [exact H|].
  apply forallb_filter_id. apply forallb_forall. intros w Hin.
  now rewrite (proj1 (H w Hin)).
Qed.

End TableNames.

(** ** The working copy is upper-case, and so are the table names *)

Section UpperCase.

Lemma upper_char_not_lower c : is_lower (upper_char c) = false.
Proof. destruct c as [[] [] [] [] [] [] [] []]; reflexivity. Qed.

Lemma upper_no_lower s : no_lower (upper s) = true.
Proof.
  induction s as [|c s IH]; [reflexivity|].
  unfold no_lower in *. simpl. now rewrite upper_char_not_lower, IH.
Qed.

Lemma lstrip_keeps q s : all_chars q s = true -> all_chars q (lstrip s) = true.
Proof.
  induction s as [|c s IH]; [trivial|]. intros H. simpl.
  destruct (is_space c); [|exact H].
  simpl in H. apply andb_true_iff in H. exact (IH (proj2 H)).
Qed.

Lemma rstrip_keeps q s : all_chars q s = true -> all_chars q (rstrip s) = true.
Proof.
  induction s as [|c s IH]; [trivial|]. intros H. simpl in *.
  apply andb_true_iff in H. destruct H as [Hc Hs].
  destruct (is_space c && is_empty (rstrip s)); [reflexivity|].
  simpl. now rewrite Hc, IH.
Qed.

Lemma strip_keeps q s : all_chars q s = true -> all_chars q (strip s) = true.
Proof. intros H. now apply rstrip_keeps, lstrip_keeps. Qed.

Lemma remove_line_comments_keeps q s :
  forall b, all_chars q s = true ->
            all_chars q (remove_line_comments_from b s) = true.
Proof.
  induction s as [|c s IH]; intros b H; [reflexivity|].
  pose proof H as H0. simpl in H. apply andb_true_iff in H.
  destruct H as [Hc Hs]. cbn [remove_line_comments_from].
  destruct b.
  - destruct (is_newline c); [simpl; now rewrite Hc, IH | now apply IH].
  - destruct (prefix "--" (String c s)); [now apply IH|].
    simpl. now rewrite Hc, IH.
Qed.

Lemma remove_block_comments_keeps q s :
  forall m, all_chars q s = true ->
            all_chars q (remove_block_comments_from m s) = true.
Proof.
  induction s as [|c s IH]; intros m H; [reflexivity|].
  simpl in H. apply andb_true_iff in H. destruct H as [Hc Hs].
  cbn [remove_block_comments_from]. destruct m.
  - destruct (prefix "/*" (String c s) && contains "*/" (tail s));
      [now apply IH | simpl; now rewrite Hc, IH].
  - now apply IH.
  - destruct (prefix "*/" (String c s)); now apply IH.
  - now apply IH.
Qed.

Lemma collapse_spaces_keeps q s :
  q " "%char = true ->
  forall b, all_chars q s = true ->
            all_chars q (collapse_spaces_from b s) = true.
Proof.
  intros Hblank. induction s as [|c s IH]; intros b H; [reflexivity|].
  simpl in H. apply andb_true_iff in H. destruct H as [Hc Hs].
  cbn [collapse_spaces_from]. destruct (is_space c).
  - destruct b; [now apply IH | simpl; now rewrite Hblank, IH].
  - simpl. now rewrite Hc, IH.
Qed.

(** The working copy of [analyze_query] has no lower-case letter. *)
Lemma normalize_no_lower query : no_lower (normalize query) = true.
Proof.
  unfold normalize, no_lower. apply strip_keeps.
  apply collapse_spaces_keeps; [reflexivity|].
  apply remove_block_comments_keeps, remove_line_comments_keeps.
  apply upper_no_lower.
Qed.

Lemma upper_char_isascii c :
  (nat_of_ascii c <? 128) = true -> (nat_of_ascii (upper_char c) <? 128) = true.
Proof. destruct c as [[] [] [] [] [] [] [] []]; intros H; first [exact H | reflexivity]. Qed.

Lemma upper_isascii s : isascii s = true -> isascii (upper s) = true.
Proof.
  unfold isascii. induction s as [|c s IH]; [trivial|]. simpl. intros H.
  apply andb_true_iff in H. destruct H as [Hc Hs].
  now rewrite (upper_char_isascii c Hc), IH.
Qed.

(** The working copy of an ASCII statement is ASCII. *)
Lemma normalize_isascii query :
  isascii query = true -> isascii (normalize query) = true.
Proof.
  intros H. unfold normalize, isascii. apply strip_keeps.
  apply collapse_spaces_keeps; [reflexivity|].
  apply remove_block_comments_keeps, remove_line_comments_keeps.
  apply upper_isascii, strip_keeps, H.
Qed.

(** X2. For a statement of ASCII characters, the table names are read
    off the upper-cased working copy: every name that [analyze_query]
    reports is a non-empty run of ASCII letters, digits and underscores
    without a lower-case letter, whatever the case of the statement, as
    long as [list(set(...))] only enumerates what it was given. *)
Theorem table_names_are_upper_case
    (order : list string -> list string) (query t : string) :
  isascii query = true ->
  (forall l x, In x (order l) -> In x l) ->
  In t (tables_of order query) ->
  no_lower t = true /\ is_empty t = false /\ all_chars is_word t = true /\
  isascii t = true.
Proof.
  intros Hascii Hord Hin.
  unfold tables_of, analyze_query in Hin. cbn [fst snd] in Hin.
  unfold _extract_table_names in Hin. apply Hord in Hin.
  apply filter_In in Hin. destruct Hin as [Hin _].
  pose proof (normalize_isascii query Hascii) as Hnascii.
  set (nq := normalize query) in *.
  assert (Hup : all_chars (fun c => negb (is_lower c)) nq = true)
    by apply normalize_no_lower.
  assert (Hone : forall kw, In t (findall_tables kw nq) ->
            no_lower t = true /\ is_empty t = false /\ all_chars is_word t = true /\
            isascii t = true).
  { intros kw Hk.
    destruct (findall_tables_from_captures
                (fun c => negb (is_lower c)) kw nq 0 t Hk) as (H1 & H2 & H3).
    destruct (findall_tables_from_captures
                (fun c => nat_of_ascii c <? 128) kw nq 0 t Hk) as (_ & _ & H4).
    split; [exact (H3 Hup)|]. split; [exact H1|]. split; [exact H2|].
    exact (H4 Hnascii). }
  destruct (_classify_query nq).
  - apply in_app_or in Hin. destruct Hin as [Hin|Hin]; exact (Hone _ Hin).
  - repeat match type of Hin with
           | In _ (if ?b then _ else _) => destruct b
           end; first [exact (Hone _ Hin) | destruct Hin].
  - destruct Hin.
Qed.

End UpperCase.

(** X2 at work: the names of [select * from users join orders ...]. *)
Lemma table_names_are_upper_case_witness :
  let query := "select * from users join orders on users.id = orders.user_id" in
  tables_of (nodup string_dec) query = ["USERS"; "ORDERS"] /\
  no_lower "USERS" = true /\ is_empty "USERS" = false /\
  all_chars is_word "USERS" = true /\ isascii "USERS" = true.
Proof.
  intros query. split; [vm_compute; reflexivity|].
  apply (table_names_are_upper_case (nodup string_dec) query "USERS").
  - reflexivity.
  - intros l x Hx. exact (proj1 (nodup_In string_dec l x) Hx).
  - assert (E : tables_of (nodup string_dec) query = ["USERS"; "ORDERS"])
      by (vm_compute; reflexivity).
    rewrite E. now left.
Defined.

(** ** The safety filter *)

Section SafetyFilter.

Lemma is_space_upper_char c : is_space (upper_char c) = is_space c.
Proof. destruct c as [[] [] [] [] [] [] [] []]; reflexivity. Qed.

Lemma upper_append a b : upper (a ++ b) = (upper a ++ upper b)%string.
Proof. induction a as [|c a IH]; simpl; [reflexivity | now rewrite IH]. Qed.

Lemma is_empty_upper s : is_empty (upper s) = is_empty s.
Proof. now destruct s. Qed.

Lemma lstrip_upper s : lstrip (upper s) = upper (lstrip s).
Proof.
  induction s as [|c s IH]; simpl; [reflexivity|].
  rewrite is_space_upper_char. now destruct (is_space c).
Qed.

Lemma rstrip_upper s : rstrip (upper s) = upper (rstrip s).
Proof.
  induction s as [|c s IH]; simpl; [reflexivity|].
  rewrite is_space_upper_char, IH, is_empty_upper.
  now destruct (is_space c && is_empty (rstrip s)).
Qed.

Lemma strip_upper s : strip (upper s) = upper (strip s).
Proof. unfold strip. now rewrite lstrip_upper, rstrip_upper. Qed.

(** X3. The safety filter does not look at the letter case of ASCII
    text: two statements of ASCII characters that are equal once
    upper-cased get the same verdict. *)
Theorem is_safe_query_ignores_case (q1 q2 : string) :
  isascii q1 = true -> isascii q2 = true ->
  upper q1 = upper q2 -> is_safe_query q1 = is_safe_query q2.
Proof.
  intros _ _ H. unfold is_safe_query.
  now rewrite <- !strip_upper, H.
Qed.

Lemma match_prefix_append r :
  forall s t, Regex.match_prefix r s = true -> Regex.match_prefix r (s ++ t) = true.
Proof.
  intros s. revert r. induction s as [|c s IH]; intros r t H.
  - simpl in H. rewrite orb_false_r in H.
    destruct t; simpl; now rewrite H.
  - simpl in *. apply orb_true_iff in H. destruct H as [H|H].
    + now rewrite H.
    + rewrite (IH _ t H). apply orb_true_r.
Qed.

Lemma search_of_match_prefix r s :
  Regex.match_prefix r s = true -> Regex.search r s = true.
Proof. intros H. destruct s; cbn [Regex.search]; now rewrite H. Qed.

Lemma search_append_r r s t :
  Regex.search r s = true -> Regex.search r (s ++ t) = true.
Proof.
  induction s as [|c s IH]; intros H.
  - cbn [Regex.search] in H. rewrite orb_false_r in H.
    apply search_of_match_prefix. exact (match_prefix_append r "" t H).
  - cbn [Regex.search] in H. apply orb_true_iff in H.
    destruct H as [H|H].
    + apply search_of_match_prefix. exact (match_prefix_append r _ t H).
    + change (String c s ++ t)%string with (String c (s ++ t)).
      cbn [Regex.search]. rewrite (IH H). apply orb_true_r.
Qed.

Lemma search_append_l r p s :
  Regex.search r s = true -> Regex.search r (p ++ s) = true.
Proof.
  intros H. induction p as [|c p IH]; [exact H|].
  change (String c p ++ s)%string with (String c (p ++ s)).
  cbn [Regex.search]. rewrite IH. apply orb_true_r.
Qed.

Lemma lstrip_splits s : exists ws, s = (ws ++ lstrip s)%string.
Proof.
  induction s as [|c s [ws IH]]; [now exists ""|]. simpl.
  destruct (is_space c).
  - exists (String c ws). simpl. now rewrite <- IH.
  - now exists "".
Qed.

Lemma rstrip_splits s : exists ws, s = (rstrip s ++ ws)%string.
Proof.
  induction s as [|c s [ws IH]]; [now exists ""|]. simpl.
  destruct (is_space c && is_empty (rstrip s)).
  - now exists (String c s).
  - exists ws. simpl. now rewrite <- IH.
Qed.

Lemma rstrip_append u v :
  rstrip (u ++ v) = if is_empty (rstrip v) then rstrip u else (u ++ rstrip v)%string.
Proof.
  induction u as [|c u IH]; simpl.
  - now destruct (rstrip v).
  - rewrite IH. destruct (is_empty (rstrip v)) eqn:E; [reflexivity|].
    assert (Hne : is_empty (u ++ rstrip v) = false)
      by (destruct u; [exact E | reflexivity]).
    rewrite Hne, andb_false_r. reflexivity.
Qed.

Lemma rstrip_idempotent s : rstrip (rstrip s) = rstrip s.
Proof.
  induction s as [|c s IH]; simpl; [reflexivity|].
  destruct (is_space c && is_empty (rstrip s)) eqn:E; [reflexivity|].
  simpl. rewrite IH, E. reflexivity.
Qed.

Lemma lstrip_length s : String.length (lstrip s) <= String.length s.
Proof.
  induction s as [|c s IH]; simpl; [constructor|].
  destruct (is_space c); simpl; lia.
Qed.

(** A text that [lstrip] leaves alone starts with a character that is
    not white space, if it has one. *)
Lemma lstrip_fixed_head c s : lstrip (String c s) = String c s -> is_space c = false.
Proof.
  simpl. destruct (is_space c); [|reflexivity].
  intros H. pose proof (lstrip_length s) as Hlen.
  rewrite H in Hlen. simpl in Hlen. lia.
Qed.

Lemma lstrip_fixed_append a x b :
  lstrip x = x -> is_empty x = false ->
  exists a', lstrip (a ++ x ++ b) = (a' ++ x ++ b)%string.
Proof.
  intros Hx Hne. induction a as [|c a [a' IH]].
  - exists "". destruct x as [|k x]; [discriminate|].
    simpl. now rewrite (lstrip_fixed_head _ _ Hx).
  - simpl. destruct (is_space c).
    + exists a'. exact IH.
    + now exists (String c a).
Qed.

Lemma lstrip_rstrip_fixed s : lstrip s = s -> lstrip (rstrip s) = rstrip s.
Proof.
  destruct s as [|c s]; [reflexivity|]. intros H.
  pose proof (lstrip_fixed_head _ _ H) as E. simpl. rewrite E. simpl.
  now rewrite E.
Qed.

Lemma lstrip_idempotent s : lstrip (lstrip s) = lstrip s.
Proof.
  induction s as [|c s IH]; simpl; [reflexivity|].
  destruct (is_space c) eqn:E; [exact IH|]. simpl. now rewrite E.
Qed.

(** What [strip] leaves of a text is still there when the text is
    stripped inside a longer one. *)
Lemma strip_occurs pre q suf :
  exists a b, strip (pre ++ q ++ suf) = (a ++ strip q ++ b)%string.
Proof.
  destruct (is_empty (strip q)) eqn:Hne.
  { destruct (strip q); [|discriminate].
    exists (strip (pre ++ q ++ suf)), "". simpl. now rewrite append_empty_r. }
  destruct (lstrip_splits q) as [w1 H1].
  destruct (rstrip_splits (lstrip q)) as [w2 H2].
  fold (strip q) in H2.
  assert (Hq : (pre ++ q ++ suf = (pre ++ w1) ++ strip q ++ (w2 ++ suf))%string).
  { rewrite H1 at 1. rewrite H2 at 1. now rewrite !append_assoc3. }
  assert (Hl : lstrip (strip q) = strip q).
  { unfold strip. apply lstrip_rstrip_fixed, lstrip_idempotent. }
  assert (Hr : rstrip (strip q) = strip q) by apply rstrip_idempotent.
  rewrite Hq. unfold strip at 1.
  destruct (lstrip_fixed_append (pre ++ w1) (strip q) (w2 ++ suf) Hl Hne)
    as [a' Ha].
  rewrite Ha. exists a'.
  assert (Hin : exists t, rstrip (strip q ++ w2 ++ suf) = (strip q ++ t)%string).
  { rewrite rstrip_append, Hr.
    destruct (is_empty (rstrip (w2 ++ suf)));
      [exists ""; now rewrite append_empty_r | now eexists]. }
  destruct Hin as [t Hin].
  rewrite rstrip_append, Hin.
  assert (Hnonempty : is_empty (strip q ++ t) = false)
    by (destruct (strip q); [discriminate | reflexivity]).
  rewrite Hnonempty. now exists t.
Qed.

(** X4. In ASCII text, a statement the denylist rejects stays rejected
    with any text put before and after it: several statements sent as one
    are rejected as soon as one of them is. *)
Theorem unsafe_statement_stays_unsafe_inside_a_longer_text (pre q suf : string) :
  isascii (pre ++ q ++ suf) = true ->
  is_safe_query q = false -> is_safe_query (pre ++ q ++ suf) = false.
Proof.
  unfold is_safe_query. intros _ H.
  apply negb_false_iff in H. apply negb_false_iff.
  apply existsb_exists in H. destruct H as (r & Hr & Hs).
  apply existsb_exists. exists r. split; [exact Hr|].
  destruct (strip_occurs pre q suf) as (a & b & E).
  rewrite E, !upper_append.
  apply search_append_l, search_append_r. exact Hs.
Qed.

End SafetyFilter.

(** X4 at work: a DROP DATABASE after a SELECT. *)
Lemma unsafe_statement_stays_unsafe_witness :
  is_safe_query ("SELECT 1; " ++ "drop database prod" ++ "; SELECT 2") = false.
Proof.
  apply unsafe_statement_stays_unsafe_inside_a_longer_text;
    vm_compute; reflexivity.
Defined.

(** X3 at work. *)
Lemma is_safe_query_ignores_case_witness :
  is_safe_query "Flush Privileges" = is_safe_query "FLUSH privileges".
Proof. apply is_safe_query_ignores_case; reflexivity. Defined.

(** ** The database manager *)

Section DatabaseManager.

Context {W : World}.

Lemma well_formed_column_keys col :
  well_formed_column col = true ->
  exists a b c d e,
    lookup "column_name" col = Some a /\ lookup "data_type" col = Some b /\
    lookup "is_nullable" col = Some c /\ lookup "column_default" col = Some d /\
    lookup "extra" col = Some e.
Proof.
  unfold well_formed_column, column_keys, has_key. cbn [forallb].
  destruct (lookup "column_name" col) as [a|]; [|discriminate].
  destruct (lookup "data_type" col) as [b|]; [|discriminate].
  destruct (lookup "is_nullable" col) as [c|]; [|discriminate].
  destruct (lookup "column_default" col) as [d|]; [|discriminate].
  destruct (lookup "extra" col) as [e|]; [|discriminate].
  intros _. now exists a, b, c, d, e.
Qed.

Lemma column_definition_returns col s :
  well_formed_column col = true ->
  exists d, column_definition col s = (Ok d, s).
Proof.
  intros H. destruct (well_formed_column_keys col H)
    as (a & b & c & d & e & Ha & Hb & Hc & Hd & He).
  unfold column_definition, bind, getitem, ret.
  rewrite Ha, Hb, Hc, Hd, He.
  destruct d; destruct (truthy e); now eexists.
Qed.

Lemma column_definition_raises col s :
  well_formed_column col = false ->
  exists k, In k column_keys /\ column_definition col s = (Raised (KeyError k), s).
Proof.
  unfold well_formed_column, column_keys, has_key. cbn [forallb].
  unfold column_definition, bind, getitem, ret, raise.
  destruct (lookup "column_name" col) as [a|];
    [|intros _; exists "column_name"; split; [simpl; tauto | reflexivity]].
  destruct (lookup "data_type" col) as [b|];
    [|intros _; exists "data_type"; split; [simpl; tauto | reflexivity]].
  destruct (lookup "is_nullable" col) as [c|];
    [|intros _; exists "is_nullable"; split; [simpl; tauto | reflexivity]].
  destruct (lookup "column_default" col) as [d|];
    [|intros _; exists "column_default"; split; [simpl; tauto | reflexivity]].
  destruct (lookup "extra" col) as [e|]; [discriminate|].
  intros _. exists "extra". split; [simpl; tauto|]. now destruct d.
Qed.

Lemma column_definitions_returns schema s :
  forallb well_formed_column schema = true ->
  exists columns,
    column_definitions schema s = (Ok columns, s) /\
    List.length columns = List.length schema.
Proof.
  induction schema as [|col rest IH]; intros H.
  - now exists [].
  - cbn [forallb] in H. apply andb_true_iff in H. destruct H as [Hc Hr].
    destruct (column_definition_returns col s Hc) as [d Hd].
    destruct (IH Hr) as (ds & Hds & Hlen).
    exists (d :: ds). cbn [column_definitions]. unfold bind.
    rewrite Hd, Hds. split; [reflexivity | simpl; now rewrite Hlen].
Qed.

Lemma column_definitions_raises schema s :
  forallb well_formed_column schema = false ->
  exists k, In k column_keys /\
            column_definitions schema s = (Raised (KeyError k), s).
Proof.
  induction schema as [|col rest IH]; intros H; [discriminate|].
  cbn [forallb] in H. cbn [column_definitions]. unfold bind.
  destruct (well_formed_column col) eqn:Hc.
  - destruct (column_definition_returns col s Hc) as [d ->].
    destruct (IH H) as (k & Hk & ->). now exists k.
  - destruct (column_definition_raises col s Hc) as (k & Hk & ->). now exists k.
Qed.

(** X5. [create_local_table] reads five keys in every column row.  If a
    row of a non-empty schema lacks one of them it raises the [KeyError]
    of that key before anything is sent to the local store: the stores
    and the log of calls are left as they were. *)
Theorem create_local_table_raises_on_a_missing_key
    (table_name : string) (schema : list Row) (s : Db) :
  schema <> [] ->
  forallb well_formed_column schema = false ->
  exists k, In k column_keys /\
            create_local_table table_name schema s = (Raised (KeyError k), s).
Proof.
  intros Hne Hbad. destruct schema as [|col rest]; [contradiction|].
  destruct (column_definitions_raises (col :: rest) s Hbad) as (k & Hk & E).
  exists k. split; [exact Hk|].
  unfold create_local_table, bind. now rewrite E.
Qed.

(** X6. For a non-empty schema whose rows have the five keys,
    [create_local_table] sends one CREATE TABLE IF NOT EXISTS statement to
    the local store and answers [True] whatever the store answers, an
    execution error included: [execute_local_query] has caught the error,
    so the [except] branch that would answer [False] is never taken. *)
Theorem create_local_table_answers_true_whatever_the_store_answers
    (table_name : string) (schema : list Row) (s : Db) :
  schema <> [] ->
  forallb well_formed_column schema = true ->
  exists columns,
    column_definitions schema s = (Ok columns, s) /\
    forall l' r,
      local_engine (loc s) (create_table_sql table_name columns) None = (l', r) ->
      create_local_table table_name schema s
      = (Ok true,
         mkDb (prod s) l'
           (calls s ++ [ExecuteLocal (create_table_sql table_name columns) None r;
                        CreateLocalTable table_name schema true])%list).
Proof.
  intros Hne Hok. destruct schema as [|col rest]; [contradiction|].
  destruct (column_definitions_returns (col :: rest) s Hok) as (columns & E & Hlen).
  exists columns. split; [exact E|].
  intros l' r Hl. unfold create_local_table, bind. rewrite E.
  unfold execute_local_query. rewrite Hl.
  unfold log, modify, ret. cbn [calls prod loc]. now rewrite <- app_assoc.
Qed.

(** X7. [table_exists_local] looks at the [count] of the first row only.
    A local store that fails the lookup, gives it no result set or gives
    it no row makes the table count as absent, without an exception; a
    first row without [count] raises [KeyError]. *)
Theorem table_exists_local_reads_the_first_count
    (table_name : string) (s : Db) (l' : L) (r : EngineResult) :
  local_engine (loc s) table_exists_sql (Some [LOCAL_DB_NAME; table_name]) = (l', r) ->
  let lookup_event := ExecuteLocal table_exists_sql (Some [LOCAL_DB_NAME; table_name]) r in
  let after found :=
    mkDb (prod s) l' (calls s ++ [lookup_event; TableExistsLocal table_name found])%list in
  (returned r = None \/ returned r = Some [] ->
   table_exists_local table_name s = (Ok false, after false)) /\
  (forall row rows n,
     r = Rows (row :: rows) -> lookup "count" row = Some (VInt n) ->
     table_exists_local table_name s = (Ok (0 <? n)%Z, after (0 <? n)%Z)) /\
  (forall row rows,
     r = Rows (row :: rows) -> lookup "count" row = None ->
     table_exists_local table_name s
     = (Raised (KeyError "count"), mkDb (prod s) l' (calls s ++ [lookup_event])%list)).
Proof.
  intros Hl lookup_event after. subst lookup_event after.
  unfold table_exists_local, bind, execute_local_query, getitem, log, modify,
    ret, raise.
  rewrite Hl. cbn beta iota.
  split; [|split].
  - intros [Hr|Hr]; rewrite Hr; cbn [calls prod loc]; now rewrite <- app_assoc.
  - intros row rows n -> Hc. cbn [returned]. rewrite Hc.
    cbn [calls prod loc]. now rewrite <- app_assoc.
  - intros row rows -> Hc. cbn [returned]. rewrite Hc. reflexivity.
Qed.

End DatabaseManager.

(** X5 at work: the column rows of a production store that labels them in
    upper case have none of the keys, and the table is not created. *)
Lemma create_local_table_raises_witness :
  let s := Demo.stores Demo.production (Demo.local_with []) in
  exists k, In k column_keys /\
            create_local_table "USERS" Demo8.columns s = (Raised (KeyError k), s).
Proof.
  intros s.
  apply (create_local_table_raises_on_a_missing_key "USERS" Demo8.columns s).
  - discriminate.
  - reflexivity.
Defined.

(** X6 at work: the local store is down, the creation fails, and
    [create_local_table] answers [True]. *)
Lemma create_local_table_answers_true_witness :
  let s := Demo.stores Demo.production (Demo.mkStore true [] []) in
  fst (create_local_table "USERS" Demo.columns s) = Ok true /\
  calls (snd (create_local_table "USERS" Demo.columns s))
  = [ExecuteLocal
       "CREATE TABLE IF NOT EXISTS `USERS` (`id` int NOT NULL auto_increment, `name` varchar(255))"
       None (SqlError "(2003) Can't connect to MySQL server");
     CreateLocalTable "USERS" Demo.columns true].
Proof.
  intros s.
  destruct (create_local_table_answers_true_whatever_the_store_answers
              "USERS" Demo.columns s ltac:(discriminate) eq_refl)
    as (columns & Hcols & Hrun).
  assert (E : columns = ["`id` int NOT NULL auto_increment"; "`name` varchar(255)"])
    by (injection Hcols as <-; reflexivity).
  subst columns.
  rewrite (Hrun (Demo.mkStore true [] [])
             (SqlError "(2003) Can't connect to MySQL server") eq_refl).
  split; reflexivity.
Defined.

(** X7 at work: a local store that is down has no table. *)
Lemma table_exists_local_witness :
  let s := Demo.stores Demo.production (Demo.mkStore true ["USERS"] []) in
  fst (table_exists_local "USERS" s) = Ok false.
Proof.
  intros s.
  destruct (table_exists_local_reads_the_first_count "USERS" s
              (Demo.mkStore true ["USERS"] [])
              (SqlError "(2003) Can't connect to MySQL server") eq_refl)
    as (Habsent & _ & _).
  now rewrite (Habsent (or_introl eq_refl)).
Defined.

(** ** The router *)

Section RouterOutcomes.

Context {W : World}.

Lemma handle_read_query_outcome query tables s o s' :
  _handle_read_query query tables s = (Ok o, s') ->
  success o = true /\ error o = None /\ query_type o = READ /\
  (routed_to o = RLocal \/ routed_to o = RProduction).
Proof.
  unfold _handle_read_query, read_from_production, bind, ret,
    execute_local_query, execute_production_query.
  destruct (every_table_exists_local tables s) as [[found|e] s1]; [|discriminate].
  destruct (found && negb (List.length tables =? 0)).
  - destruct (local_engine (loc s1) query None) as [l' r].
    destruct (returned r).
    + intros H. injection H as <- _. repeat split. now left.
    + cbn [prod]. destruct (prod_engine (prod s1) query None) as [p' r'].
      intros H. injection H as <- _. repeat split. now right.
  - destruct (prod_engine (prod s1) query None) as [p' r'].
    intros H. injection H as <- _. repeat split. now right.
Qed.

Lemma handle_write_query_outcome query tables s o s' :
  _handle_write_query query tables s = (Ok o, s') ->
  query_type o = WRITE /\
  ((success o = true /\ error o = None /\ routed_to o = RLocal) \/
   (success o = false /\ error o <> None /\ routed_to o = RError)).
Proof.
  unfold _handle_write_query. destruct tables as [|t rest].
  { intros H. injection H as <- _. split; [reflexivity|]. right.
    repeat split. discriminate. }
  unfold bind at 1.
  destruct (ensure_local_tables (t :: rest) s) as [[[early|]|e] s1] eqn:Hloop;
    [| |discriminate].
  - intros H. injection H as <- _.
    destruct (ensure_local_tables_failed _ _ _ _ Hloop)
      as (_ & t' & _ & _ & _ & _ & _ & _ & _ & _ & _ & ->).
    split; [reflexivity|]. right. repeat split. discriminate.
  - unfold bind, execute_local_query.
    destruct (local_engine (loc s1) query None) as [l' r].
    destruct (returned r); intros H; injection H as <- _;
      (split; [reflexivity|]).
    + left. now repeat split.
    + right. repeat split. discriminate.
Qed.

(** X8. [route_query] never raises.  Its outcome carries the
    classification of the statement; an unsuccessful outcome always has an
    error message; a successful one is routed to 'local' or to
    'production'; and the outcome is routed to 'rejected' exactly when the
    statement does not pass the safety filter. *)
Theorem route_query_always_answers (query : string) (s : Db) :
  exists o s',
    route_query query s = (Ok o, s') /\
    query_type o = classification list_of_set query /\
    (success o = false -> error o <> None) /\
    (success o = true -> routed_to o = RLocal \/ routed_to o = RProduction) /\
    (routed_to o = RRejected <-> is_safe_query query = false).
Proof.
  unfold route_query, classification.
  destruct (analyze_query list_of_set query) as [[qt tables] clean]. cbn [fst].
  destruct (is_safe_query query) eqn:Hsafe; cbn [negb].
  2:{ do 2 eexists. split; [reflexivity|]. cbn.
      repeat split; try discriminate; reflexivity. }
  unfold try_except.
  assert (Herr : forall e (s1 : Db),
    exists o s', (Ok (failure (str_of_exc e) qt RError), s1) = (Ok o, s') /\
      query_type o = qt /\ (success o = false -> error o <> None) /\
      (success o = true -> routed_to o = RLocal \/ routed_to o = RProduction) /\
      (routed_to o = RRejected <-> true = false)).
  { intros e s1. do 2 eexists. split; [reflexivity|]. cbn.
    repeat split; try discriminate. }
  destruct qt.
  - destruct (_handle_read_query query tables s) as [[o|e] s1] eqn:Hrun;
      [|unfold ret; apply Herr].
    destruct (handle_read_query_outcome _ _ _ _ _ Hrun) as (Hs & He & Hq & Hr).
    exists o, s1. split; [reflexivity|]. split; [exact Hq|].
    split; [rewrite Hs; discriminate|]. split; [intros _; exact Hr|].
    split; [|discriminate]. intros Hrej. destruct Hr as [Hr|Hr]; congruence.
  - destruct (_handle_write_query query tables s) as [[o|e] s1] eqn:Hrun;
      [|unfold ret; apply Herr].
    destruct (handle_write_query_outcome _ _ _ _ _ Hrun) as (Hq & Hcase).
    exists o, s1. split; [reflexivity|]. split; [exact Hq|].
    destruct Hcase as [(Hs & He & Hr)|(Hs & He & Hr)].
    + split; [rewrite Hs; discriminate|]. split; [intros _; now left|].
      split; [|discriminate]. congruence.
    + split; [intros _; exact He|]. split; [rewrite Hs; discriminate|].
      split; [|discriminate]. congruence.
  - unfold _handle_unknown_query, bind, ret, execute_production_query.
    destruct (prod_engine (prod s) query None) as [p' r].
    do 2 eexists. split; [reflexivity|]. cbn.
    repeat split; try discriminate. intros _. now right.
Qed.

(** X9. An exception inside the write path reaches the client as an
    error outcome that carries [str(e)]: when the schema that production
    returns for the one table of a WRITE has a row without one of the five
    keys, the outcome is a failure routed to 'error' whose message is that
    key between quotes, and nothing was created or written locally. *)
Theorem write_with_a_malformed_schema_is_answered_with_the_key
    (query t clean : string) (schema : list Row) (s s1 s2 : Db) :
  analyze_query list_of_set query = (WRITE, [t], clean) ->
  is_safe_query query = true ->
  table_exists_local t s = (Ok false, s1) ->
  get_table_schema t s1 = (Ok (Some schema), s2) ->
  schema <> [] ->
  forallb well_formed_column schema = false ->
  exists k,
    In k column_keys /\
    route_query query s = (Ok (failure ("'" ++ k ++ "'") WRITE RError), s2).
Proof.
  intros Ha Hsafe Hcheck Hfetch Hne Hbad.
  destruct (column_definitions_raises schema s2 Hbad) as (k & Hk & Hcols).
  assert (Hraise : create_local_table t schema s2 = (Raised (KeyError k), s2)).
  { destruct schema as [|col cols]; [contradiction|].
    unfold create_local_table, bind. now rewrite Hcols. }
  exists k. split; [exact Hk|].
  unfold route_query. rewrite Ha, Hsafe. cbn [negb].
  unfold try_except, _handle_write_query. cbn [ensure_local_tables].
  unfold bind at 1. unfold bind at 1. rewrite Hcheck.
  unfold bind at 1. rewrite Hfetch.
  destruct schema as [|col cols]; [contradiction|].
  unfold bind at 1. rewrite Hraise. reflexivity.
Qed.

(** X13. A statement classified WRITE for which no table name is
    extracted is refused before any store is called; and no table name is
    extracted when the working copy starts with none of the eight WRITE
    keywords. *)
Theorem write_without_table_is_refused (query : string) (s : Db) :
  classification list_of_set query = WRITE ->
  is_safe_query query = true ->
  (tables_of list_of_set query = [] ->
   route_query query s
   = (Ok (failure "No table names found in write query" WRITE RError), s)) /\
  (existsb (startswith (normalize query)) WRITE_KEYWORDS = false ->
   list_of_set [] = [] ->
   tables_of list_of_set query = []).
Proof.
  intros Hw Hsafe. split.
  - intros Ht. unfold route_query. unfold classification in Hw.
    unfold tables_of in Ht.
    destruct (analyze_query list_of_set query) as [[qt tables] clean].
    cbn [fst snd] in *. subst. rewrite Hsafe. reflexivity.
  - intros Hnone Hnil. unfold tables_of, analyze_query. cbn [fst snd].
    unfold classification, analyze_query in Hw. cbn [fst] in Hw. rewrite Hw.
    unfold _extract_table_names.
    unfold WRITE_KEYWORDS in Hnone. cbn [existsb] in Hnone.
    repeat (apply orb_false_iff in Hnone; destruct Hnone as [?H Hnone]).
    repeat match goal with H : startswith _ _ = false |- _ => rewrite H; clear H end.
    exact Hnil.
Qed.

End RouterOutcomes.

(** X9 at work: production labels its columns in upper case. *)
Lemma write_with_a_malformed_schema_witness :
  let s := Demo8.stores Demo.production (Demo.local_with []) in
  let query := "INSERT INTO users (name) VALUES ('a')" in
  exists k,
    In k column_keys /\
    fst (route_query query s) = Ok (failure ("'" ++ k ++ "'") WRITE RError).
Proof.
  intros s query.
  destruct (write_with_a_malformed_schema_is_answered_with_the_key
              query "USERS" query Demo8.columns s
              (snd (table_exists_local "USERS" s))
              (snd (get_table_schema "USERS" (snd (table_exists_local "USERS" s))))
              eq_refl eq_refl eq_refl eq_refl ltac:(discriminate) eq_refl)
    as (k & Hk & Hrun).
  exists k. split; [exact Hk|]. now rewrite Hrun.
Defined.

(** X13 at work: [SET autocommit = 0] is WRITE by the fallback, starts
    with none of the eight keywords, and is refused. *)
Lemma write_without_table_witness :
  let s := Demo.stores Demo.production (Demo.local_with []) in
  route_query "SET autocommit = 0" s
  = (Ok (failure "No table names found in write query" WRITE RError), s).
Proof.
  intros s.
  destruct (write_without_table_is_refused "SET autocommit = 0" s eq_refl eq_refl)
    as [Hrefused Hnone].
  apply Hrefused. apply Hnone; reflexivity.
Defined.

(** ** What a READ calls, and what [sync_table_schema] answers *)

Section ReadPath.

Context {W : World}.

Lemma grows_by_refl ok s : grows_by ok s s.
Proof. exists []. split; [now rewrite app_nil_r | constructor]. Qed.

Lemma grows_by_trans ok s1 s2 s3 :
  grows_by ok s1 s2 -> grows_by ok s2 s3 -> grows_by ok s1 s3.
Proof.
  intros (e1 & H1 & F1) (e2 & H2 & F2). exists (e1 ++ e2)%list. split.
  - now rewrite H2, H1, app_assoc.
  - apply Forall_app. now split.
Qed.

Ltac grow_step ok :=
  first
    [ apply (preserves_bind _ (grows_by_trans ok))
    | apply (preserves_try _ (grows_by_trans ok))
    | apply (preserves_ret _ (grows_by_refl ok))
    | apply (preserves_raise _ (grows_by_refl ok)) ].

Lemma grows_by_log ok e : ok e -> preserves (grows_by ok) (log e).
Proof. intros He s. exists [e]. split; [reflexivity | now constructor]. Qed.

Lemma grows_by_execute_local ok q ps :
  (forall r, ok (ExecuteLocal q ps r)) ->
  preserves (grows_by ok) (execute_local_query q ps).
Proof.
  intros He s. unfold execute_local_query.
  destruct (local_engine (loc s) q ps) as [l' r].
  eexists. split; [reflexivity|]. now repeat constructor.
Qed.

Lemma grows_by_execute_production ok q ps :
  (forall r, ok (ExecuteProduction q ps r)) ->
  preserves (grows_by ok) (execute_production_query q ps).
Proof.
  intros He s. unfold execute_production_query.
  destruct (prod_engine (prod s) q ps) as [p' r].
  eexists. split; [reflexivity|]. now repeat constructor.
Qed.

Lemma grows_by_getitem ok row k : preserves (grows_by ok) (getitem (S := Db) row k).
Proof. unfold getitem. destruct (lookup k row); grow_step ok. Qed.

Lemma read_path_table_exists_local query t :
  preserves (grows_by (read_path_event query)) (table_exists_local t).
Proof.
  unfold table_exists_local. grow_step (read_path_event query).
  { apply grows_by_execute_local. intros r. left. split; [reflexivity|].
    now exists t. }
  intros result. grow_step (read_path_event query).
  - destruct result as [[|row rows]|]; try grow_step (read_path_event query).
    + apply grows_by_getitem.
    + intros []; grow_step (read_path_event query).
  - intros found. grow_step (read_path_event query).
    + now apply grows_by_log.
    + intros _. grow_step (read_path_event query).
Qed.

Lemma read_path_every_table query tables :
  preserves (grows_by (read_path_event query)) (every_table_exists_local tables).
Proof.
  induction tables as [|t rest IH]; cbn [every_table_exists_local].
  - grow_step (read_path_event query).
  - grow_step (read_path_event query); [apply read_path_table_exists_local|].
    intros [|]; [exact IH | grow_step (read_path_event query)].
Qed.

Lemma read_path_from_production query tables :
  preserves (grows_by (read_path_event query)) (read_from_production query tables).
Proof.
  unfold read_from_production. grow_step (read_path_event query).
  - apply grows_by_execute_production. intros r. now split.
  - intros result. grow_step (read_path_event query).
Qed.

Lemma read_path_handle_read_query query tables :
  preserves (grows_by (read_path_event query)) (_handle_read_query query tables).
Proof.
  unfold _handle_read_query. grow_step (read_path_event query).
  { apply read_path_every_table. }
  intros all_local. destruct (all_local && negb (List.length tables =? 0)).
  - grow_step (read_path_event query).
    + apply grows_by_execute_local. intros r. right. now split.
    + intros [rows|]; [grow_step (read_path_event query)
                      | apply read_path_from_production].
  - apply read_path_from_production.
Qed.

(** X10. Routing a statement classified READ never synchronizes a schema:
    what reaches the stores is the existence lookup of
    [table_exists_local] on local and the statement itself, without
    parameters, on local or on production; there is no
    [get_table_schema] and no [create_local_table] call. *)
Theorem read_never_synchronizes (query : string) (s : Db) :
  classification list_of_set query = READ ->
  grows_by (read_path_event query) s (snd (route_query query s)).
Proof.
  intros Hr. unfold route_query. unfold classification in Hr.
  destruct (analyze_query list_of_set query) as [[qt tables] clean].
  cbn [fst] in Hr. subst qt.
  destruct (negb (is_safe_query query)); [apply grows_by_refl|].
  apply (preserves_try _ (grows_by_trans (read_path_event query))).
  - apply read_path_handle_read_query.
  - intros e. grow_step (read_path_event query).
Qed.

Lemma checks_app a b : checks (a ++ b) = (checks a ++ checks b)%list.
Proof. unfold checks. apply filter_app. Qed.

(** X11. The existence checks of a READ stop at the first table that is
    not found: when every table is found each was checked once, in order;
    otherwise the tables before the first missing one were checked and
    found, that one was checked, and the tables after it were not looked
    up at all.  Each check costs one statement on the local store. *)
Theorem read_checks_stop_at_the_first_missing_table (tables : list string) :
  forall (s s1 : Db) (found : bool),
    every_table_exists_local tables s = (Ok found, s1) ->
    exists evs,
      calls s1 = (calls s ++ evs)%list /\
      List.length evs = 2 * List.length (checks evs) /\
      ((found = true /\
        checks evs = map (fun t => TableExistsLocal t true) tables) \/
       (found = false /\
        exists before t after,
          tables = (before ++ t :: after)%list /\
          checks evs = (map (fun x => TableExistsLocal x true) before
                        ++ [TableExistsLocal t false])%list)).
Proof.
  induction tables as [|t rest IH]; intros s s1 found H.
  - injection H as <- <-. exists []. split; [now rewrite app_nil_r|].
    split; [reflexivity|]. left. now split.
  - cbn [every_table_exists_local] in H. unfold bind in H.
    destruct (table_exists_local t s) as [[b|e] s0] eqn:Ht; [|discriminate].
    destruct (table_exists_local_inv _ _ _ _ Ht) as (l' & r & ->).
    destruct b.
    + destruct (IH _ _ _ H) as (evs & Hc & Hlen & Hcase). cbn [calls] in Hc.
      exists ([exists_check t r; TableExistsLocal t true] ++ evs)%list.
      split; [now rewrite Hc, <- app_assoc|].
      rewrite checks_app. cbn [checks filter is_check exists_check app].
      split; [cbn [List.length]; fold (checks evs); lia|].
      fold (checks evs).
      destruct Hcase as [[-> Hall]|[-> (before & t' & after & -> & Hpre)]].
      * left. split; [reflexivity|]. cbn [map]. now rewrite Hall.
      * right. split; [reflexivity|].
        exists (t :: before), t', after. split; [reflexivity|].
        cbn [map app]. now rewrite Hpre.
    + unfold ret in H. injection H as <- <-.
      exists [exists_check t r; TableExistsLocal t false].
      split; [reflexivity|]. split; [reflexivity|].
      right. split; [reflexivity|]. now exists [], t, rest.
Qed.

(** X12. [sync_table_schema] answers [True] only when this call created
    the table, after one fetch of its schema.  For a table that is already
    local it answers [False] after the existence check alone, and it
    answers [False] as well when production has no schema for it: the
    answer does not tell the two apart. *)
Theorem sync_table_schema_answers_true_only_after_creating
    (t : string) (s s' : Db) (answer : bool) :
  sync_table_schema t s = (Ok answer, s') ->
  exists evs,
    calls s' = (calls s ++ evs)%list /\
    ((answer = true /\ In (TableExistsLocal t false) evs /\
      fetches t evs = 1 /\ creates t evs = 1) \/
     (answer = false /\ creates t evs = 0 /\
      ((In (TableExistsLocal t true) evs /\ fetches t evs = 0 /\
        List.length evs = 2) \/
       (In (TableExistsLocal t false) evs /\ fetches t evs = 1 /\
        (In (GetTableSchema t None) evs \/ In (GetTableSchema t (Some [])) evs))))).
Proof.
  unfold sync_table_schema, bind. intros H.
  destruct (table_exists_local t s) as [[found|e] s0] eqn:Ht; [|discriminate].
  destruct (table_exists_local_inv _ _ _ _ Ht) as (l0 & r0 & ->).
  destruct found.
  - unfold ret in H. injection H as <- <-.
    exists [exists_check t r0; TableExistsLocal t true].
    split; [reflexivity|]. right. split; [reflexivity|].
    split; [reflexivity|]. left.
    split; [right; now left|]. now split.
  - match type of H with context [get_table_schema t ?s0] =>
      destruct (get_table_schema_run t s0) as (p1 & r1 & Hg) end.
    rewrite Hg in H. cbn [calls loc prod] in H.
    destruct (returned r1) as [[|col cols]|] eqn:Hr1.
    + unfold ret in H. injection H as <- <-. eexists.
      split; [cbn [calls]; rewrite <- app_assoc; reflexivity|].
      right. split; [reflexivity|]. split; [reflexivity|]. right.
      split; [cbn; tauto|]. split.
      * unfold fetches. cbn [app filter is_fetch exists_check schema_fetch].
        now rewrite String.eqb_refl.
      * right. cbn. tauto.
    + destruct (create_local_table t (col :: cols) _) as [[ok|e] s3] eqn:Hcr;
        [|discriminate].
      destruct (create_local_table_inv _ _ _ _ _ _ Hcr) as (-> & l3 & r3 & ddl & E).
      injection H as <- <-. rewrite E. eexists.
      split; [cbn [calls]; rewrite <- !app_assoc; reflexivity|].
      left. split; [reflexivity|]. split; [cbn; tauto|].
      unfold fetches, creates.
      cbn [app filter is_fetch is_create exists_check schema_fetch].
      now rewrite String.eqb_refl.
    + unfold ret in H. injection H as <- <-. eexists.
      split; [cbn [calls]; rewrite <- app_assoc; reflexivity|].
      right. split; [reflexivity|]. split; [reflexivity|]. right.
      split; [cbn; tauto|]. split.
      * unfold fetches. cbn [app filter is_fetch exists_check schema_fetch].
        now rewrite String.eqb_refl.
      * left. cbn. tauto.
Qed.

End ReadPath.

(** X10 at work on [SELECT * FROM users]. *)
Lemma read_never_synchronizes_witness :
  let s := Demo.stores Demo.production (Demo.local_with []) in
  grows_by (read_path_event (W := Demo.world) "SELECT * FROM users") s
           (snd (route_query "SELECT * FROM users" s)).
Proof.
  intros s. apply (read_never_synchronizes "SELECT * FROM users" s). reflexivity.
Defined.

(** X11 at work: ORDERS is missing locally, and LOGS after it is not
    looked up. *)
Lemma read_checks_stop_witness :
  let s := Demo.stores Demo.production (Demo.local_with ["USERS"]) in
  exists evs,
    calls (snd (every_table_exists_local ["USERS"; "ORDERS"; "LOGS"] s))
    = (calls s ++ evs)%list /\
    List.length evs = 2 * List.length (checks evs) /\
    ((false = true /\
      checks evs = map (fun t => TableExistsLocal t true) ["USERS"; "ORDERS"; "LOGS"]) \/
     (false = false /\
      exists before t after,
        ["USERS"; "ORDERS"; "LOGS"] = (before ++ t :: after)%list /\
        checks evs = (map (fun x => TableExistsLocal x true) before
                      ++ [TableExistsLocal t false])%list)).
Proof.
  intros s.
  apply (read_checks_stop_at_the_first_missing_table
           ["USERS"; "ORDERS"; "LOGS"] s
           (snd (every_table_exists_local ["USERS"; "ORDERS"; "LOGS"] s)) false).
  reflexivity.
Defined.

(** X12 at work: USERS is already local, and the answer is [False]. *)
Lemma sync_table_schema_witness :
  let s := Demo.stores Demo.production (Demo.local_with ["USERS"]) in
  fst (sync_table_schema "USERS" s) = Ok false /\
  exists evs,
    calls (snd (sync_table_schema "USERS" s)) = (calls s ++ evs)%list /\
    List.length evs = 2.
Proof.
  intros s. split; [reflexivity|].
  destruct (sync_table_schema_answers_true_only_after_creating
              "USERS" s (snd (sync_table_schema "USERS" s)) false eq_refl)
    as (evs & Hc & Hcase).
  exists evs. split; [exact Hc|].
  destruct Hcase as [(Habs & _)|(_ & _ & [(_ & _ & Hlen)|(Hin & _)])].
  - discriminate Habs.
  - exact Hlen.
  - exfalso.
    assert (E : calls (snd (sync_table_schema "USERS" s))
                = [exists_check (W := Demo.world) "USERS"
                     (Rows [[("count", VInt 1)]]);
                   TableExistsLocal "USERS" true]) by reflexivity.
    rewrite E in Hc. cbn [calls s Demo.stores app] in Hc. subst evs.
    destruct Hin as [Hin|[Hin|[]]]; discriminate.
Defined.

(** ** Numbers on the wire *)

Section WireNumbers.

Context {W : World}.

Lemma byte_of_Z_value z :
  (0 <= z)%Z -> Byte.to_nat (byte_of_Z z) = Z.to_nat (z mod 256).
Proof.
  intros Hz. unfold byte_of_Z.
  pose proof (Z.mod_pos_bound z 256 ltac:(lia)) as Hm.
  destruct (Byte.of_N (Z.to_N (z mod 256))) as [b|] eqn:E.
  - apply Byte.to_of_N in E. rewrite Byte.to_nat_via_N, E. apply Z_N_nat.
  - apply Byte.of_N_None_iff in E. lia.
Qed.

Lemma firstn_exact {A} n (l r : list A) :
  List.length l = n -> firstn n (l ++ r) = l.
Proof.
  intros <-. induction l as [|x l IH]; [reflexivity|]. simpl. now rewrite IH.
Qed.

Lemma le_bytes_length len : forall z, List.length (le_bytes len z) = len.
Proof. induction len as [|k IH]; intros z; simpl; [reflexivity | now rewrite IH]. Qed.

Lemma int_from_bytes_le_bytes len :
  forall z, (0 <= z < 256 ^ Z.of_nat len)%Z ->
            int_from_bytes (le_bytes len z) = Z.to_nat z.
Proof.
  induction len as [|k IH]; intros z Hz.
  - simpl in *. assert (z = 0%Z) by lia. now subst.
  - cbn [le_bytes int_from_bytes].
    rewrite Nat2Z.inj_succ, Z.pow_succ_r in Hz by lia.
    assert (Hq : (0 <= z / 256 < 256 ^ Z.of_nat k)%Z).
    { split; [apply Z.div_pos; lia|].
      apply Z.div_lt_upper_bound; lia. }
    rewrite (IH _ Hq), byte_of_Z_value by lia.
    pose proof (Z.div_mod z 256 ltac:(lia)) as Hdm.
    pose proof (Z.mod_pos_bound z 256 ltac:(lia)) as Hm.
    rewrite Hdm at 3.
    rewrite Z2Nat.inj_add, Z2Nat.inj_mul by lia.
    change (Z.to_nat 256) with 256. lia.
Qed.

Lemma to_bytes_fits len z (s : Sess) :
  (0 <= z < 256 ^ Z.of_nat len)%Z -> to_bytes len z s = (Ok (le_bytes len z), s).
Proof.
  intros Hz. unfold to_bytes.
  replace (z <? 0)%Z with false by (symmetry; apply Z.ltb_ge; lia).
  replace (256 ^ Z.of_nat len <=? z)%Z with false
    by (symmetry; apply Z.leb_gt; lia).
  reflexivity.
Qed.

Lemma to_bytes_overflows len z (s : Sess) :
  (z < 0 \/ 256 ^ Z.of_nat len <= z)%Z ->
  exists msg, to_bytes len z s = (Raised (OverflowError msg), s).
Proof.
  intros Hz. unfold to_bytes. destruct (z <? 0)%Z eqn:E1; [now eexists|].
  apply Z.ltb_ge in E1.
  replace (256 ^ Z.of_nat len <=? z)%Z with true
    by (symmetry; apply Z.leb_le; lia).
  now eexists.
Qed.

(** X14. [int.to_bytes] and [int.from_bytes] in little-endian order undo
    each other: a number that fits [len] bytes is written on [len] bytes
    that read back as the number, and a number that does not fit, or is
    negative, raises [OverflowError].  In particular the payload length
    of a header is read from its first three bytes, whatever the sequence
    number in the fourth. *)
Theorem to_bytes_reads_back (len : nat) (z : Z) (s : Sess) :
  ((0 <= z < 256 ^ Z.of_nat len)%Z ->
   to_bytes len z s = (Ok (le_bytes len z), s) /\
   List.length (le_bytes len z) = len /\
   int_from_bytes (le_bytes len z) = Z.to_nat z) /\
  ((z < 0 \/ 256 ^ Z.of_nat len <= z)%Z ->
   exists msg, to_bytes len z s = (Raised (OverflowError msg), s)) /\
  (forall seq, (0 <= z < 256 ^ 3)%Z ->
   declared_length (le_bytes 3 z ++ [seq])%list = Z.to_nat z).
Proof.
  split; [|split].
  - intros Hz. split; [now apply to_bytes_fits|].
    split; [apply le_bytes_length|]. now apply int_from_bytes_le_bytes.
  - apply to_bytes_overflows.
  - intros seq Hz. unfold declared_length.
    rewrite (firstn_exact 3) by apply le_bytes_length.
    now apply (int_from_bytes_le_bytes 3).
Qed.

(** X15. On an open socket [_send_ok_packet] sends, for a count of rows
    that fits eight bytes, one message of ten bytes: a zero byte, the
    count on eight bytes, a zero byte; for a count that is negative or
    does not fit it raises [OverflowError] and sends nothing. *)
Theorem send_ok_packet_sends_ten_bytes (n : Z) (s : Sess) :
  sock_open s = true ->
  ((0 <= n < 2 ^ 64)%Z ->
   _send_ok_packet (Some n) s = (Ok tt, having_sent s [ok_packet n]) /\
   List.length (ok_packet n) = 10 /\
   int_from_bytes (firstn 8 (skipn 1 (ok_packet n))) = Z.to_nat n) /\
  ((n < 0 \/ 2 ^ 64 <= n)%Z ->
   exists msg, _send_ok_packet (Some n) s = (Raised (OverflowError msg), s)).
Proof.
  intros Ho. split.
  - intros Hn.
    pose proof (to_bytes_fits 8 n s Hn) as Hrun.
    pose proof (le_bytes_length 8 n) as Hlen.
    pose proof (int_from_bytes_le_bytes 8 n Hn) as Hback.
    unfold _send_ok_packet, bind. rewrite Hrun.
    split; [|split].
    + rewrite (send_open _ _ Ho). unfold having_sent. now rewrite Ho.
    + unfold ok_packet. rewrite !length_app, Hlen. reflexivity.
    + unfold ok_packet. cbn [app skipn].
      rewrite (firstn_exact 8) by exact Hlen. exact Hback.
  - intros Hn. destruct (to_bytes_overflows 8 n s Hn) as (msg & Hrun).
    exists msg. unfold _send_ok_packet, bind. now rewrite Hrun.
Qed.

End WireNumbers.

(** X14 at work on the header of a frame of 300 bytes. *)
Lemma to_bytes_reads_back_witness :
  let s := Demo.session (Demo.stores Demo.production (Demo.local_with [])) [] in
  fst (to_bytes 3 300 s) = Ok [Byte.x2c; Byte.x01; Byte.x00] /\
  declared_length ([Byte.x2c; Byte.x01; Byte.x00] ++ [Byte.x07])%list = 300 /\
  exists msg, fst (to_bytes 1 256 s) = Raised (OverflowError msg).
Proof.
  intros s.
  destruct (to_bytes_reads_back 3 300 s) as (Hfit & _ & Hheader).
  destruct (Hfit ltac:(lia)) as (Hrun & _ & _).
  split; [now rewrite Hrun|].
  split; [exact (Hheader Byte.x07 ltac:(lia))|].
  destruct (to_bytes_reads_back 1 256 s) as (_ & Hover & _).
  destruct (Hover ltac:(right; simpl; lia)) as (msg & Hraise).
  exists msg. now rewrite Hraise.
Defined.

(** X15 at work: one row, and a count that does not fit. *)
Lemma send_ok_packet_witness :
  let s := Demo.session (Demo.stores Demo.production (Demo.local_with [])) [] in
  sent (snd (_send_ok_packet (Some 1%Z) s))
  = [[Byte.x00; Byte.x01; Byte.x00; Byte.x00; Byte.x00; Byte.x00; Byte.x00;
      Byte.x00; Byte.x00; Byte.x00]] /\
  exists msg, fst (_send_ok_packet (Some (-1)%Z) s) = Raised (OverflowError msg).
Proof.
  intros s.
  destruct (send_ok_packet_sends_ten_bytes 1 s eq_refl) as (Hfit & _).
  destruct (Hfit ltac:(lia)) as (Hrun & _ & _).
  split; [now rewrite Hrun|].
  destruct (send_ok_packet_sends_ten_bytes (-1) s eq_refl) as (_ & Hover).
  destruct (Hover ltac:(lia)) as (msg & Hraise).
  exists msg. now rewrite Hraise.
Defined.

(** ** What the client is sent *)

Section ResultSets.

Context {W : World}.

Lemma bind_ok {S A B} (c : M S A) (k : A -> M S B) s a s' :
  c s = (Ok a, s') -> bind c k s = k a s'.
Proof. intros E. unfold bind. now rewrite E. Qed.

Lemma bind_raised {S A B} (c : M S A) (k : A -> M S B) s e s' :
  c s = (Raised e, s') -> bind c k s = (Raised e, s').
Proof. intros E. unfold bind. now rewrite E. Qed.

Lemma having_sent_nil (s : Sess) : having_sent s [] = s.
Proof. destruct s. unfold having_sent. cbn. now rewrite app_nil_r. Qed.

Lemma having_sent_app (s : Sess) a b :
  having_sent (having_sent s a) b = having_sent s (a ++ b).
Proof. unfold having_sent. cbn. now rewrite app_assoc. Qed.

Lemma send_sends bs (s : Sess) :
  sock_open s = true -> send bs s = (Ok tt, having_sent s [bs]).
Proof. intros Ho. unfold send, having_sent. now rewrite Ho. Qed.

Lemma short_text_length text :
  fits text = true ->
  exists b, short_text text = b :: encode text /\
            Byte.to_nat b = List.length (encode text).
Proof.
  unfold fits, short_text. intros H. apply Nat.leb_le in H.
  exists (byte_of_Z (Z.of_nat (List.length (encode text)))).
  split; [reflexivity|].
  rewrite byte_of_Z_value by lia. rewrite Z.mod_small by lia. apply Nat2Z.id.
Qed.

Lemma send_short_text_fits text (s : Sess) :
  sock_open s = true -> fits text = true ->
  send_short_text text s = (Ok tt, having_sent s [short_text text]).
Proof.
  intros Ho Hf. unfold fits in Hf. apply Nat.leb_le in Hf.
  unfold send_short_text, bind.
  rewrite to_bytes_fits by (change (256 ^ Z.of_nat 1)%Z with 256%Z; lia).
  now apply send_sends.
Qed.

Lemma send_short_text_too_long text (s : Sess) :
  fits text = false ->
  exists msg, send_short_text text s = (Raised (OverflowError msg), s).
Proof.
  intros Hf. unfold fits in Hf. apply Nat.leb_gt in Hf.
  destruct (to_bytes_overflows 1 (Z.of_nat (List.length (encode text))) s)
    as (msg & E).
  { right. change (256 ^ Z.of_nat 1)%Z with 256%Z. lia. }
  exists msg. unfold send_short_text, bind. now rewrite E.
Qed.

Lemma send_each_fits texts :
  forall s : Sess, sock_open s = true -> forallb fits texts = true ->
    send_each texts s = (Ok tt, having_sent s (map short_text texts)).
Proof.
  induction texts as [|t rest IH]; intros s Ho Hf; cbn [send_each map].
  - unfold ret. now rewrite having_sent_nil.
  - cbn [forallb] in Hf. apply andb_true_iff in Hf. destruct Hf as [Ht Hr].
    unfold bind. rewrite (send_short_text_fits _ _ Ho Ht).
    rewrite IH by assumption. now rewrite having_sent_app.
Qed.

Lemma send_each_stops pre t post :
  forall s : Sess, sock_open s = true -> forallb fits pre = true -> fits t = false ->
    exists msg, send_each (pre ++ t :: post) s
                = (Raised (OverflowError msg), having_sent s (map short_text pre)).
Proof.
  induction pre as [|p pre IH]; intros s Ho Hf Ht; cbn [app send_each map].
  - destruct (send_short_text_too_long t s Ht) as (msg & E).
    exists msg. unfold bind. now rewrite E, having_sent_nil.
  - cbn [forallb] in Hf. apply andb_true_iff in Hf. destruct Hf as [Hp Hr].
    destruct (IH (having_sent s [short_text p]) Ho Hr Ht) as (msg & E).
    exists msg. unfold bind. rewrite (send_short_text_fits _ _ Ho Hp).
    now rewrite E, having_sent_app.
Qed.

Lemma send_result_set_unfold first rest :
  _send_result_set (first :: rest)
  = (send [Byte.x01] ;;;
     send_each (column_texts first) ;;;
     send_each (map row_text (first :: rest)) ;;;
     send [Byte.xfe]).
Proof. reflexivity. Qed.

(** X16. The result set of rows whose texts fit one length byte is sent
    as one message [0x01], whatever the number of columns, one message for
    every column of the first row, one message for every row, and one
    message [0xFE]; every column and row message is the text behind one
    byte that is the length of the text. *)
Theorem send_result_set_sends_one_message_per_column_and_row
    (first : Row) (rest : list Row) (s : Sess) :
  sock_open s = true ->
  forallb fits (column_texts first ++ map row_text (first :: rest)) = true ->
  _send_result_set (first :: rest) s
  = (Ok tt,
     having_sent s ([[Byte.x01]] ++ map short_text (column_texts first)
                    ++ map short_text (map row_text (first :: rest))
                    ++ [[Byte.xfe]])) /\
  (forall text, In text (column_texts first ++ map row_text (first :: rest)) ->
     exists b, short_text text = b :: encode text /\
               Byte.to_nat b = List.length (encode text)).
Proof.
  intros Ho Hf. split.
  - rewrite forallb_app in Hf. apply andb_true_iff in Hf. destruct Hf as [Hc Hr].
    rewrite send_result_set_unfold. unfold bind.
    rewrite (send_sends _ _ Ho).
    rewrite send_each_fits by assumption.
    rewrite send_each_fits by assumption.
    rewrite send_sends by assumption.
    now rewrite !having_sent_app, <- ?app_assoc.
  - intros text Hin. apply short_text_length.
    rewrite forallb_forall in Hf. now apply Hf.
Qed.

Lemma send_ok_packet_zero (s : Sess) :
  sock_open s = true ->
  _send_ok_packet (Some 0%Z) s = (Ok tt, having_sent s [ok_packet 0]).
Proof.
  intros Ho. unfold _send_ok_packet, bind.
  rewrite to_bytes_fits by (split; [lia | reflexivity]).
  now apply send_sends.
Qed.

Lemma send_results_acknowledges (o : Outcome) (s : Sess) :
  sock_open s = true ->
  rows_affected o = None ->
  query_type o <> READ \/ data o = None \/ data o = Some None \/
  data o = Some (Some []) ->
  _send_results o s = (Ok tt, having_sent s [ok_packet 0]).
Proof.
  intros Ho Hcount Hcase. unfold _send_results, try_except. rewrite Hcount.
  assert (E : match query_type o, data o with
              | READ, Some (Some (row :: rows)) => _send_result_set (row :: rows)
              | _, _ => _send_ok_packet (Some 0%Z)
              end = _send_ok_packet (Some 0%Z)).
  { destruct (query_type o); try reflexivity.
    destruct Hcase as [H|[H|[H|H]]]; [congruence| | |]; now rewrite H. }
  rewrite E, (send_ok_packet_zero _ Ho). reflexivity.
Qed.

(** X17. [_send_results] sends a result set only for a READ that has at
    least one row.  An outcome without a count of rows that is not a READ,
    or is a READ without data or with no row, is acknowledged by the OK
    packet of zero rows, so the empty result set of [_send_result_set] is
    never sent from here. *)
Theorem send_results_without_rows_acknowledges_zero_rows (o : Outcome) (s : Sess) :
  sock_open s = true ->
  rows_affected o = None ->
  query_type o <> READ \/ data o = None \/ data o = Some None \/
  data o = Some (Some []) ->
  _send_results o s = (Ok tt, having_sent s [ok_packet 0]) /\
  _send_results o s <> _send_result_set [] s.
Proof.
  intros Ho Hcount Hcase. rewrite (send_results_acknowledges o s Ho Hcount Hcase).
  split; [reflexivity|].
  unfold _send_result_set, bind. rewrite (send_sends _ _ Ho).
  rewrite send_sends by assumption. rewrite having_sent_app.
  intros H. injection H as H. apply app_inv_head in H. discriminate H.
Qed.

(** X18. The rows production returns for a statement classified UNKNOWN
    never reach the client: the statement is run on production and the
    client is sent the OK packet of zero rows and nothing else. *)
Theorem rows_of_an_unknown_statement_never_reach_the_client
    (query : string) (s : Sess) (p' : P) (rows : list Row) :
  sock_open s = true ->
  classification list_of_set query = UNKNOWN ->
  is_safe_query query = true ->
  prod_engine (prod (db s)) query None = (p', Rows rows) ->
  fst (_handle_query query s) = Ok tt /\
  sent (snd (_handle_query query s)) = (sent s ++ [ok_packet 0])%list /\
  calls (db (snd (_handle_query query s)))
  = (calls (db s) ++ [ExecuteProduction query None (Rows rows)])%list.
Proof.
  intros Ho Hu Hsafe Hrun.
  assert (Hroute : route_query query (db s)
                   = (Ok (mkOutcome true
                            (Some "Query type unknown, executed on production")
                            (Some (Some rows)) UNKNOWN RProduction None None),
                      mkDb p' (loc (db s))
                        (calls (db s) ++ [ExecuteProduction query None (Rows rows)])%list)).
  { unfold route_query. unfold classification in Hu.
    destruct (analyze_query list_of_set query) as [[qt tables] clean].
    cbn [fst] in Hu. subst qt. rewrite Hsafe. cbn [negb].
    unfold try_except, _handle_unknown_query, bind.
    now rewrite (execute_production_query_eq _ _ _ _ _ Hrun). }
  unfold _handle_query, try_except, bind. rewrite in_router_run, Hroute.
  cbn [fst snd success].
  rewrite send_results_acknowledges;
    [ | exact Ho | reflexivity | left; discriminate ].
  cbn. repeat split.
Qed.

(** X19. A result set is sent message by message, so a text that does
    not fit one length byte is found in the middle of it: when the columns
    fit and the first row does not, the client is sent [0x01] and the
    column messages, and then the frame of 'Failed to send results'. *)
Theorem long_row_leaves_half_a_result_set_and_an_error_frame
    (o : Outcome) (first : Row) (rest : list Row) (s : Sess) :
  sock_open s = true ->
  query_type o = READ ->
  data o = Some (Some (first :: rest)) ->
  forallb fits (column_texts first) = true ->
  fits (row_text first) = false ->
  _send_results o s
  = (Ok tt,
     having_sent s ([[Byte.x01]] ++ map short_text (column_texts first)
                    ++ [error_frame "Failed to send results"])).
Proof.
  intros Ho Hq Hd Hc Hr. unfold _send_results, try_except. rewrite Hq, Hd.
  rewrite send_result_set_unfold.
  rewrite (bind_ok _ _ _ _ _ (send_sends _ _ Ho)). cbv beta.
  rewrite (bind_ok _ _ _ _ _
             (send_each_fits (column_texts first) (having_sent s [[Byte.x01]]) Ho Hc)).
  cbv beta.
  destruct (send_each_stops [] (row_text first) (map row_text rest)
              (having_sent (having_sent s [[Byte.x01]])
                 (map short_text (column_texts first))) Ho eq_refl Hr)
    as (msg & E).
  change ([] ++ row_text first :: map row_text rest)%list
    with (map row_text (first :: rest)) in E.
  rewrite (bind_raised _ _ _ _ _ E).
  unfold _send_error. rewrite send_sends by assumption.
  now rewrite !having_sent_app, <- ?app_assoc.
Qed.

End ResultSets.

(** X16 at work on one row of two columns. *)
Lemma send_result_set_witness :
  let s := Demo.session (Demo.stores Demo.production (Demo.local_with [])) [] in
  sent (snd (_send_result_set [[("id", VInt 1); ("name", VStr "a")]] s))
  = [[Byte.x01]; short_text "`id` varchar(255)"; short_text "`name` varchar(255)";
     short_text "1|a"; [Byte.xfe]].
Proof.
  intros s.
  destruct (send_result_set_sends_one_message_per_column_and_row
              [("id", VInt 1); ("name", VStr "a")] [] s eq_refl eq_refl)
    as [Hrun _].
  exact (f_equal (fun r => sent (snd r)) Hrun).
Defined.

(** X17 at work: a READ that found no row. *)
Lemma send_results_without_rows_witness :
  let s := Demo.session (Demo.stores Demo.production (Demo.local_with [])) [] in
  let o := mkOutcome true None (Some (Some [])) READ RLocal (Some ["USERS"]) None in
  sent (snd (_send_results o s)) = [ok_packet 0].
Proof.
  intros s o.
  destruct (send_results_without_rows_acknowledges_zero_rows o s eq_refl eq_refl
              (or_intror (or_intror (or_intror eq_refl))))
    as [Hrun _].
  exact (f_equal (fun r => sent (snd r)) Hrun).
Defined.

(** X18 at work: [SELECT(1)] has no keyword for first token and none of
    the four words, production answers it with a row, and the client gets
    the acknowledgment of zero rows. *)
Lemma rows_of_an_unknown_statement_witness :
  let s := Demo.session (Demo.stores Demo.production (Demo.local_with [])) [] in
  sent (snd (_handle_query "SELECT(1)" s)) = [ok_packet 0].
Proof.
  intros s.
  destruct (rows_of_an_unknown_statement_never_reach_the_client
              "SELECT(1)" s Demo.production [[("id", VInt 1)]]
              eq_refl eq_refl eq_refl eq_refl)
    as (_ & Hsent & _).
  exact Hsent.
Defined.

(** X19 at work: a value of 300 characters. *)
Lemma long_row_witness :
  let s := Demo.session (Demo.stores Demo.production (Demo.local_with [])) [] in
  let row := [("id", VStr (string_of_list_ascii (repeat "a"%char 300)))] in
  let o := mkOutcome true None (Some (Some [row])) READ RLocal (Some ["USERS"]) None in
  sent (snd (_send_results o s))
  = [[Byte.x01]; short_text "`id` varchar(255)";
     error_frame "Failed to send results"].
Proof.
  intros s row o.
  exact (f_equal (fun r => sent (snd r))
           (long_row_leaves_half_a_result_set_and_an_error_frame
              o row [] s eq_refl eq_refl eq_refl eq_refl eq_refl)).
Defined.

(** ** Every query is answered *)

Section Replies.

Context {W : World}.

Lemma sends_ret {A} (a : A) : sends false (ret a).
Proof.
  intros s Ho. cbn. repeat split; [exact Ho|].
  exists []. split; [now rewrite app_nil_r | discriminate].
Qed.

Lemma sends_raise {A} strict (e : Exc) : sends strict (@raise Sess A e).
Proof.
  intros s Ho. cbn. repeat split; [exact Ho|].
  exists []. split; [now rewrite app_nil_r | discriminate].
Qed.

Lemma sends_send bs : sends true (send bs).
Proof.
  intros s Ho. rewrite (send_sends _ _ Ho). cbn. repeat split; [exact Ho|].
  exists [bs]. split; [reflexivity | discriminate].
Qed.

Lemma sends_weaken {A} strict (c : M Sess A) : sends true c -> sends strict c.
Proof.
  intros Hc s Ho. destruct (Hc s Ho) as (H1 & H2 & more & H3 & H4).
  repeat split; [exact H1 | exact H2|]. exists more. split; [exact H3|].
  intros _. now apply H4.
Qed.

Lemma sends_to_bytes len z : sends false (to_bytes len z).
Proof.
  unfold to_bytes. destruct (z <? 0)%Z; [apply sends_raise|].
  destruct (256 ^ Z.of_nat len <=? z)%Z; [apply sends_raise | apply sends_ret].
Qed.

Lemma sends_in_router {A} (c : M Db A) : sends false (in_router c).
Proof.
  intros s Ho. rewrite in_router_run. cbn. repeat split; [exact Ho|].
  exists []. split; [now rewrite app_nil_r | discriminate].
Qed.

(** A sequence sends at least one message when one of its two parts
    does. *)
Lemma sends_bind {A B} b1 b2 (c : M Sess A) (k : A -> M Sess B) :
  sends b1 c -> (forall a, sends b2 (k a)) -> sends (b1 || b2) (bind c k).
Proof.
  intros Hc Hk s Ho. destruct (Hc s Ho) as (H1 & H2 & more & H3 & H4).
  unfold bind. destruct (c s) as [[a|e] s1]; cbn [fst snd] in *.
  - destruct (Hk a s1 H1) as (K1 & K2 & more' & K3 & K4).
    split; [exact K1|]. split; [congruence|].
    exists (more ++ more')%list. split; [now rewrite K3, H3, app_assoc|].
    intros Hb r Hr E. apply app_eq_nil in E. destruct E as [E1 E2].
    apply orb_true_iff in Hb. destruct Hb as [Hb|Hb].
    + exact (H4 Hb a eq_refl E1).
    + exact (K4 Hb r Hr E2).
  - split; [exact H1|]. split; [exact H2|]. exists more.
    split; [exact H3 | discriminate].
Qed.

Lemma sends_try {A} b (c : M Sess A) (h : Exc -> M Sess A) :
  sends b c -> (forall e, sends b (h e)) -> sends b (try_except c h).
Proof.
  intros Hc Hh s Ho. destruct (Hc s Ho) as (H1 & H2 & more & H3 & H4).
  unfold try_except. destruct (c s) as [[a|e] s1]; cbn [fst snd] in *.
  - split; [exact H1|]. split; [exact H2|]. exists more. split; [exact H3|].
    exact H4.
  - destruct (Hh e s1 H1) as (K1 & K2 & more' & K3 & K4).
    split; [exact K1|]. split; [congruence|].
    exists (more ++ more')%list. split; [now rewrite K3, H3, app_assoc|].
    intros Hb r Hr E. apply app_eq_nil in E. destruct E as [_ E2].
    exact (K4 Hb r Hr E2).
Qed.

Lemma sends_send_ok_packet n : sends true (_send_ok_packet n).
Proof.
  destruct n as [n|]; [|apply sends_raise].
  unfold _send_ok_packet.
  apply (sends_bind false true); [apply sends_to_bytes|]. intros count.
  apply sends_send.
Qed.

Lemma sends_send_short_text text : sends false (send_short_text text).
Proof.
  unfold send_short_text.
  apply (sends_bind false false); [apply sends_to_bytes|]. intros len.
  apply sends_weaken, sends_send.
Qed.

Lemma sends_send_each texts : sends false (send_each texts).
Proof.
  induction texts as [|t rest IH]; cbn [send_each]; [apply sends_ret|].
  apply (sends_bind false false); [apply sends_send_short_text|]. intros _.
  exact IH.
Qed.

Lemma sends_send_result_set rows : sends true (_send_result_set rows).
Proof.
  unfold _send_result_set. destruct rows as [|first rest].
  - apply (sends_bind true false); [apply sends_send|]. intros _.
    apply sends_weaken, sends_send.
  - apply (sends_bind true false); [apply sends_send|]. intros _.
    apply (sends_bind false false); [apply sends_send_each|]. intros _.
    apply (sends_bind false false); [apply sends_send_each|]. intros _.
    apply sends_weaken, sends_send.
Qed.

Lemma sends_send_results o : sends true (_send_results o).
Proof.
  unfold _send_results. apply sends_try; [|intros _; apply sends_send].
  destruct (query_type o); try apply sends_send_ok_packet.
  destruct (data o) as [[[|row rows]|]|];
    first [apply sends_send_ok_packet | apply sends_send_result_set].
Qed.

Lemma sends_handle_query query : sends true (_handle_query query).
Proof.
  unfold _handle_query. apply sends_try; [|intros e; apply sends_send].
  apply (sends_bind false true); [apply sends_in_router|]. intros o.
  destruct (success o); [apply sends_send_results | apply sends_send].
Qed.

(** X20. On an open socket [_handle_query] always returns and has sent
    the client at least one message when it does, whatever the statement
    and whatever the stores do; it leaves the socket open and takes
    nothing from what the client sends next. *)
Theorem handle_query_always_replies (query : string) (s : Sess) :
  sock_open s = true ->
  exists s' more,
    _handle_query query s = (Ok tt, s') /\
    sock_open s' = true /\ inbox s' = inbox s /\
    sent s' = (sent s ++ more)%list /\ more <> [].
Proof.
  intros Ho.
  destruct (answers_handle_query query s Ho) as ([] & s' & E & _).
  destruct (sends_handle_query query s Ho) as (H1 & H2 & more & H3 & H4).
  rewrite E in *. cbn [fst snd] in *.
  exists s', more. repeat split; try assumption.
  exact (H4 eq_refl tt eq_refl).
Qed.

End Replies.

(** ** Every session ends *)

Section Termination.

Context {W : World}.

Lemma recv_pending n s r s1 :
  recv n s = (r, s1) ->
  pending (inbox s1) <= pending (inbox s) /\
  (forall bs, r = Ok bs ->
              pending (inbox s1) + List.length bs <= pending (inbox s)).
Proof.
  unfold recv. destruct (negb (sock_open s)).
  { intros H. injection H as <- <-. split; [lia | discriminate]. }
  destruct (inbox s) as [|[bs0|msg] rest] eqn:Hin.
  - intros H. injection H as <- <-. rewrite Hin. cbn.
    split; [lia|]. intros bs E. injection E as <-. cbn. lia.
  - intros H. injection H as <- <-. cbn [inbox].
    pose proof (firstn_skipn n bs0) as Hsplit.
    apply (f_equal (@List.length _)) in Hsplit. rewrite length_app in Hsplit.
    assert (Hleft : pending (match skipn n bs0 with
                             | [] => rest
                             | _ :: _ => Data (skipn n bs0) :: rest
                             end)
                    + List.length (firstn n bs0)
                    <= pending (Data bs0 :: rest)).
    { destruct (skipn n bs0) as [|b left]; cbn [pending Datatypes.length] in *; lia. }
    split; [lia|]. intros bs E. injection E as <-. exact Hleft.
  - intros H. injection H as <- <-. cbn. split; [lia | discriminate].
Qed.

Lemma read_packet_pending s r s1 :
  _read_packet s = (r, s1) ->
  pending (inbox s1) <= pending (inbox s) /\
  (forall payload, r = Ok (Some payload) ->
                   sock_open s1 = true /\
                   pending (inbox s1) + 4 <= pending (inbox s)).
Proof.
  unfold _read_packet, try_except, bind, ret.
  destruct (recv 4 s) as [[header|e] sa] eqn:E1;
    destruct (recv_pending _ _ _ _ E1) as [Ha Hb].
  - specialize (Hb header eq_refl).
    destruct (List.length header <? 4) eqn:Hlen.
    + intros H. injection H as <- <-. split; [exact Ha | discriminate].
    + apply Nat.ltb_ge in Hlen.
      destruct (recv (declared_length header) sa) as [[payload|e] sb] eqn:E2;
        destruct (recv_pending _ _ _ _ E2) as [Hc Hd].
      * apply recv_open in E2.
        destruct (List.length payload <? declared_length header);
          intros H; injection H as <- <-.
        -- split; [lia | discriminate].
        -- split; [lia|]. intros p _. split; [exact E2 | lia].
      * intros H. injection H as <- <-. split; [lia | discriminate].
  - intros H. injection H as <- <-. split; [exact Ha | discriminate].
Qed.

(** A turn that goes round again has taken a frame of at least four
    bytes. *)
Lemma query_turn_pending s s' :
  query_turn s = (Ok true, s') -> pending (inbox s') < pending (inbox s).
Proof.
  unfold query_turn, try_except. unfold bind at 1.
  destruct (_read_packet s) as [[packet|e] s1] eqn:E1;
    destruct (read_packet_pending _ _ _ E1) as [Ha Hb].
  - destruct packet as [[|b bs]|]; [unfold ret; discriminate | | unfold ret; discriminate].
    destruct (Hb _ eq_refl) as [Ho Hlt].
    unfold bind.
    destruct (is_empty (strip (decode_utf8_ignore (b :: bs)))).
    + unfold ret. intros H. injection H as <-. lia.
    + destruct (sends_handle_query (strip (decode_utf8_ignore (b :: bs))) s1 Ho)
        as (_ & Hin & _).
      destruct (_handle_query (strip (decode_utf8_ignore (b :: bs))) s1)
        as [[[]|e] s2]; cbn [snd] in Hin.
      * unfold ret. intros H. injection H as <-. rewrite Hin. lia.
      * unfold _send_error, send. destruct (sock_open s2); discriminate.
  - unfold bind, _send_error, send. destruct (sock_open s1); discriminate.
Qed.

Lemma query_loop_ends fuel :
  forall s, pending (inbox s) < fuel ->
            exists r s', query_loop fuel s = Some (r, s') /\
                         pending (inbox s') <= pending (inbox s).
Proof.
  induction fuel as [|k IH]; intros s Hlt; [lia|].
  cbn [query_loop]. destruct (query_turn s) as [[[|]|e] s1] eqn:E.
  - apply query_turn_pending in E.
    destruct (IH s1 ltac:(lia)) as (r & s' & Hrun & Hle).
    exists r, s'. split; [exact Hrun | lia].
  - exists (Ok tt), s1. split; [reflexivity|].
    revert E. unfold query_turn, try_except. unfold bind at 1.
    destruct (_read_packet s) as [[packet|e] s2] eqn:E1;
      destruct (read_packet_pending _ _ _ E1) as [Ha Hb].
    + destruct packet as [[|b bs]|];
        [unfold ret; intros H; injection H as <-; exact Ha | |
         unfold ret; intros H; injection H as <-; exact Ha].
      destruct (Hb _ eq_refl) as [Ho Hlt'].
      unfold bind.
      destruct (is_empty (strip (decode_utf8_ignore (b :: bs)))).
      * unfold ret. discriminate.
      * destruct (sends_handle_query (strip (decode_utf8_ignore (b :: bs))) s2 Ho)
          as (Ho' & Hin & _).
        destruct (_handle_query (strip (decode_utf8_ignore (b :: bs))) s2)
          as [[[]|e] s3]; cbn [snd] in Hin, Ho'.
        -- unfold ret. discriminate.
        -- rewrite (_send_error_open _ _ Ho'). unfold ret.
           intros H. injection H as <-. cbn [inbox]. rewrite Hin. lia.
    + unfold bind, _send_error, send. destruct (sock_open s2).
      * unfold ret. intros H. injection H as <-. exact Ha.
      * discriminate.
  - exists (Raised e), s1. split; [reflexivity|].
    revert E. unfold query_turn, try_except. unfold bind at 1.
    destruct (_read_packet s) as [[packet|e'] s2] eqn:E1;
      destruct (read_packet_pending _ _ _ E1) as [Ha Hb].
    + destruct packet as [[|b bs]|]; [unfold ret; discriminate | |
                                     unfold ret; discriminate].
      destruct (Hb _ eq_refl) as [Ho Hlt'].
      unfold bind.
      destruct (is_empty (strip (decode_utf8_ignore (b :: bs)))).
      * unfold ret. discriminate.
      * destruct (sends_handle_query (strip (decode_utf8_ignore (b :: bs))) s2 Ho)
          as (Ho' & Hin & _).
        destruct (_handle_query (strip (decode_utf8_ignore (b :: bs))) s2)
          as [[[]|e''] s3]; cbn [snd] in Hin, Ho'.
        -- unfold ret. discriminate.
        -- rewrite (_send_error_open _ _ Ho'). unfold ret. discriminate.
    + unfold bind, _send_error, send. destruct (sock_open s2).
      * unfold ret. discriminate.
      * intros H. injection H as _ <-. exact Ha.
Qed.

Lemma not_more_pending_refl (s : Sess) : not_more_pending s s.
Proof. unfold not_more_pending. lia. Qed.

Lemma not_more_pending_trans (s1 s2 s3 : Sess) :
  not_more_pending s1 s2 -> not_more_pending s2 s3 -> not_more_pending s1 s3.
Proof. unfold not_more_pending. lia. Qed.

Lemma greeting_pending :
  preserves not_more_pending (_send_handshake ;;; _handle_authentication).
Proof.
  assert (Hsend : forall bs, preserves not_more_pending (send bs)).
  { intros bs s. unfold send, not_more_pending.
    destruct (sock_open s); cbn; lia. }
  assert (Hbytes : forall len z, preserves not_more_pending (to_bytes len z)).
  { intros len z s. unfold to_bytes, not_more_pending.
    destruct (z <? 0)%Z; [cbn; lia|].
    destruct (256 ^ Z.of_nat len <=? z)%Z; cbn; lia. }
  apply (preserves_bind _ not_more_pending_trans); [apply Hsend|]. intros _.
  unfold _handle_authentication.
  apply (preserves_try _ not_more_pending_trans);
    [|intros e; apply (preserves_ret _ not_more_pending_refl)].
  apply (preserves_bind _ not_more_pending_trans).
  - intros s. destruct (_read_packet s) as [r s1] eqn:E.
    exact (proj1 (read_packet_pending _ _ _ E)).
  - intros packet. destruct (no_packet packet);
      [apply (preserves_ret _ not_more_pending_refl)|].
    apply (preserves_bind _ not_more_pending_trans);
      [|intros _; apply (preserves_ret _ not_more_pending_refl)].
    unfold _send_ok_packet.
    apply (preserves_bind _ not_more_pending_trans); [apply Hbytes|].
    intros count. apply Hsend.
Qed.

(** X21. Every session ends with the socket closed.  Whatever arrives
    and whatever the stores do, [handle] returns once it is given more
    turns than there are arrivals and bytes to arrive, because every turn
    of the query loop that goes round again has taken a frame; it leaves
    the socket closed and has invented no input. *)
Theorem handle_ends_with_the_socket_closed (fuel : nat) (s : Sess) :
  pending (inbox s) < fuel ->
  exists s', handle fuel s = Some s' /\
             sock_open s' = false /\
             pending (inbox s') <= pending (inbox s).
Proof.
  intros Hlt. unfold handle.
  pose proof (greeting_pending s) as Hg. unfold not_more_pending in Hg.
  destruct ((_send_handshake ;;; _handle_authentication) s) as [[[|]|e] s1];
    cbn [snd] in Hg.
  - unfold serve.
    destruct (query_loop_ends fuel (set_authenticated s1)) as (r & s' & Hrun & Hle).
    { cbn [set_authenticated inbox]. lia. }
    rewrite Hrun. exists (close s'). split; [reflexivity|].
    split; [reflexivity|]. cbn [close inbox set_authenticated] in *. lia.
  - exists (close s1). split; [reflexivity|]. split; [reflexivity|]. exact Hg.
  - exists (close s1). split; [reflexivity|]. split; [reflexivity|]. exact Hg.
Qed.

(** X22. A frame that holds nothing but white space is skipped: the
    query loop goes round again having sent the client nothing and called
    no store. *)
Theorem blank_query_is_skipped_without_a_reply
    (s s1 : Sess) (payload : bytes) :
  _read_packet s = (Ok (Some payload), s1) ->
  payload <> [] ->
  is_empty (strip (decode_utf8_ignore payload)) = true ->
  query_turn s = (Ok true, s1) /\ sent s1 = sent s /\ db s1 = db s.
Proof.
  intros Hread Hne Hblank.
  destruct (read_packet_keeps _ _ _ Hread) as (Hd & Hs & _).
  split; [|split; assumption].
  unfold query_turn, try_except. rewrite (bind_ok _ _ _ _ _ Hread).
  destruct payload as [|b bs]; [contradiction|].
  rewrite Hblank. reflexivity.
Qed.

Lemma skipn_exact {A} n (l r : list A) :
  List.length l = n -> skipn n (l ++ r) = r.
Proof.
  intros <-. induction l as [|x l IH]; [reflexivity | exact IH].
Qed.

Lemma recv_data n (s : Sess) bs rest :
  sock_open s = true -> inbox s = Data bs :: rest ->
  recv n s
  = (Ok (firstn n bs),
     with_inbox s (match skipn n bs with
                   | [] => rest
                   | _ :: _ => Data (skipn n bs) :: rest
                   end)).
Proof. intros Ho Hin. unfold recv, with_inbox. now rewrite Ho, Hin. Qed.

(** X23. [_read_packet] takes what one arrival holds and does not wait
    for more.  When the four header bytes arrive together with at least
    the bytes they declare, the packet is those bytes and what follows
    them stays to be read; when they arrive with fewer bytes than they
    declare, there is no packet, the bytes that came are dropped, and the
    rest of the frame is left to be read as a header. *)
Theorem read_packet_takes_what_one_arrival_holds
    (s : Sess) (header body : bytes) (rest : list Arrival) :
  sock_open s = true ->
  inbox s = Data (header ++ body)%list :: rest ->
  List.length header = 4 ->
  body <> [] ->
  let n := declared_length header in
  (n <= List.length body ->
   _read_packet s
   = (Ok (Some (firstn n body)),
      with_inbox s (match skipn n body with
                    | [] => rest
                    | _ :: _ => Data (skipn n body) :: rest
                    end))) /\
  (List.length body < n ->
   _read_packet s = (Ok None, with_inbox s rest)).
Proof.
  intros Ho Hin Hlen Hne n.
  assert (Hhead : recv 4 s = (Ok header, with_inbox s (Data body :: rest))).
  { rewrite (recv_data 4 s _ _ Ho Hin).
    rewrite (firstn_exact 4) by exact Hlen.
    rewrite (skipn_exact 4) by exact Hlen.
    destruct body; [contradiction | reflexivity]. }
  assert (Hbody : recv n (with_inbox s (Data body :: rest))
                  = (Ok (firstn n body),
                     with_inbox s (match skipn n body with
                                   | [] => rest
                                   | _ :: _ => Data (skipn n body) :: rest
                                   end))).
  { now rewrite (recv_data n (with_inbox s (Data body :: rest)) body rest Ho eq_refl). }
  unfold _read_packet, try_except.
  rewrite (bind_ok _ _ _ _ _ Hhead). cbv beta.
  replace (List.length header <? 4) with false
    by (symmetry; apply Nat.ltb_ge; lia).
  fold n. rewrite (bind_ok _ _ _ _ _ Hbody). cbv beta.
  split; intros Hcmp.
  - rewrite length_firstn.
    replace (Nat.min n (List.length body) <? n) with false
      by (symmetry; apply Nat.ltb_ge; lia).
    reflexivity.
  - rewrite length_firstn.
    replace (Nat.min n (List.length body) <? n) with true
      by (symmetry; apply Nat.ltb_lt; lia).
    rewrite skipn_all2 by lia. reflexivity.
Qed.

End Termination.

(** X20 at work: a statement production cannot run still gets its
    message. *)
Lemma handle_query_always_replies_witness :
  let s := Demo.session (Demo.stores Demo.production_down (Demo.local_with [])) [] in
  exists s' more,
    _handle_query "SELECT * FROM users" s = (Ok tt, s') /\
    sock_open s' = true /\ inbox s' = inbox s /\
    sent s' = (sent s ++ more)%list /\ more <> [].
Proof.
  intros s. exact (handle_query_always_replies "SELECT * FROM users" s eq_refl).
Defined.

(** X21 at work: a client that greets, asks one query and goes away. *)
Lemma handle_ends_witness :
  let s := mkSess (Demo.stores Demo.production (Demo.local_with []))
             [Data (Demo.frame (encode "login"));
              Data (Demo.frame (encode "SELECT * FROM users"))]
             [] true false in
  exists s', handle 100 s = Some s' /\ sock_open s' = false /\
             pending (inbox s') <= pending (inbox s).
Proof.
  intros s. apply (handle_ends_with_the_socket_closed 100 s).
  vm_compute. lia.
Defined.

(** X22 at work: a frame of three spaces. *)
Lemma blank_query_witness :
  let s := Demo.session (Demo.stores Demo.production (Demo.local_with []))
             [Data (Demo.frame (encode "   "))] in
  fst (query_turn s) = Ok true /\ sent (snd (query_turn s)) = [].
Proof.
  intros s.
  destruct (blank_query_is_skipped_without_a_reply
              s (with_inbox s []) (encode "   ") eq_refl ltac:(discriminate) eq_refl)
    as (Hturn & Hsent & _).
  rewrite Hturn. split; reflexivity.
Defined.

(** X23 at work: a frame that arrives whole, and the same frame cut after
    its sixth byte. *)
Lemma read_packet_witness :
  let d := Demo.stores Demo.production (Demo.local_with []) in
  let header := [Byte.x08; Byte.x00; Byte.x00; Byte.x00] in
  fst (_read_packet (Demo.session d [Data (header ++ encode "SELECT 1")%list]))
  = Ok (Some (encode "SELECT 1")) /\
  _read_packet (Demo.session d [Data (header ++ encode "SE")%list;
                                Data (encode "LECT 1")])
  = (Ok None, Demo.session d [Data (encode "LECT 1")]).
Proof.
  intros d header. split.
  - destruct (read_packet_takes_what_one_arrival_holds
                (Demo.session d [Data (header ++ encode "SELECT 1")%list])
                header (encode "SELECT 1") [] eq_refl eq_refl eq_refl
                ltac:(discriminate))
      as [Hwhole _].
    exact (f_equal fst (Hwhole ltac:(vm_compute; lia))).
  - destruct (read_packet_takes_what_one_arrival_holds
                (Demo.session d [Data (header ++ encode "SE")%list;
                                 Data (encode "LECT 1")])
                header (encode "SE") [Data (encode "LECT 1")] eq_refl eq_refl
                eq_refl ltac:(discriminate))
      as [_ Hcut].
    exact (Hcut ltac:(vm_compute; lia)).
Defined.

(** ** The outcomes of the write path, and what the client is told *)

Section WriteOutcomes.

Context {W : World}.

(** X24. The write path ends in one of four ways: the statement was
    run locally and gave a result set; no table name was extracted; the
    first table that is not local has no columns on production; the local
    store gave the statement no result set.  The fifth message of the
    source, 'Failed to create local table', is never produced. *)
Theorem write_path_has_four_outcomes
    (query : string) (tables : list string) (s s' : Db) (o : Outcome) :
  _handle_write_query query tables s = (Ok o, s') ->
  ((success o = true /\ error o = None /\
    rows_affected o = Some (_get_rows_affected query)) \/
   (tables = [] /\ error o = Some "No table names found in write query") \/
   (exists t, In t tables /\
              error o = Some ("Failed to get schema for table: " ++ t)) \/
   error o = Some "Write query failed on local database") /\
  (forall t, error o <> Some ("Failed to create local table: " ++ t)).
Proof.
  intros Hrun.
  assert (Hcases :
    (success o = true /\ error o = None /\
     rows_affected o = Some (_get_rows_affected query)) \/
    (tables = [] /\ error o = Some "No table names found in write query") \/
    (exists t, In t tables /\
               error o = Some ("Failed to get schema for table: " ++ t)) \/
    error o = Some "Write query failed on local database").
  { revert Hrun. unfold _handle_write_query. destruct tables as [|t rest].
    { intros H. injection H as <- _. right. left. now split. }
    unfold bind at 1.
    destruct (ensure_local_tables (t :: rest) s) as [[[early|]|e] s1] eqn:Hloop;
      [| |discriminate].
    - intros H. injection H as <- _.
      destruct (ensure_local_tables_failed _ _ _ _ Hloop)
        as (done & t' & todo & _ & _ & _ & _ & Htables & _ & _ & _ & ->).
      right. right. left. exists t'. split; [|reflexivity].
      rewrite Htables. apply in_or_app. right. now left.
    - unfold bind, execute_local_query.
      destruct (local_engine (loc s1) query None) as [l' r].
      destruct (returned r); intros H; injection H as <- _.
      + left. now repeat split.
      + right. right. right. reflexivity. }
  split; [exact Hcases|].
  intros t E.
  destruct Hcases as [(_ & H & _)|[(_ & H)|[(t' & _ & H)|H]]];
    rewrite H in E; cbn in E; discriminate E.
Qed.

Lemma send_ok_packet_fits n (s : Sess) :
  sock_open s = true -> (0 <= n < 2 ^ 64)%Z ->
  _send_ok_packet (Some n) s = (Ok tt, having_sent s [ok_packet n]).
Proof.
  intros Ho Hn. unfold _send_ok_packet, bind.
  rewrite to_bytes_fits by exact Hn.
  now apply send_sends.
Qed.

(** X25. A successful WRITE that begins with INSERT, UPDATE or DELETE,
    in any letter case, is acknowledged with a count of one row,
    whatever the number of rows the statement changed. *)
Theorem successful_insert_update_delete_is_acknowledged_with_one_row
    (query : string) (s : Sess) (o : Outcome) :
  sock_open s = true ->
  classification list_of_set query = WRITE ->
  fst (route_query query (db s)) = Ok o ->
  success o = true ->
  startswith (upper query) "INSERT" || startswith (upper query) "UPDATE"
  || startswith (upper query) "DELETE" = true ->
  fst (_handle_query query s) = Ok tt /\
  sent (snd (_handle_query query s)) = (sent s ++ [ok_packet 1])%list.
Proof.
  intros Ho Hw Hfst Hs Hkey.
  destruct (route_query query (db s)) as [r d'] eqn:Hroute.
  cbn [fst] in Hfst. subst r.
  destruct (route_query_successful_write _ _ _ _ Hw Hroute Hs) as (Hq & _ & Hcount).
  assert (Hone : _get_rows_affected query = Some 1%Z).
  { unfold _get_rows_affected.
    destruct (startswith (upper query) "INSERT"); [reflexivity|].
    destruct (startswith (upper query) "UPDATE"); [reflexivity|].
    destruct (startswith (upper query) "DELETE"); [reflexivity | discriminate]. }
  unfold _handle_query, try_except, bind. rewrite in_router_run, Hroute.
  cbn [fst snd]. rewrite Hs.
  unfold _send_results, try_except. rewrite Hq, Hcount, Hone.
  rewrite send_ok_packet_fits; [ | exact Ho | split; [lia | reflexivity] ].
  cbn. now split.
Qed.

(** X26. Authentication checks nothing but that a packet came: any
    packet of at least one byte, whatever its bytes, is acknowledged and
    accepted; no packet, or an empty one, is refused without a word. *)
Theorem authentication_accepts_any_non_empty_packet
    (s s1 : Sess) (packet : option bytes) :
  sock_open s = true ->
  _read_packet s = (Ok packet, s1) ->
  (no_packet packet = false ->
   _handle_authentication s = (Ok true, having_sent s1 [ok_packet 0])) /\
  (no_packet packet = true ->
   _handle_authentication s = (Ok false, s1)).
Proof.
  intros Ho Hread.
  destruct (read_packet_keeps _ _ _ Hread) as (_ & _ & Ho1).
  rewrite Ho in Ho1.
  unfold _handle_authentication, try_except.
  rewrite (bind_ok _ _ _ _ _ Hread). cbv beta.
  split; intros Hp; rewrite Hp; [|reflexivity].
  rewrite (bind_ok _ _ _ _ _ (send_ok_packet_zero _ Ho1)). reflexivity.
Qed.

End WriteOutcomes.

Section AnalyzeCase.

Variable order : list string -> list string.

(** X27. The type and the table names of a statement of ASCII
    characters do not depend on its letter case: two such statements that
    are equal once upper-cased are classified alike and name the same
    tables. *)
Theorem analyze_query_ignores_case (q1 q2 : string) :
  isascii q1 = true -> isascii q2 = true ->
  upper q1 = upper q2 ->
  classification order q1 = classification order q2 /\
  tables_of order q1 = tables_of order q2.
Proof.
  intros _ _ H.
  assert (Hn : normalize q1 = normalize q2).
  { unfold normalize. now rewrite <- !strip_upper, H. }
  unfold classification, tables_of, analyze_query. cbn [fst snd].
  now rewrite Hn.
Qed.

End AnalyzeCase.

(** X24 at work: production has no table GHOSTS. *)
Lemma write_path_outcomes_witness :
  let s := Demo.stores Demo.production (Demo.local_with []) in
  let query := "INSERT INTO ghosts (a) VALUES (1)" in
  let o := failure "Failed to get schema for table: GHOSTS" WRITE RError in
  fst (_handle_write_query query ["GHOSTS"] s) = Ok o /\
  (exists t, In t ["GHOSTS"] /\
             error o = Some ("Failed to get schema for table: " ++ t)) /\
  (forall t, error o <> Some ("Failed to create local table: " ++ t)).
Proof.
  intros s query o.
  split; [reflexivity|].
  destruct (write_path_has_four_outcomes query ["GHOSTS"] s
              (snd (_handle_write_query query ["GHOSTS"] s)) o eq_refl)
    as [_ Hnever].
  split; [|exact Hnever].
  exists "GHOSTS". split; [now left | reflexivity].
Defined.

(** X25 at work: an INSERT that returns the new row. *)
Lemma successful_insert_witness :
  let s := Demo.session (Demo.stores Demo.production (Demo.local_with ["USERS"])) [] in
  sent (snd (_handle_query "insert into users (name) values ('a') returning id" s))
  = [ok_packet 1].
Proof.
  intros s.
  exact (proj2 (successful_insert_update_delete_is_acknowledged_with_one_row
                  "insert into users (name) values ('a') returning id" s
                  (mkOutcome true None (Some (Some [[("id", VInt 1)]])) WRITE RLocal
                     (Some ["USERS"]) (Some (Some 1%Z)))
                  eq_refl eq_refl eq_refl eq_refl eq_refl)).
Defined.

(** X26 at work: the packet [x] authenticates. *)
Lemma authentication_witness :
  let s := mkSess (Demo.stores Demo.production (Demo.local_with []))
             [Data (Demo.frame (encode "x"))] [] true false in
  _handle_authentication s = (Ok true, having_sent (with_inbox s []) [ok_packet 0]).
Proof.
  intros s.
  exact (proj1 (authentication_accepts_any_non_empty_packet
                  s (with_inbox s []) (Some (encode "x")) eq_refl eq_refl)
           eq_refl).
Defined.

(** X27 at work. *)
Lemma analyze_query_ignores_case_witness :
  classification (fun l => l) "select * from Users" = READ /\
  tables_of (fun l => l) "select * from Users" = ["USERS"].
Proof.
  destruct (analyze_query_ignores_case (fun l => l)
              "select * from Users" "SELECT * FROM USERS" eq_refl eq_refl eq_refl)
    as [Hc Ht].
  rewrite Hc, Ht. split; reflexivity.
Defined.
